(** * Depth-to-tracked-entity pipeline of the Kinect ghost installations

    A shallow embedding of the per-frame pipeline shared by
    [working_ghost_tracker.py], [scripts/ghost_tracker_fixed.py],
    [video_ghosting_effect.py] and [particle_ghosting_effect.py]:
    the depth normalizer, the blob extractor's ordering, the identity
    tracker, the opacity fade and the silhouette trail.

    Numbers are modelled as the code has them: Python [int]s are [Z],
    NumPy [float32] and Python [float] values are IEEE-754 binary32 and
    binary64 values ([spec_float] with the operations of [SpecFloat],
    rounding to nearest even).  What the code takes from outside (the
    clock, the random generator, the C library's sine, OpenCV's contour
    functions) is an argument or a section variable. *)

From Stdlib Require Import ZArith QArith Qround Lia List Bool String Sorted SpecFloat.
From stdpp Require Import base option list gmap.
Import ListNotations.

#[local] Open Scope Z_scope.

(** * Part I: the embedding *)

(** ** IEEE-754 arithmetic *)

Definition is_nan (x : spec_float) : bool :=
  match x with S754_nan => true | _ => false end.

Definition pos_zero : spec_float := S754_zero false.

(** binary32: NumPy's [float32]. *)
Definition f32_of_int (n : Z) : spec_float := binary_normalize 24 128 n 0 false.
Definition f32_sub : spec_float -> spec_float -> spec_float := SFsub 24 128.
Definition f32_mul : spec_float -> spec_float -> spec_float := SFmul 24 128.
Definition f32_div : spec_float -> spec_float -> spec_float := SFdiv 24 128.

(** binary64: Python's [float]. *)
Definition f64_of_int (n : Z) : spec_float := binary_normalize 53 1024 n 0 false.
Definition f64_add : spec_float -> spec_float -> spec_float := SFadd 53 1024.
Definition f64_sub : spec_float -> spec_float -> spec_float := SFsub 53 1024.
Definition f64_mul : spec_float -> spec_float -> spec_float := SFmul 53 1024.
Definition f64_div : spec_float -> spec_float -> spec_float := SFdiv 53 1024.

(** A Python [float] operand of a [float32] array operation is rounded to
    [float32] before the operation. *)
Definition f32_of_f64 (x : spec_float) : spec_float :=
  match x with
  | S754_finite s m e => binary_round 24 128 s m e
  | _ => x
  end.

(** Truncation toward zero, the integer part a C cast keeps. *)
Definition trunc (x : spec_float) : Z :=
  match x with
  | S754_finite s m e =>
      cond_Zopp s (if 0 <=? e then Z.pos m * 2 ^ e else Z.pos m / 2 ^ (- e))
  | _ => 0
  end.

(** [astype(np.uint8)]: truncation, then the low eight bits.  (For a value
    outside [0, 256) the C cast behind it is platform dependent; the
    normalizer only casts values inside that range.) *)
Definition astype_uint8 (x : spec_float) : Z := trunc x mod 256.

(** [np.clip] on floats: [min(max(x, lo), hi)], a NaN [x] is kept. *)
Definition np_max (a b : spec_float) : spec_float := if SFltb b a then a else b.
Definition np_min (a b : spec_float) : spec_float := if SFltb a b then a else b.
Definition np_clip (x lo hi : spec_float) : spec_float :=
  if is_nan x then x else np_min (np_max x lo) hi.

(** The integer [v], [0 < v < 2 ^ prec], written as a normal float of
    precision [prec]: its mantissa has exactly [prec] bits. *)
Definition canon_mant (prec : Z) (v : positive) : positive :=
  Z.to_pos (Z.pos v * 2 ^ (prec - Z.pos (digits2_pos v))).
Definition canon_exp (prec : Z) (v : positive) : Z := Z.pos (digits2_pos v) - prec.
Definition canon (prec : Z) (s : bool) (v : positive) : spec_float :=
  S754_finite s (canon_mant prec v) (canon_exp prec v).

(** The float of precision [prec] whose value is the integer [n]. *)
Definition fint (prec : Z) (n : Z) : spec_float :=
  match n with
  | Z0 => pos_zero
  | Z.pos v => canon prec false v
  | Z.neg v => canon prec true v
  end.

(** ** Depth normalizer ([normalize_depth]) *)

(** The raw depth clamped into the band. *)
Definition clamp (raw lo hi : Z) : Z := Z.min (Z.max raw lo) hi.

(** The body of [normalize_depth] on one pixel [raw] of [depth_mm]. *)
Definition normalize_pixel (depth_min depth_max : Z) (raw : Z) : Z :=
  let d := f32_of_int raw in
  let d := if SFleb d pos_zero then S754_nan else d in
  let near := f64_of_int depth_min in
  let far := f64_of_int depth_max in
  let d := np_clip d (f32_of_f64 near) (f32_of_f64 far) in
  let d := f32_div (f32_sub d (f32_of_f64 near)) (f32_of_f64 (f64_sub far near)) in
  let d := f32_mul (f32_sub (f32_of_int 1) d) (f32_of_int 255) in
  let d := if is_nan d then pos_zero else d in
  astype_uint8 d.

(** The last three steps of [normalize_depth], applied to the quotient. *)
Definition scale_quotient (q : spec_float) : Z :=
  let d := f32_mul (f32_sub (f32_of_int 1) q) (f32_of_int 255) in
  astype_uint8 (if is_nan d then pos_zero else d).

Definition normalize_depth (depth_min depth_max : Z) (depth_mm : list (list Z))
  : list (list Z) :=
  map (map (normalize_pixel depth_min depth_max)) depth_mm.

(** What a Python call does: it returns a value or raises.  Nothing in
    the body of [normalize_depth] raises: a NumPy division by zero yields
    [nan] or [inf] (with a warning), not an exception. *)
Inductive outcome (A : Type) : Type :=
  | Returns (a : A)
  | Raises (msg : string).
Arguments Returns {A} a.
Arguments Raises {A} msg.

Definition call_normalize_depth (depth_min depth_max : Z) (depth_mm : list (list Z))
  : outcome (list (list Z)) :=
  Returns (normalize_depth depth_min depth_max depth_mm).

(** *** The normalizer as the specification words it

    [round((1 - (clamped_depth - depth_min) / (depth_max - depth_min)) * 255)]
    over exact rationals, [round] being rounding to the nearest integer
    (ties to even, as Python's [round]). *)
Definition round_half_even (q : Q) : Z :=
  let f := Qfloor q in
  match Qcompare (q - inject_Z f) (1 # 2) with
  | Lt => f
  | Gt => f + 1
  | Eq => if Z.even f then f else f + 1
  end.

Definition normalize_spec (depth_min depth_max raw : Z) : Z :=
  if raw <=? 0 then 0
  else
    let c := clamp raw depth_min depth_max in
    round_half_even
      ((1 - inject_Z (c - depth_min) / inject_Z (depth_max - depth_min)) * 255)%Q.

(** ** Identity tracker ([track_people]) *)

Definition point : Type := Z * Z.

(** A blob tuple [(cx, cy, blob_depth, contour)], with a fifth component
    once an identity is attached. *)
Record blob : Type := Blob {
  cx : Z;
  cy : Z;
  blob_depth : Z;
  contour : list point;
  pid : option Z
}.

(** [(cx, cy, blob_depth, contour, p)], whatever the arity of [b]. *)
Definition set_id (p : Z) (b : blob) : blob :=
  Blob (cx b) (cy b) (blob_depth b) (contour b) (Some p).

(** An entry [{'center': (cx, cy), 'id': pid}] of [self.previous_blobs]. *)
Record prev_blob : Type := PrevBlob {
  pb_center : point;
  pb_id : Z
}.

(** The tracker's attributes.  They are created by the first call
    ([hasattr]), with the values of [new_tracker]. *)
Record tracker : Type := Tracker {
  previous_blobs : list prev_blob;
  person_counter : Z
}.

Definition new_tracker : tracker := Tracker [] 0.

(** Centroids are Python integers, and [dist] is
    [np.sqrt((cx - px)**2 + (cy - py)**2)], a binary64 value.  The
    tracker's two tests on [dist] are decided here on its square,
    [dist2]: [dist < 100] is [dist2 < 100 ^ 2], and [dist < min_dist] is
    the same test on the squares.  [find_best_np] and [track_people_np]
    below are the same code on the binary64 distances themselves;
    [track_people_np_eq] shows that they return the same result for all
    centroids within [in_range]. *)
Definition dist2 (p : point) (b : blob) : Z :=
  (cx b - fst p) ^ 2 + (cy b - snd p) ^ 2.

(** [dist < min_dist], where [None] is [float('inf')]. *)
Definition closer (d : Z) (min_dist : option Z) : bool :=
  match min_dist with
  | None => true
  | Some m => d <? m
  end.

(** The inner loop over [enumerate(current_blobs)], from index [i] on. *)
Fixpoint find_best (p : point) (current_blobs : list blob) (matched : list bool)
  (i : nat) (min_dist : option Z) (best_match : option nat) : option nat :=
  match current_blobs, matched with
  | blob_data :: blobs, m :: ms =>
      if m then find_best p blobs ms (S i) min_dist best_match
      else
        let dist := dist2 p blob_data in
        if closer dist min_dist && (dist <? 100 ^ 2)
        then find_best p blobs ms (S i) (Some dist) (Some i)
        else find_best p blobs ms (S i) min_dist best_match
  | _, _ => best_match
  end.

(** The same loop on [dist] as NumPy computes it; [min_dist] starts at
    [float('inf')]. *)
Definition np_sqrt_int (n : Z) : spec_float := SFsqrt 53 1024 (f64_of_int n).

Definition np_dist (p : point) (b : blob) : spec_float := np_sqrt_int (dist2 p b).

Fixpoint find_best_np (p : point) (current_blobs : list blob) (matched : list bool)
  (i : nat) (min_dist : spec_float) (best_match : option nat) : option nat :=
  match current_blobs, matched with
  | blob_data :: blobs, m :: ms =>
      if m then find_best_np p blobs ms (S i) min_dist best_match
      else
        let dist := np_dist p blob_data in
        if SFltb dist min_dist && SFltb dist (f64_of_int 100)
        then find_best_np p blobs ms (S i) dist (Some i)
        else find_best_np p blobs ms (S i) min_dist best_match
  | _, _ => best_match
  end.

(** Centroids the binary64 loop is compared on: coordinates of magnitude
    up to [2 ^ 24], so that every squared distance is below [2 ^ 52]. *)
Definition in_range (p : point) : Prop :=
  - 2 ^ 24 <= fst p <= 2 ^ 24 /\ - 2 ^ 24 <= snd p <= 2 ^ 24.

(** [min_dist] of the binary64 loop against [min_dist] of the loop on
    squares. *)
Definition same_min (min_dist : spec_float) (min_dist2 : option Z) : Prop :=
  match min_dist2 with
  | None => min_dist = S754_infinity false
  | Some d => 0 <= d < 2 ^ 52 /\ min_dist = np_sqrt_int d
  end.

(** One iteration of the loop over [self.previous_blobs]. *)
Definition match_step (st : list bool * list blob) (prev_blob : prev_blob)
  : list bool * list blob :=
  let '(matched, current_blobs) := st in
  match find_best (pb_center prev_blob) current_blobs matched 0 None None with
  | Some best_match =>
      (<[best_match := true]> matched,
       alter (set_id (pb_id prev_blob)) best_match current_blobs)
  | None => st
  end.

(** The loop over [enumerate(matched)] that mints new ids. *)
Fixpoint assign_new (current_blobs : list blob) (matched : list bool)
  (person_counter : Z) : list blob * Z :=
  match current_blobs, matched with
  | blob_data :: blobs, is_matched :: ms =>
      if is_matched
      then let '(rest, c) := assign_new blobs ms person_counter in
           (blob_data :: rest, c)
      else let '(rest, c) := assign_new blobs ms (person_counter + 1) in
           (set_id (person_counter + 1) blob_data :: rest, c)
  | _, _ => (current_blobs, person_counter)
  end.

(** The final comprehension reads the fifth component of every tuple; by
    then every tuple has one ([track_people_all_ids]). *)
Definition to_prev (b : blob) : prev_blob :=
  PrevBlob (cx b, cy b) (default 0 (pid b)).

Definition track_people (self : tracker) (current_blobs : list blob)
  : list blob * tracker :=
  let matched := replicate (length current_blobs) false in
  let '(matched, current_blobs) :=
    fold_left match_step (previous_blobs self) (matched, current_blobs) in
  let '(current_blobs, person_counter) :=
    assign_new current_blobs matched (person_counter self) in
  (current_blobs, Tracker (to_prev <$> current_blobs) person_counter).

(** [track_people] with the loop on binary64 distances. *)
Definition match_step_np (st : list bool * list blob) (prev_blob : prev_blob)
  : list bool * list blob :=
  let '(matched, current_blobs) := st in
  match find_best_np (pb_center prev_blob) current_blobs matched 0
          (S754_infinity false) None with
  | Some best_match =>
      (<[best_match := true]> matched,
       alter (set_id (pb_id prev_blob)) best_match current_blobs)
  | None => st
  end.

Definition track_people_np (self : tracker) (current_blobs : list blob)
  : list blob * tracker :=
  let matched := replicate (length current_blobs) false in
  let '(matched, current_blobs) :=
    fold_left match_step_np (previous_blobs self) (matched, current_blobs) in
  let '(current_blobs, person_counter) :=
    assign_new current_blobs matched (person_counter self) in
  (current_blobs, Tracker (to_prev <$> current_blobs) person_counter).

(** A continuous run: the frames are tracked one after the other; the
    result lists each frame's output. *)
Fixpoint run (self : tracker) (frames : list (list blob)) : list (list blob) * tracker :=
  match frames with
  | [] => ([], self)
  | current_blobs :: rest =>
      let '(out, self) := track_people self current_blobs in
      let '(outs, self) := run self rest in
      (out :: outs, self)
  end.

(** The number of unmatched blobs among the first [i]: how many ids
    the minting loop has handed out when it reaches index [i]. *)
Fixpoint unmatched_before (matched : list bool) (i : nat) : Z :=
  match matched, i with
  | is_matched :: ms, S i' => (if is_matched then 0 else 1) + unmatched_before ms i'
  | _, _ => 0
  end.

(** The [matched] flags when the loop over the previous entities ends. *)
Definition final_matched (self : tracker) (current_blobs : list blob) : list bool :=
  (fold_left match_step (previous_blobs self)
     (replicate (length current_blobs) false, current_blobs)).1.

(** The tracker after a run that started with a new tracker. *)
Definition tracker_after (history : list (list blob)) : tracker :=
  (run new_tracker history).2.

(** A blob track through a run: each frame with the index of the track's
    blob in it.  [track_ids] lists the ids the tracker gives that blob. *)
Fixpoint track_ids (self : tracker) (steps : list (list blob * nat)) : list (option Z) :=
  match steps with
  | [] => []
  | (current_blobs, i) :: rest =>
      let '(out, self) := track_people self current_blobs in
      (out !! i ≫= pid) :: track_ids self rest
  end.

Definition centre (b : blob) : point := (cx b, cy b).

(** The track's displacement from frame to frame stays below the
    matching distance. *)
Fixpoint small_steps (prev_frame : list blob) (j : nat) (steps : list (list blob * nat))
  : Prop :=
  match steps with
  | [] => True
  | (current_blobs, i) :: rest =>
      (exists a b, prev_frame !! j = Some a /\ current_blobs !! i = Some b /\
                   dist2 (centre a) b < 100 ^ 2) /\
      small_steps current_blobs i rest
  end.

(** Blob [i] of the current frame continues entity [j] of the previous
    frame undisturbed: it is within the matching distance of [j], no
    entity before [j] is within the matching distance of it, and every
    other blob of the frame is strictly farther from [j]. *)
Definition apart (centres : list point) (j : nat) (current_blobs : list blob) (i : nat)
  : Prop :=
  exists c b, centres !! j = Some c /\ current_blobs !! i = Some b /\
    dist2 c b < 100 ^ 2 /\
    (forall j' c', (j' < j)%nat -> centres !! j' = Some c' -> 100 ^ 2 <= dist2 c' b) /\
    (forall i' b', i' <> i -> current_blobs !! i' = Some b' -> dist2 c b < dist2 c b').

Fixpoint well_separated (prev_frame : list blob) (j : nat)
  (steps : list (list blob * nat)) : Prop :=
  match steps with
  | [] => True
  | (current_blobs, i) :: rest =>
      apart (centre <$> prev_frame) j current_blobs i /\
      well_separated current_blobs i rest
  end.

(** A bare blob at [(x, y)], as the extractor hands it over. *)
Definition mk (x y : Z) : blob := Blob x y 0 [] None.

(** What the tracker must not touch. *)
Definition geometry (b : blob) : Z * Z * Z * list point :=
  (cx b, cy b, blob_depth b, contour b).

(** [b] is within the matching distance of [p]. *)
Definition within (p : point) (b : blob) : Prop := dist2 p b < 100 ^ 2.

(** The counter bounds every id the tracker remembers. *)
Definition ids_bounded (self : tracker) : Prop :=
  Forall (fun prev => pb_id prev <= person_counter self) (previous_blobs self).

(** ** Silhouette trail ([add_silhouette_to_trail]) *)

Section Trail.
(** A silhouette mask; its pixels play no part. *)
Variable mask : Type.

(** [self.ghost_trails.append(silhouette.copy())], then [pop(0)] when the
    list has grown beyond [self.ghost_trail_length]. *)
Definition add_silhouette_to_trail (ghost_trail_length : nat)
    (ghost_trails : list mask) (silhouette : mask) : list mask :=
  let ghost_trails := ghost_trails ++ [silhouette] in
  if (ghost_trail_length <? length ghost_trails)%nat
  then tail ghost_trails
  else ghost_trails.

(** The trail after pushing [silhouettes] one after the other. *)
Definition push_all (ghost_trail_length : nat) (ghost_trails : list mask)
    (silhouettes : list mask) : list mask :=
  fold_left (add_silhouette_to_trail ghost_trail_length) silhouettes ghost_trails.
End Trail.

Arguments add_silhouette_to_trail {mask} ghost_trail_length ghost_trails silhouette.
Arguments push_all {mask} ghost_trail_length ghost_trails silhouettes.

(** [self.ghost_trail_length], set once in [__init__]. *)
Definition ghost_trail_length : nat := 5.

(** ** Blob extractor ([find_all_person_blobs]) *)

(** [cv2.threshold] and [cv2.findContours] belong to OpenCV: the embedding
    starts from the contours they return for the frame.  [cv2.contourArea]
    and [cv2.moments] are parameters: the area as the exact value of the
    double OpenCV returns, the moments [(m00, m10, m01)] as binary64
    values. *)
Section BlobExtractor.
Variable contourArea : list point -> Q.
Variable moments : list point -> spec_float * spec_float * spec_float.

Definition Qltb (x y : Q) : bool := negb (Qle_bool y x).

(** [depth.shape] and [depth[cy, cx]] of a frame given by its rows. *)
Definition shape0 (depth : list (list Z)) : Z := Z.of_nat (length depth).
Definition shape1 (depth : list (list Z)) : Z :=
  match depth with
  | row :: _ => Z.of_nat (length row)
  | [] => 0
  end.
Definition pixel (depth : list (list Z)) (cy cx : Z) : Z :=
  (depth !!! Z.to_nat cy) !!! Z.to_nat cx.

(** The body of the loop over [contours]: the blob tuple appended for
    [contour], if any. *)
Definition person_blob (depth : list (list Z)) (contour : list point) : option blob :=
  let area := contourArea contour in
  if Qltb 5000 area then
    let '(m00, m10, m01) := moments contour in
    if SFltb pos_zero m00 then
      let cx := trunc (f64_div m10 m00) in
      let cy := trunc (f64_div m01 m00) in
      if (0 <=? cy) && (cy <? shape0 depth) && (0 <=? cx) && (cx <? shape1 depth)
      then Some (Blob cx cy (pixel depth cy cx) contour None)
      else None
    else None
  else None.

(** [list.sort(key=..., reverse=True)]: the stable sort into descending
    key order, here by insertion. *)
Fixpoint insert_desc (key : blob -> Q) (x : blob) (l : list blob) : list blob :=
  match l with
  | [] => [x]
  | y :: l' => if Qltb (key x) (key y) then y :: insert_desc key x l' else x :: l
  end.

Definition sort_desc (key : blob -> Q) (l : list blob) : list blob :=
  foldr (insert_desc key) [] l.

(** [find_all_person_blobs] of [ghost_tracker_fixed.py]. *)
Definition find_all_person_blobs (depth : list (list Z)) (contours : list (list point))
  : list blob :=
  let person_blobs := omap (person_blob depth) contours in
  sort_desc (fun x => contourArea (contour x)) person_blobs.

(** [find_all_person_blobs] of [video_ghosting_effect.py] and
    [particle_ghosting_effect.py], which ends with [track_people]. *)
Definition find_all_person_blobs_tracked (self : tracker) (depth : list (list Z))
    (contours : list (list point)) : list blob * tracker :=
  track_people self (find_all_person_blobs depth contours).
End BlobExtractor.

(** What OpenCV computes for a polygonal contour with integer vertices
    (Green's formula): twice the signed area, and from it the area. *)
Fixpoint shoelace (prev : point) (contour : list point) : Z :=
  match contour with
  | [] => 0
  | p :: rest => fst prev * snd p - snd prev * fst p + shoelace p rest
  end.

Definition polygon_area (contour : list point) : Q :=
  match contour with
  | [] => 0
  | p :: _ => Z.abs (shoelace (List.last contour p) contour) # 2
  end.

(** The first-order sums of Green's formula, and the spatial moments
    OpenCV derives from them in double precision:
    [m00 = a00 * (+-0.5)], [m10 = a10 * (+-1/6)], [m01 = a01 * (+-1/6)], the
    sign being that of [a00]. *)
Fixpoint green_sums (prev : point) (contour : list point) : Z * Z :=
  match contour with
  | [] => (0, 0)
  | p :: rest =>
      let dxy := fst prev * snd p - fst p * snd prev in
      let '(a10, a01) := green_sums p rest in
      (dxy * (fst prev + fst p) + a10, dxy * (snd prev + snd p) + a01)
  end.

Definition polygon_moments (contour : list point)
  : spec_float * spec_float * spec_float :=
  match contour with
  | [] => (pos_zero, pos_zero, pos_zero)
  | p :: _ =>
      let a00 := shoelace (List.last contour p) contour in
      let '(a10, a01) := green_sums (List.last contour p) contour in
      if a00 =? 0 then (pos_zero, pos_zero, pos_zero)
      else
        let sgn := if 0 <? a00 then 1 else -1 in
        let db1_2 := f64_div (f64_of_int sgn) (f64_of_int 2) in
        let db1_6 := f64_div (f64_of_int sgn) (f64_of_int 6) in
        (f64_mul (f64_of_int a00) db1_2,
         f64_mul (f64_of_int a10) db1_6,
         f64_mul (f64_of_int a01) db1_6)
  end.

(** Two 100 x 100 squares in a 480 x 640 frame. *)
Definition square (x y : Z) : list point :=
  [(x, y); (x, y + 99); (x + 99, y + 99); (x + 99, y)].
Definition flat_frame : list (list Z) := replicate 480 (replicate 640 1000).

(** Descending order of [key], ties allowed. *)
Definition desc (key : blob -> Q) (a b : blob) : Prop := (key b <= key a)%Q.

(** ** Ghost assignment and opacity fade ([ghost_tracker_fixed.py]) *)

(** A decimal literal such as [0.7]: the double nearest to [num / den]. *)
Definition f64_of_decimal (num den : Z) : spec_float :=
  f64_div (f64_of_int num) (f64_of_int den).

(** [np.pi] *)
Definition np_pi : spec_float := S754_finite false 7074237752028440 (-51).

(** C's [fmod] on finite doubles: exact, with the sign of [x]. *)
Definition fmod (x y : spec_float) : spec_float :=
  match x, y with
  | S754_finite sx mx ex, S754_finite sy my ey =>
      let e := Z.min ex ey in
      let r := (Z.pos mx * 2 ^ (ex - e)) mod (Z.pos my * 2 ^ (ey - e)) in
      binary_normalize 53 1024 (cond_Zopp sx r) e sx
  | S754_zero _, S754_finite _ _ _ => x
  | S754_zero _, S754_infinity _ => x
  | S754_finite _ _ _, S754_infinity _ => x
  | _, _ => S754_nan
  end.

Definition is_zero (x : spec_float) : bool :=
  match x with S754_zero _ => true | _ => false end.

Definition sign_bit (x : spec_float) : bool :=
  match x with
  | S754_zero s | S754_infinity s | S754_finite s _ _ => s
  | S754_nan => false
  end.

(** Python's [x % y] on floats: [None] is [ZeroDivisionError]. *)
Definition py_float_mod (x y : spec_float) : option spec_float :=
  if is_zero y then None
  else
    let r := fmod x y in
    if is_zero r then Some (S754_zero (sign_bit y))
    else if xorb (SFltb y pos_zero) (SFltb r pos_zero) then Some (f64_add r y)
    else Some r.

(** Python's [x / y] on floats. *)
Definition py_float_div (x y : spec_float) : option spec_float :=
  if is_zero y then None else Some (f64_div x y).

(** An entry of [self.person_fade_data]. *)
Record fade_data : Type := FadeData {
  cycle_time : spec_float;
  start_time : spec_float;
  min_opacity : spec_float;
  max_opacity : spec_float
}.

Section GhostTracker.
(** A loaded sprite image. *)
Variable sprite : Type.
(** [np.sin], the C library's sine. *)
Variable np_sin : spec_float -> spec_float.

(** The attributes of [GhostTrackerFixed] the assignment reads or writes. *)
Record ghost_tracker : Type := GhostTracker {
  ghost_alpha : spec_float;
  ghost_sprites : list sprite;
  person_ghost_map : gmap Z sprite;
  person_fade_data : gmap Z fade_data
}.

(** [__init__], once the sprites are loaded. *)
Definition new_ghost_tracker (sprites : list sprite) : ghost_tracker :=
  GhostTracker (f64_of_decimal 7 10) sprites ∅ ∅.

(** [assign_ghost_to_person]; [choice], [uniform] and [now] are what
    [random.choice(self.ghost_sprites)], [random.uniform(0.5, 2.0)] and
    [time.time()] return in this call. *)
Definition assign_ghost_to_person (self : ghost_tracker) (person_id : Z)
    (choice : sprite) (uniform now : spec_float) : option sprite * ghost_tracker :=
  let self :=
    match person_ghost_map self !! person_id with
    | Some _ => self
    | None =>
        if (0 <? length (ghost_sprites self))%nat then
          GhostTracker (ghost_alpha self) (ghost_sprites self)
            (<[person_id := choice]> (person_ghost_map self))
            (<[person_id := FadeData uniform now (f64_of_decimal 4 10)
                              (f64_of_decimal 8 10)]> (person_fade_data self))
        else self
    end in
  (person_ghost_map self !! person_id, self).

(** The local [cycle_position] of [get_current_opacity]:
    [(elapsed % cycle_time) / cycle_time]. *)
Definition cycle_position (fade_data : fade_data) (now : spec_float)
  : option spec_float :=
  let elapsed := f64_sub now (start_time fade_data) in
  match py_float_mod elapsed (cycle_time fade_data) with
  | None => None
  | Some r => py_float_div r (cycle_time fade_data)
  end.

(** [get_current_opacity]; [now] is what [time.time()] returns.  The
    result comes with the tracker as the call leaves it. *)
Definition get_current_opacity (self : ghost_tracker) (now : spec_float)
    (person_id : Z) : outcome spec_float * ghost_tracker :=
  match person_fade_data self !! person_id with
  | None => (Returns (ghost_alpha self), self)
  | Some fade_data =>
      match cycle_position fade_data now with
      | None => (Raises "ZeroDivisionError", self)
      | Some cycle_position =>
          let sine_value :=
            f64_div
              (f64_add (np_sin (f64_mul (f64_mul cycle_position (f64_of_int 2)) np_pi))
                 (f64_of_int 1))
              (f64_of_int 2) in
          let opacity :=
            f64_add (min_opacity fade_data)
              (f64_mul sine_value
                 (f64_sub (max_opacity fade_data) (min_opacity fade_data))) in
          (Returns opacity, self)
      end
  end.
End GhostTracker.

Arguments ghost_alpha {sprite} _.
Arguments ghost_sprites {sprite} _.
Arguments person_ghost_map {sprite} _.
Arguments person_fade_data {sprite} _.
Arguments new_ghost_tracker {sprite} sprites.
Arguments assign_ghost_to_person {sprite} self person_id choice uniform now.
Arguments get_current_opacity {sprite} np_sin self now person_id.

(** The tracker after a series of [assign_ghost_to_person] calls, each
    given as [(person_id, choice, uniform, now)]. *)
Definition after_assignments {sprite : Type} (sprites : list sprite)
    (calls : list (Z * sprite * spec_float * spec_float)) : ghost_tracker sprite :=
  fold_left
    (fun self '(person_id, choice, uniform, now) =>
       (assign_ghost_to_person self person_id choice uniform now).2)
    calls (new_ghost_tracker sprites).

(** ** What the tracker keeps from frame to frame *)

(** The ids the tracker remembers are pairwise distinct and lie between 1
    and the counter. *)
Definition ids_distinct (self : tracker) : Prop :=
  NoDup (pb_id <$> previous_blobs self) /\
  Forall (fun prev => 1 <= pb_id prev <= person_counter self) (previous_blobs self) /\
  0 <= person_counter self.

(** ** Largest region ([find_person_center]) *)

(** Sequencing of calls that may raise. *)
Definition bind {A B : Type} (x : outcome A) (f : A -> outcome B) : outcome B :=
  match x with
  | Returns a => f a
  | Raises msg => Raises msg
  end.

Notation "x <- e1 ;; e2" := (bind e1 (fun x => e2))
  (at level 100, e1 at next level, right associativity).

(** Python's [int(x)] on a float: the integer part; an infinity raises
    [OverflowError], a NaN [ValueError]. *)
Definition py_int (x : spec_float) : outcome Z :=
  match x with
  | S754_nan => Raises "ValueError"
  | S754_infinity _ => Raises "OverflowError"
  | _ => Returns (trunc x)
  end.

(** [(depth > self.depth_min) & (depth < self.depth_max)], as 0 or 255. *)
Definition depth_mask (depth_min depth_max : Z) (depth : list (list Z)) : list (list Z) :=
  map (map (fun d => if (depth_min <? d) && (d <? depth_max) then 255 else 0)) depth.

Section PersonCenter.
(** OpenCV's part: the contours of a mask, their areas and moments. *)
Variable findContours : list (list Z) -> list (list point).
Variable contourArea : list point -> Q.
Variable moments : list point -> spec_float * spec_float * spec_float.

(** [max(contours, key=cv2.contourArea)] from the running maximum
    [largest] on: a later contour replaces it only when strictly larger. *)
Fixpoint max_by_area (largest : list point) (contours : list (list point)) : list point :=
  match contours with
  | [] => largest
  | c :: rest =>
      max_by_area (if Qltb (contourArea largest) (contourArea c) then c else largest) rest
  end.

(** [find_person_center]: [(center, largest_contour, mask)], the first two
    [None] together. *)
Definition find_person_center (depth_min depth_max : Z) (depth : list (list Z))
  : outcome (option (Z * Z * Z) * option (list point) * list (list Z)) :=
  let mask := depth_mask depth_min depth_max depth in
  match findContours mask with
  | [] => Returns (None, None, mask)
  | c :: rest =>
      let largest_contour := max_by_area c rest in
      if Qltb (contourArea largest_contour) 10000 then Returns (None, None, mask)
      else
        let '(m00, m10, m01) := moments largest_contour in
        if SFltb pos_zero m00 then
          cx <- py_int (f64_div m10 m00) ;;
          cy <- py_int (f64_div m01 m00) ;;
          if (0 <=? cy) && (cy <? shape0 depth) && (0 <=? cx) && (cx <? shape1 depth)
          then Returns (Some (cx, cy, pixel depth cy cx), Some largest_contour, mask)
          else Returns (None, None, mask)
        else Returns (None, None, mask)
  end.
End PersonCenter.

(** ** Control panel ([mouse_callback]) *)

(** The two attributes a click can change. *)
Record panel : Type := Panel {
  capture_background : bool;
  debug_mode : bool
}.

(** [cv2.EVENT_LBUTTONDOWN] *)
Definition EVENT_LBUTTONDOWN : Z := 1.

(** The areas of the "Capture BG" button and of the debug checkbox. *)
Definition on_button (x y : Z) : bool :=
  (50 <=? x) && (x <=? 200) && (250 <=? y) && (y <=? 300).
Definition on_checkbox (x y : Z) : bool :=
  (50 <=? x) && (x <=? 80) && (200 <=? y) && (y <=? 230).

Definition mouse_callback (self : panel) (event x y : Z) : panel :=
  if event =? EVENT_LBUTTONDOWN then
    if on_button x y then Panel true (debug_mode self)
    else if on_checkbox x y then Panel (capture_background self) (negb (debug_mode self))
    else self
  else self.

(** The panel after a series of mouse events [(event, x, y)]. *)
Definition after_events (self : panel) (events : list (Z * Z * Z)) : panel :=
  fold_left (fun self '(event, x, y) => mouse_callback self event x y) events self.

(** Left clicks on the button, and on the checkbox. *)
Definition button_click (e : Z * Z * Z) : bool :=
  let '(event, x, y) := e in (event =? EVENT_LBUTTONDOWN) && on_button x y.
Definition checkbox_click (e : Z * Z * Z) : bool :=
  let '(event, x, y) := e in (event =? EVENT_LBUTTONDOWN) && on_checkbox x y.

(** ** Bat particles ([Particle] of [particle_ghosting_effect.py]) *)

(** A Python number as the particle code has them: an [int] (a start
    position, a screen edge, a centroid) or a [float]. *)
Inductive pynum : Type :=
  | PyInt (n : Z)
  | PyFloat (x : spec_float).

(** [float(n)]: the nearest double, [OverflowError] when there is none. *)
Definition py_float_of_int (n : Z) : outcome spec_float :=
  match f64_of_int n with
  | S754_infinity _ => Raises "OverflowError"
  | f => Returns f
  end.

Definition to_float (a : pynum) : outcome spec_float :=
  match a with
  | PyInt n => py_float_of_int n
  | PyFloat x => Returns x
  end.

(** [a + b] and [a - b]: on two ints exact, otherwise on doubles. *)
Definition py_add (a b : pynum) : outcome pynum :=
  match a, b with
  | PyInt m, PyInt n => Returns (PyInt (m + n))
  | _, _ => x <- to_float a ;; y <- to_float b ;; Returns (PyFloat (f64_add x y))
  end.

Definition py_sub (a b : pynum) : outcome pynum :=
  match a, b with
  | PyInt m, PyInt n => Returns (PyInt (m - n))
  | _, _ => x <- to_float a ;; y <- to_float b ;; Returns (PyFloat (f64_sub x y))
  end.

(** [x / y] on floats, with its [ZeroDivisionError]. *)
Definition float_truediv (x y : spec_float) : outcome spec_float :=
  match py_float_div x y with
  | Some q => Returns q
  | None => Raises "ZeroDivisionError"
  end.

(** [a / y] with a float [y]. *)
Definition py_truediv (a : pynum) (y : spec_float) : outcome spec_float :=
  x <- to_float a ;; float_truediv x y.

(** A double against an integer, compared by value as Python does. *)
Definition float_cmp_int (x : spec_float) (n : Z) : option comparison :=
  match x with
  | S754_nan => None
  | S754_infinity s => Some (if s then Lt else Gt)
  | S754_zero _ => Some (0 ?= n)
  | S754_finite s m e =>
      Some (if 0 <=? e then cond_Zopp s (Z.pos m * 2 ^ e) ?= n
            else cond_Zopp s (Z.pos m) ?= n * 2 ^ (- e))
  end.

Definition py_cmp_int (a : pynum) (n : Z) : option comparison :=
  match a with
  | PyInt m => Some (m ?= n)
  | PyFloat x => float_cmp_int x n
  end.

(** [a <= n], [a >= n], [a < n], [a > n]: false on a NaN. *)
Definition py_le (a : pynum) (n : Z) : bool :=
  match py_cmp_int a n with Some (Lt | Eq) => true | _ => false end.
Definition py_ge (a : pynum) (n : Z) : bool :=
  match py_cmp_int a n with Some (Gt | Eq) => true | _ => false end.
Definition py_lt (a : pynum) (n : Z) : bool :=
  match py_cmp_int a n with Some Lt => true | _ => false end.
Definition py_gt (a : pynum) (n : Z) : bool :=
  match py_cmp_int a n with Some Gt => true | _ => false end.

(** [math.sqrt(a)]: [ValueError] on a negative number. *)
Definition math_sqrt (a : pynum) : outcome spec_float :=
  x <- to_float a ;;
  let r := SFsqrt 53 1024 x in
  if is_nan r && negb (is_nan x) then Raises "ValueError" else Returns r.

(** [max(0, min(limit, pos))], with the built-ins' rule that the first
    argument is kept unless the second is strictly beyond it. *)
Definition clamp_to_screen (limit : Z) (pos : pynum) : pynum :=
  let inner := if py_lt pos limit then pos else PyInt limit in
  if py_gt inner 0 then inner else PyInt 0.

Module Particle.

(** The attributes [update] and [check_collisions] read or write. *)
Record t : Type := Build {
  x : pynum;
  y : pynum;
  screen_width : Z;
  screen_height : Z;
  vx : spec_float;
  vy : spec_float;
  was_hit : bool;
  hit_frames_ago : Z
}.

Section Update.
(** OpenCV's point-in-contour test and moments; and [v ** 2] on a float,
    which Python computes with the C library's [pow] and which raises
    [OverflowError] when the result overflows. *)
Variable pointPolygonTest : list point -> pynum -> pynum -> outcome spec_float.
Variable moments : list point -> spec_float * spec_float * spec_float.
Variable float_pow2 : spec_float -> outcome spec_float.

(** [a ** 2] *)
Definition pow2 (a : pynum) : outcome pynum :=
  match a with
  | PyInt n => Returns (PyInt (n ^ 2))
  | PyFloat v => w <- float_pow2 v ;; Returns (PyFloat w)
  end.

(** [math.sqrt(vx**2 + vy**2)] *)
Definition speed (vx vy : spec_float) : outcome spec_float :=
  a <- float_pow2 vx ;; b <- float_pow2 vy ;; math_sqrt (PyFloat (f64_add a b)).

(** [check_collisions]: the loop over [person_contours], left at the
    first contour the particle bounces off. *)
Fixpoint check_collisions (self : t) (person_contours : list (list point))
    (bounce_multiplier : spec_float) : outcome t :=
  match person_contours with
  | [] => Returns self
  | contour :: rest =>
      inside <- pointPolygonTest contour (x self) (y self) ;;
      if py_ge (PyFloat inside) 0 then
        let '(m00, m10, m01) := moments contour in
        if py_gt (PyFloat m00) 0 then
          cx <- (q <- float_truediv m10 m00 ;; py_int q) ;;
          cy <- (q <- float_truediv m01 m00 ;; py_int q) ;;
          dx <- py_sub (x self) (PyInt cx) ;;
          dy <- py_sub (y self) (PyInt cy) ;;
          dx2 <- pow2 dx ;;
          dy2 <- pow2 dy ;;
          sum <- py_add dx2 dy2 ;;
          distance <- math_sqrt sum ;;
          if py_gt (PyFloat distance) 0 then
            dx <- py_truediv dx distance ;;
            dy <- py_truediv dy distance ;;
            current_speed <- speed (vx self) (vy self) ;;
            let bounce_speed := f64_mul current_speed bounce_multiplier in
            Returns (Build (x self) (y self) (screen_width self) (screen_height self)
                       (f64_mul dx bounce_speed) (f64_mul dy bounce_speed) true 0)
          else check_collisions self rest bounce_multiplier
        else check_collisions self rest bounce_multiplier
      else check_collisions self rest bounce_multiplier
  end.

(** One axis of "bounce off edges": the position and the velocity after
    the test against [0] and the screen edge [limit]. *)
Definition bounce (limit : Z) (pos : pynum) (v : spec_float) : pynum * spec_float :=
  if py_le pos 0 || py_ge pos limit
  then (clamp_to_screen limit pos, SFopp v)
  else (pos, v).

(** "Apply speed decay if not recently hit". *)
Definition decay (was_hit : bool) (vx vy speed_decay min_speed : spec_float)
  : outcome (spec_float * spec_float) :=
  if negb was_hit then
    let vx := f64_mul vx speed_decay in
    let vy := f64_mul vy speed_decay in
    current_speed <- speed vx vy ;;
    if SFltb current_speed min_speed && py_gt (PyFloat current_speed) 0 then
      if py_gt (PyFloat current_speed) 0 then
        qx <- float_truediv vx current_speed ;;
        qy <- float_truediv (vy) current_speed ;;
        Returns (f64_mul qx min_speed, f64_mul qy min_speed)
      else Returns (vx, vy)
    else Returns (vx, vy)
  else Returns (vx, vy).

(** "Update hit state". *)
Definition hit_state (was_hit : bool) (hit_frames_ago : Z) : bool * Z :=
  if was_hit then
    let hit_frames_ago := hit_frames_ago + 1 in
    if 5 <? hit_frames_ago then (false, 0) else (was_hit, hit_frames_ago)
  else (was_hit, hit_frames_ago).

(** [update] *)
Definition update (self : t) (person_contours : list (list point))
    (speed_decay min_speed bounce_multiplier : spec_float) : outcome t :=
  self <- check_collisions self person_contours bounce_multiplier ;;
  x' <- py_add (x self) (PyFloat (vx self)) ;;
  y' <- py_add (y self) (PyFloat (vy self)) ;;
  let '(x', vx') := bounce (screen_width self) x' (vx self) in
  let '(y', vy') := bounce (screen_height self) y' (vy self) in
  v <- decay (was_hit self) vx' vy' speed_decay min_speed ;;
  let '(was_hit', hit_frames_ago') := hit_state (was_hit self) (hit_frames_ago self) in
  Returns (Build x' y' (screen_width self) (screen_height self) v.1 v.2
             was_hit' hit_frames_ago').
End Update.

(** A position that is a number is on the screen. *)
Definition on_screen (limit : Z) (pos : pynum) : Prop :=
  match pos with
  | PyFloat S754_nan => True
  | _ => py_ge pos 0 = true /\ py_le pos limit = true
  end.

(** The hit flag and its frame counter go together. *)
Definition hit_state_ok (self : t) : Prop :=
  if was_hit self then 0 <= hit_frames_ago self <= 5 else hit_frames_ago self = 0.

End Particle.

(** ** Rounding to nearest, on fractions

    What [SpecFloat]'s operations compute, written on integers: a finite
    value is counted in units of [2 ^ emin], the smallest step of the
    format, and an exact result is a fraction [P / Q] of such units. *)

(** Position of [N / D] between two integers, as a rounding location. *)
Definition loc_of (N D : Z) : location :=
  if N mod D =? 0 then loc_Exact else loc_Inexact (2 * (N mod D) ?= D).

(** [N / D] rounded to the nearest integer, ties to even. *)
Definition RNE (N D : Z) : Z := round_nearest_even (N / D) (loc_of N D).

(** The number of low bits a value of [k] units cannot keep in a mantissa
    of [prec] bits. *)
Definition grid (prec k : Z) : Z := Z.max 0 (Zdigits2 k - prec).

(** [P / Q] units rounded to the nearest value a mantissa of [prec] bits
    can hold, in units. *)
Definition Rnd (prec P Q : Z) : Z :=
  RNE P (Q * 2 ^ grid prec (P / Q)) * 2 ^ grid prec (P / Q).

(** The float of [U] units of [2 ^ emin]. *)
Definition encode (prec emax : Z) (s : bool) (U : Z) : spec_float :=
  match U / 2 ^ grid prec U with
  | Z.pos m =>
      if emin prec emax + grid prec U <=? emax - prec
      then S754_finite s m (emin prec emax + grid prec U)
      else S754_infinity s
  | _ => S754_zero s
  end.

(** The value of a finite float in units of [2 ^ emin]. *)
Definition ulps (prec emax : Z) (x : spec_float) : Z :=
  match x with
  | S754_finite _ m e => Z.pos m * 2 ^ (e - emin prec emax)
  | _ => 0
  end.

(** A valid float that is [+0] or positive and finite. *)
Definition nonneg_finite (prec emax : Z) (x : spec_float) : Prop :=
  match x with
  | S754_zero s => s = false
  | S754_finite s m e => s = false /\ bounded prec emax m e = true
  | _ => False
  end.

(** The signed value of a finite float in units of [2 ^ emin]. *)
Definition sulps (prec emax : Z) (x : spec_float) : Z :=
  match x with
  | S754_finite s m e => cond_Zopp s (Z.pos m * 2 ^ (e - emin prec emax))
  | _ => 0
  end.

(** A valid float that is a zero or finite. *)
Definition finite_float (prec emax : Z) (x : spec_float) : Prop :=
  match x with
  | S754_zero _ => True
  | S754_finite _ m e => bounded prec emax m e = true
  | _ => False
  end.

(** ** The fade formula ([get_current_opacity]) *)

(** The local [opacity] of [get_current_opacity] for the value [sine] of
    [np.sin]. *)
Definition opacity_of_sine (fade_data : fade_data) (sine : spec_float) : spec_float :=
  f64_add (min_opacity fade_data)
    (f64_mul (f64_div (f64_add sine (f64_of_int 1)) (f64_of_int 2))
       (f64_sub (max_opacity fade_data) (min_opacity fade_data))).

(** A sine-like function for examples: 0 on every number, NaN elsewhere. *)
Definition flat_sine (x : spec_float) : spec_float :=
  match x with
  | S754_nan | S754_infinity _ => S754_nan
  | _ => pos_zero
  end.

(** ** Distance trackbars ([update_min_distance_feet], [update_max_distance_feet]) *)




(** * Part II: properties *)

(** ** IEEE-754 facts: integers below [2 ^ prec] are computed exactly *)

Lemma Zpos_iter_xO (m d : positive) : Z.pos (Pos.iter xO m d) = Z.pos m * 2 ^ Z.pos d.
Proof.
  induction d as [|d IH] using Pos.peano_ind.
  - simpl. lia.
  - rewrite Pos.iter_succ, Pos2Z.inj_succ, Z.pow_succ_r by lia. 
    rewrite Pos2Z.inj_xO, IH. lia.
Qed.

Lemma digits2_pos_bounds (m : positive) :
  2 ^ (Z.pos (digits2_pos m) - 1) <= Z.pos m < 2 ^ Z.pos (digits2_pos m).
Proof.
  induction m as [m IH|m IH|]; cbn [digits2_pos].
  - rewrite Pos2Z.inj_succ, Z.pow_succ_r by lia.
    replace (Z.succ (Z.pos (digits2_pos m)) - 1) with (Z.succ (Z.pos (digits2_pos m) - 1)) by lia.
    rewrite Z.pow_succ_r by lia. lia.
  - rewrite Pos2Z.inj_succ, Z.pow_succ_r by lia.
    replace (Z.succ (Z.pos (digits2_pos m)) - 1) with (Z.succ (Z.pos (digits2_pos m) - 1)) by lia.
    rewrite Z.pow_succ_r by lia. lia.
  - simpl. lia.
Qed.

Lemma digits2_pos_unique (m : positive) (d : Z) :
  2 ^ (d - 1) <= Z.pos m < 2 ^ d -> Z.pos (digits2_pos m) = d.
Proof.
  intros [Hlo Hhi]. pose proof (digits2_pos_bounds m) as [Hl Hh].
  assert (0 < d). 
  { destruct (Z_lt_le_dec 0 d); [lia|]. 
    destruct (Z.eq_dec d 0) as [->|]; [simpl in Hhi; lia|].
    rewrite Z.pow_neg_r in Hhi by lia. lia. }
  destruct (Z.lt_trichotomy (Z.pos (digits2_pos m)) d) as [Hc|[Hc|Hc]]; [|exact Hc|].
  - assert (2 ^ Z.pos (digits2_pos m) <= 2 ^ (d - 1)) by (apply Z.pow_le_mono_r; lia). lia.
  - assert (2 ^ d <= 2 ^ (Z.pos (digits2_pos m) - 1)) by (apply Z.pow_le_mono_r; lia). lia.
Qed.

Lemma digits2_pos_shift (m m' : positive) (k : Z) :
  0 <= k -> Z.pos m' = Z.pos m * 2 ^ k ->
  Z.pos (digits2_pos m') = Z.pos (digits2_pos m) + k.
Proof.
  intros Hk Hm. apply digits2_pos_unique. rewrite Hm.
  pose proof (digits2_pos_bounds m) as [Hl Hh].
  replace (Z.pos (digits2_pos m) + k - 1) with ((Z.pos (digits2_pos m) - 1) + k) by lia.
  rewrite !Z.pow_add_r by lia.
  assert (0 < 2 ^ k) by (apply Z.pow_pos_nonneg; lia).
  split; nia.
Qed.

Lemma iter_pos_nat {A} (f : A -> A) (p : positive) (x : A) :
  SpecFloat.iter_pos f p x = Nat.iter (Pos.to_nat p) f x.
Proof.
  revert x. induction p as [p IH|p IH|]; intros x; cbn [SpecFloat.iter_pos].
  - rewrite !IH, Pos2Nat.inj_xI. 
    replace (S (2 * Pos.to_nat p))%nat with (Pos.to_nat p + (Pos.to_nat p + 1))%nat by lia.
    rewrite !Nat.iter_add. reflexivity.
  - rewrite !IH, Pos2Nat.inj_xO.
    replace (2 * Pos.to_nat p)%nat with (Pos.to_nat p + Pos.to_nat p)%nat by lia.
    rewrite Nat.iter_add. reflexivity.
  - reflexivity.
Qed.

Lemma shr_1_exact (q : positive) :
  shr_1 (Build_shr_record (Z.pos q~0) false false) = Build_shr_record (Z.pos q) false false.
Proof. reflexivity. Qed.

Lemma shr_exact_nat (n : nat) (m q : positive) :
  Z.pos m = Z.pos q * 2 ^ Z.of_nat n ->
  Nat.iter n shr_1 (Build_shr_record (Z.pos m) false false) = Build_shr_record (Z.pos q) false false.
Proof.
  revert m. induction n as [|n IH]; intros m Hm.
  - change (Z.of_nat 0) with 0 in Hm. rewrite Z.pow_0_r, Z.mul_1_r in Hm.
    simpl. now rewrite Hm.
  - rewrite Nat.iter_succ_r. 
    rewrite Nat2Z.inj_succ, Z.pow_succ_r in Hm by lia.
    remember (2 ^ Z.of_nat n) as t eqn:Et.
    assert (Hm' : Z.pos m = 2 * (Z.pos q * t)) by lia.
    assert (0 < t) by (subst t; apply Z.pow_pos_nonneg; lia).
    destruct m as [m|m|].
    + rewrite Pos2Z.inj_xI in Hm'. lia.
    + rewrite shr_1_exact. apply IH. rewrite Pos2Z.inj_xO in Hm'. lia.
    + nia.
Qed.

Lemma digits2_pos_mono (a b : positive) :
  (a <= b)%positive -> Z.pos (digits2_pos a) <= Z.pos (digits2_pos b).
Proof.
  intros Hab. pose proof (digits2_pos_bounds a) as [Hla _].
  pose proof (digits2_pos_bounds b) as [_ Hhb].
  destruct (Z_le_gt_dec (Z.pos (digits2_pos a)) (Z.pos (digits2_pos b))) as [|Hgt]; [assumption|].
  assert (2 ^ Z.pos (digits2_pos b) <= 2 ^ (Z.pos (digits2_pos a) - 1))
    by (apply Z.pow_le_mono_r; lia).
  lia.
Qed.

Section ExactIntegers.
Variable prec : Z.
Hypothesis Hprec : 0 < prec.

Lemma digits_le_prec (v : positive) : Z.pos v < 2 ^ prec -> Z.pos (digits2_pos v) <= prec.
Proof.
  intros Hv. pose proof (digits2_pos_bounds v) as [Hl _].
  destruct (Z_le_gt_dec (Z.pos (digits2_pos v)) prec) as [|Hgt]; [assumption|].
  assert (2 ^ prec <= 2 ^ (Z.pos (digits2_pos v) - 1)) by (apply Z.pow_le_mono_r; lia).
  lia.
Qed.

Lemma canon_mant_spec (v : positive) :
  Z.pos v < 2 ^ prec ->
  Z.pos (canon_mant prec v) = Z.pos v * 2 ^ (prec - Z.pos (digits2_pos v)).
Proof.
  intros Hv. unfold canon_mant. rewrite Z2Pos.id; [reflexivity|].
  pose proof (digits_le_prec v Hv).
  assert (0 < 2 ^ (prec - Z.pos (digits2_pos v))) by (apply Z.pow_pos_nonneg; lia).
  nia.
Qed.

Lemma canon_mant_digits (v : positive) :
  Z.pos v < 2 ^ prec -> Z.pos (digits2_pos (canon_mant prec v)) = prec.
Proof.
  intros Hv. pose proof (digits_le_prec v Hv).
  rewrite (digits2_pos_shift v (canon_mant prec v) (prec - Z.pos (digits2_pos v))).
  - lia.
  - lia.
  - now apply canon_mant_spec.
Qed.

Lemma SFcompare_canon_lt (a b : positive) :
  Z.pos b < 2 ^ prec -> (a < b)%positive ->
  SFcompare (canon prec false a) (canon prec false b) = Some Lt.
Proof.
  intros Hb Hab.
  assert (Ha : Z.pos a < 2 ^ prec) by lia.
  pose proof (digits2_pos_mono a b ltac:(lia)) as Hd.
  unfold canon. cbn [SFcompare]. unfold canon_exp.
  destruct (Z.compare_spec (Z.pos (digits2_pos a) - prec) (Z.pos (digits2_pos b) - prec))
    as [He|He|He]; [|reflexivity|lia].
  f_equal. change (Pos.compare_cont Eq (canon_mant prec a) (canon_mant prec b))
    with (Pos.compare (canon_mant prec a) (canon_mant prec b)).
  apply Pos.compare_lt_iff.
  pose proof (canon_mant_spec a Ha). pose proof (canon_mant_spec b Hb).
  pose proof (digits_le_prec b Hb).
  assert (0 < 2 ^ (prec - Z.pos (digits2_pos b))) by (apply Z.pow_pos_nonneg; lia).
  replace (Z.pos (digits2_pos a)) with (Z.pos (digits2_pos b)) in * by lia.
  nia.
Qed.

(** From here on the exponent range matters. *)
Variable emax : Z.
Hypothesis Hemax : prec <= emax.
Hypothesis Hemax2 : 2 <= emax.

Lemma fexp_digits (d : Z) : 1 <= d -> fexp prec emax d = d - prec.
Proof. unfold fexp, emin. lia. Qed.

Lemma binary_round_aux_canonical (s : bool) (m : positive) (e : Z) :
  Z.pos (digits2_pos m) = prec -> 1 <= prec + e -> e <= emax - prec ->
  binary_round_aux prec emax s (Z.pos m) e loc_Exact = S754_finite s m e.
Proof.
  intros Hd Hlo Hhi.
  assert (Hshr : shr_fexp prec emax (Z.pos m) e loc_Exact
                 = (Build_shr_record (Z.pos m) false false, e)).
  { unfold shr_fexp. cbn [Zdigits2 shr_record_of_loc]. rewrite Hd, fexp_digits by lia.
    replace (prec + e - prec - e) with 0 by lia. reflexivity. }
  unfold binary_round_aux. rewrite Hshr. cbn [shr_m loc_of_shr_record round_nearest_even].
  rewrite Hshr. cbn [shr_m].
  apply Z.leb_le in Hhi. now rewrite Hhi.
Qed.

Lemma binary_round_exact (s : bool) (m v : positive) (e : Z) :
  Z.pos v < 2 ^ prec -> e <= 0 -> Z.pos m = Z.pos v * 2 ^ (- e) ->
  binary_round prec emax s m e = canon prec s v.
Proof.
  intros Hv He Hm.
  pose proof (digits_le_prec v Hv) as Hdv.
  pose proof (canon_mant_spec v Hv) as Hcm.
  pose proof (canon_mant_digits v Hv) as Hcd.
  assert (Hdm : Z.pos (digits2_pos m) = Z.pos (digits2_pos v) + - e)
    by (apply digits2_pos_shift; [lia|assumption]).
  unfold binary_round. rewrite Hdm.
  replace (Z.pos (digits2_pos v) + - e + e) with (Z.pos (digits2_pos v)) by lia.
  rewrite fexp_digits by lia.
  unfold shl_align.
  destruct (Z.pos (digits2_pos v) - prec - e) as [|p|p] eqn:Hp.
  - (* already aligned *)
    assert (m = canon_mant prec v) as ->.
    { apply Pos2Z.inj. rewrite Hcm, Hm. f_equal. f_equal. lia. }
    replace e with (canon_exp prec v) by (unfold canon_exp; lia).
    apply binary_round_aux_canonical; unfold canon_exp; lia.
  - (* too many digits: the dropped bits are zero *)
    unfold binary_round_aux, shr_fexp. cbn [Zdigits2 shr_record_of_loc].
    rewrite Hdm. replace (Z.pos (digits2_pos v) + - e + e) with (Z.pos (digits2_pos v)) by lia.
    rewrite fexp_digits by lia. rewrite Hp. cbn [shr].
    rewrite iter_pos_nat, (shr_exact_nat _ m (canon_mant prec v)).
    + cbn [shr_m loc_of_shr_record round_nearest_even Zdigits2 shr_record_of_loc].
      rewrite Hcd. rewrite fexp_digits by lia.
      replace (prec + (e + Z.pos p) - prec - (e + Z.pos p)) with 0 by lia.
      cbn [shr shr_m].
      replace (e + Z.pos p) with (canon_exp prec v) by (unfold canon_exp; lia).
      assert (Hle : (canon_exp prec v <=? emax - prec) = true) by (apply Z.leb_le; unfold canon_exp; lia).
      now rewrite Hle.
    + rewrite positive_nat_Z, Hcm, Hm, <- Z.mul_assoc, <- Z.pow_add_r by lia.
      f_equal. f_equal. lia.
  - (* too few digits: shift left *)
    assert (Pos.iter xO m p = canon_mant prec v) as ->.
    { apply Pos2Z.inj. rewrite Zpos_iter_xO, Hcm, Hm, <- Z.mul_assoc, <- Z.pow_add_r by lia.
      f_equal. f_equal. lia. }
    apply binary_round_aux_canonical; lia.
Qed.

Lemma binary_normalize_int (n : Z) :
  Z.abs n < 2 ^ prec -> binary_normalize prec emax n 0 false = fint prec n.
Proof.
  intros Hn. destruct n as [|v|v]; cbn [binary_normalize fint]; [reflexivity| |];
    apply binary_round_exact; simpl Z.abs in Hn; try lia;
    change (- 0) with 0; rewrite Z.pow_0_r; lia.
Qed.

Lemma SFsub_canon (a b : positive) :
  Z.pos a < 2 ^ prec -> (b < a)%positive ->
  SFsub prec emax (canon prec false a) (canon prec false b) = canon prec false (a - b).
Proof.
  intros Ha Hba.
  assert (Hb : Z.pos b < 2 ^ prec) by lia.
  pose proof (digits2_pos_mono b a ltac:(lia)) as Hd.
  pose proof (digits_le_prec a Ha) as Hda.
  pose proof (canon_mant_spec a Ha) as Hma.
  pose proof (canon_mant_spec b Hb) as Hmb.
  unfold canon. cbn [SFsub]. unfold canon_exp.
  rewrite Z.min_r by lia.
  assert (Hal : Z.pos (fst (shl_align (canon_mant prec a) (Z.pos (digits2_pos a) - prec)
                                      (Z.pos (digits2_pos b) - prec)))
                = Z.pos a * 2 ^ (prec - Z.pos (digits2_pos b))).
  { unfold shl_align.
    destruct (Z.pos (digits2_pos b) - prec - (Z.pos (digits2_pos a) - prec)) as [|p|p] eqn:Hp;
      cbn [fst].
    - rewrite Hma. f_equal. f_equal. lia.
    - lia.
    - rewrite Zpos_iter_xO, Hma, <- Z.mul_assoc, <- Z.pow_add_r by lia.
      f_equal. f_equal. lia. }
  assert (Hbl : fst (shl_align (canon_mant prec b) (Z.pos (digits2_pos b) - prec)
                               (Z.pos (digits2_pos b) - prec)) = canon_mant prec b).
  { unfold shl_align. now rewrite Z.sub_diag. }
  rewrite Hbl. cbn [cond_Zopp]. rewrite Hal, Hmb.
  pose proof (digits_le_prec b Hb) as Hdb.
  assert (Hpow : 0 < 2 ^ (prec - Z.pos (digits2_pos b))) by (apply Z.pow_pos_nonneg; lia).
  destruct (Z.pos a * 2 ^ (prec - Z.pos (digits2_pos b))
            - Z.pos b * 2 ^ (prec - Z.pos (digits2_pos b))) as [|w|w] eqn:Hw; [nia| |nia].
  cbn [binary_normalize].
  apply binary_round_exact.
  - rewrite Pos2Z.inj_sub by assumption. lia.
  - lia.
  - rewrite Pos2Z.inj_sub by assumption.
    replace (- (Z.pos (digits2_pos b) - prec)) with (prec - Z.pos (digits2_pos b)) by lia.
    lia.
Qed.

Lemma SFsub_diag_finite (s : bool) (m : positive) (e : Z) :
  SFsub prec emax (S754_finite s m e) (S754_finite s m e) = S754_zero false.
Proof. cbn [SFsub]. now rewrite Z.sub_diag. Qed.

Lemma SFsub_fint (a b : Z) :
  0 <= b <= a -> a < 2 ^ prec ->
  SFsub prec emax (fint prec a) (fint prec b) = fint prec (a - b).
Proof.
  intros Hab Ha. destruct b as [|b|b]; [|destruct a as [|a|a]; try lia|lia].
  - rewrite Z.sub_0_r. destruct a; try lia; reflexivity.
  - destruct (Pos.eq_dec a b) as [->|Hne].
    + rewrite Z.sub_diag. apply SFsub_diag_finite.
    + cbn [fint]. rewrite SFsub_canon by lia.
      rewrite <- Pos2Z.inj_sub by lia. reflexivity.
Qed.
End ExactIntegers.

Lemma SFcompare_antisym (x y : spec_float) (c : comparison) :
  SFcompare x y = Some c -> SFcompare y x = Some (CompOpp c).
Proof.
  destruct x as [sx|sx| |sx mx ex], y as [sy|sy| |sy my ey]; cbn [SFcompare];
    try discriminate;
    try (destruct sx; intros [= <-]; reflexivity);
    try (destruct sy; intros [= <-]; reflexivity);
    try (destruct sx, sy; intros [= <-]; reflexivity).
  destruct sx, sy; intros [= <-]; try reflexivity;
    rewrite (Z.compare_antisym ey ex); destruct (ey ?= ex); cbn [CompOpp]; try reflexivity;
    now rewrite !Pos.compare_cont_antisym.
Qed.

Lemma SFltb_asym (x y : spec_float) : SFltb x y = true -> SFltb y x = false.
Proof.
  unfold SFltb. destruct (SFcompare x y) as [[]|] eqn:E; try discriminate.
  intros _. now rewrite (SFcompare_antisym _ _ _ E).
Qed.

Lemma SFltb_fint (prec a b : Z) :
  0 < prec -> 0 <= a < 2 ^ prec -> 0 <= b < 2 ^ prec ->
  SFltb (fint prec a) (fint prec b) = (a <? b).
Proof.
  intros Hprec Ha Hb. unfold SFltb.
  destruct a as [|a|a], b as [|b|b]; try lia; try reflexivity.
  cbn [fint].
  destruct (Pos.compare_spec a b) as [->|Hlt|Hgt].
  - rewrite Z.ltb_irrefl. unfold canon. cbn [SFcompare].
    now rewrite Z.compare_refl, Pos.compare_cont_refl.
  - rewrite (SFcompare_canon_lt prec Hprec a b) by lia.
    symmetry. apply Z.ltb_lt. lia.
  - rewrite (SFcompare_antisym _ _ _ (SFcompare_canon_lt prec Hprec b a ltac:(lia) Hgt)).
    symmetry. apply Z.ltb_ge. lia.
Qed.

Lemma SFleb_fint_zero (prec n : Z) : SFleb (fint prec n) pos_zero = (n <=? 0).
Proof. now destruct n. Qed.

(** *** The two formats in use *)

Lemma f32_of_int_exact (n : Z) : Z.abs n < 2 ^ 24 -> f32_of_int n = fint 24 n.
Proof. intros Hn. unfold f32_of_int. apply binary_normalize_int; lia. Qed.

Lemma f64_of_int_exact (n : Z) : Z.abs n < 2 ^ 53 -> f64_of_int n = fint 53 n.
Proof. intros Hn. unfold f64_of_int. apply binary_normalize_int; lia. Qed.

Lemma f32_of_f64_canon (s : bool) (v : positive) :
  Z.pos v < 2 ^ 24 -> f32_of_f64 (canon 53 s v) = canon 24 s v.
Proof.
  intros Hv. unfold canon at 1. cbn [f32_of_f64].
  pose proof (digits_le_prec 24 ltac:(lia) v Hv) as Hd.
  apply binary_round_exact; try lia.
  - unfold canon_exp. lia.
  - rewrite canon_mant_spec by lia. unfold canon_exp. f_equal. f_equal. lia.
Qed.

Lemma f32_of_f64_fint (n : Z) : Z.abs n < 2 ^ 24 -> f32_of_f64 (fint 53 n) = fint 24 n.
Proof.
  intros Hn. destruct n as [|v|v]; cbn [fint]; [reflexivity| |];
    apply f32_of_f64_canon; simpl Z.abs in Hn; lia.
Qed.

Lemma f32_sub_fint (a b : Z) :
  0 <= b <= a -> a < 2 ^ 24 -> f32_sub (fint 24 a) (fint 24 b) = fint 24 (a - b).
Proof. intros. apply SFsub_fint; lia. Qed.

Lemma f64_sub_fint (a b : Z) :
  0 <= b <= a -> a < 2 ^ 53 -> f64_sub (fint 53 a) (fint 53 b) = fint 53 (a - b).
Proof. intros. apply SFsub_fint; lia. Qed.

Lemma f32_div_self (v : positive) :
  Z.pos v < 2 ^ 24 -> f32_div (canon 24 false v) (canon 24 false v) = f32_of_int 1.
Proof.
  intros Hv. unfold f32_div, canon. cbn [SFdiv xorb].
  unfold SFdiv_core_binary. cbn [Zdigits2].
  rewrite (canon_mant_digits 24 ltac:(lia) v Hv).
  replace (24 + canon_exp 24 v - (24 + canon_exp 24 v)) with 0 by lia.
  rewrite Z.sub_diag.
  change (Z.min (fexp 24 128 0) 0) with (-24).
  change (0 - -24) with 24.
  rewrite Z.shiftl_mul_pow2 by lia.
  destruct (Z.div_eucl (Z.pos (canon_mant 24 v) * 2 ^ 24) (Z.pos (canon_mant 24 v)))
    as [q r] eqn:E.
  assert (Hq : q = 2 ^ 24).
  { change q with (fst (q, r)). rewrite <- E.
    change (fst (Z.div_eucl ?a ?b)) with (a / b).
    rewrite Z.mul_comm. apply Z.div_mul. lia. }
  assert (Hr : r = 0).
  { change r with (snd (q, r)). rewrite <- E.
    change (snd (Z.div_eucl ?a ?b)) with (a mod b).
    rewrite Z.mul_comm. apply Z_mod_mult. }
  subst q r.
  assert (Hloc : new_location (Z.pos (canon_mant 24 v)) 0 = loc_Exact).
  { unfold new_location. now destruct (Z.even _). }
  rewrite Hloc. reflexivity.
Qed.

Lemma is_nan_fint (prec n : Z) : is_nan (fint prec n) = false.
Proof. now destruct n. Qed.

(** [np.clip] of an integer-valued pixel against an integer band is the
    integer clamp. *)
Lemma np_clip_fint (raw lo hi : Z) :
  0 <= raw < 2 ^ 24 -> 0 <= lo < 2 ^ 24 -> 0 <= hi < 2 ^ 24 ->
  np_clip (fint 24 raw) (fint 24 lo) (fint 24 hi) = fint 24 (clamp raw lo hi).
Proof.
  intros Hr Hl Hh. unfold np_clip, np_max, np_min, clamp.
  rewrite is_nan_fint, SFltb_fint by lia.
  destruct (Z.ltb_spec lo raw).
  - rewrite Z.max_l, SFltb_fint by lia.
    destruct (Z.ltb_spec raw hi); [rewrite Z.min_l|rewrite Z.min_r]; (reflexivity || lia).
  - rewrite Z.max_r, SFltb_fint by lia.
    destruct (Z.ltb_spec lo hi); [rewrite Z.min_l|rewrite Z.min_r]; (reflexivity || lia).
Qed.

(** ** Depth normalizer *)

Lemma scale_quotient_nan : scale_quotient S754_nan = 0.
Proof. reflexivity. Qed.

Lemma astype_uint8_nan_to_zero (d : spec_float) :
  astype_uint8 (if is_nan d then pos_zero else d) = astype_uint8 d.
Proof. now destruct d. Qed.

(** A pixel with no reading is masked (NaN) and comes out as 0, whatever the
    band. *)
Lemma normalize_pixel_masked (depth_min depth_max raw : Z) :
  Z.abs raw < 2 ^ 24 -> raw <= 0 -> normalize_pixel depth_min depth_max raw = 0.
Proof.
  intros Hr Hneg. unfold normalize_pixel.
  rewrite (f32_of_int_exact raw), SFleb_fint_zero by assumption.
  apply Z.leb_le in Hneg. rewrite Hneg. reflexivity.
Qed.

(** A valid reading inside a valid band: clip and both subtractions are
    exact, the quotient is the first operation that rounds. *)
Lemma normalize_pixel_in_band (depth_min depth_max raw : Z) :
  0 <= depth_min < depth_max -> depth_max < 2 ^ 24 -> 0 < raw < 2 ^ 24 ->
  normalize_pixel depth_min depth_max raw
  = scale_quotient (f32_div (fint 24 (clamp raw depth_min depth_max - depth_min))
                            (fint 24 (depth_max - depth_min))).
Proof.
  intros Hband Hmax Hraw. unfold normalize_pixel, scale_quotient.
  rewrite (f32_of_int_exact raw), SFleb_fint_zero by lia.
  destruct (Z.leb_spec raw 0) as [|_]; [lia|].
  rewrite !f64_of_int_exact by lia.
  rewrite f64_sub_fint by lia.
  rewrite !f32_of_f64_fint by lia.
  rewrite np_clip_fint by lia.
  rewrite f32_sub_fint by (unfold clamp; lia).
  reflexivity.
Qed.

Lemma scale_quotient_zero : scale_quotient pos_zero = 255.
Proof. vm_compute. reflexivity. Qed.

Lemma scale_quotient_one : scale_quotient (f32_of_int 1) = 0.
Proof. vm_compute. reflexivity. Qed.

Lemma f32_div_zero_fint (n : Z) : 0 < n -> f32_div pos_zero (fint 24 n) = pos_zero.
Proof. intros Hn. destruct n; try lia. reflexivity. Qed.

(** C3, as amended: for every band with [0 < depth_min < depth_max] (and
    [depth_max] below [2 ^ 24], so that it is a single-precision value), a
    reading equal to [depth_min] is normalized to 255, a reading equal to
    [depth_max] to 0, and the reading 0 to 0. *)
Theorem normalize_depth_boundaries (depth_min depth_max : Z) :
  0 < depth_min < depth_max -> depth_max < 2 ^ 24 ->
  normalize_pixel depth_min depth_max depth_min = 255 /\
  normalize_pixel depth_min depth_max depth_max = 0 /\
  normalize_pixel depth_min depth_max 0 = 0.
Proof.
  intros Hband Hmax. split; [|split].
  - rewrite normalize_pixel_in_band by lia.
    replace (clamp depth_min depth_min depth_max - depth_min) with 0 by (unfold clamp; lia).
    change (fint 24 0) with pos_zero.
    rewrite f32_div_zero_fint by lia. apply scale_quotient_zero.
  - rewrite normalize_pixel_in_band by lia.
    replace (clamp depth_max depth_min depth_max - depth_min) with (depth_max - depth_min)
      by (unfold clamp; lia).
    destruct (depth_max - depth_min) as [|v|v] eqn:Hv; try lia.
    cbn [fint]. rewrite f32_div_self by lia. apply scale_quotient_one.
  - apply normalize_pixel_masked; lia.
Qed.

Lemma normalize_depth_boundaries_witness :
  normalize_pixel 217 3626 217 = 255 /\
  normalize_pixel 217 3626 3626 = 0 /\
  normalize_pixel 217 3626 0 = 0.
Proof. apply (normalize_depth_boundaries 217 3626); lia. Defined.

(** C3 as stated fails for a band that starts at 0 (the trackbar's lowest
    setting): the reading [depth_min = 0] is "no reading" and maps to 0. *)
Lemma normalize_depth_boundaries_counterexample :
  0 < 4500 /\ normalize_pixel 0 4500 0 <> 255.
Proof. split; [lia|]. vm_compute. discriminate. Qed.

(** C4, as amended: for every band [0 <= depth_min < depth_max < 2 ^ 24]
    and every reading, the output is 0 when the reading is [<= 0], and
    otherwise the truncation toward zero (not the rounding) of
    [(1 - (clamped - depth_min) / (depth_max - depth_min)) * 255], the
    quotient, the difference and the product each rounded to single
    precision. *)
Theorem normalize_depth_formula (depth_min depth_max raw : Z) :
  0 <= depth_min < depth_max -> depth_max < 2 ^ 24 -> Z.abs raw < 2 ^ 24 ->
  normalize_pixel depth_min depth_max raw =
  if raw <=? 0 then 0
  else astype_uint8
         (f32_mul
            (f32_sub (f32_of_int 1)
               (f32_div (f32_of_int (clamp raw depth_min depth_max - depth_min))
                        (f32_of_int (depth_max - depth_min))))
            (f32_of_int 255)).
Proof.
  intros Hband Hmax Hraw. destruct (Z.leb_spec raw 0) as [Hneg|Hpos].
  - now apply normalize_pixel_masked.
  - rewrite normalize_pixel_in_band by lia. unfold scale_quotient.
    rewrite astype_uint8_nan_to_zero.
    rewrite (f32_of_int_exact (clamp raw depth_min depth_max - depth_min))
      by (unfold clamp; lia).
    rewrite (f32_of_int_exact (depth_max - depth_min)) by lia.
    reflexivity.
Qed.

Lemma normalize_depth_formula_witness :
  normalize_pixel 500 4500 501 =
  astype_uint8
    (f32_mul (f32_sub (f32_of_int 1) (f32_div (f32_of_int 1) (f32_of_int 4000)))
       (f32_of_int 255)).
Proof. apply (normalize_depth_formula 500 4500 501); lia. Defined.

(** C4 as stated fails: one millimetre inside the band the exact value is
    254.94, which the code truncates to 254 and the stated formula rounds
    to 255. *)
Lemma normalize_depth_formula_counterexample :
  500 < 4500 /\ 0 < 501 /\
  normalize_pixel 500 4500 501 = 254 /\ normalize_spec 500 4500 501 = 255.
Proof. split; [|split; [|split]]; try lia; vm_compute; reflexivity. Qed.

(** Single precision matters: in the band [0, 765] the exact value for the
    reading 624 is 47, the float32 product is just below it, and the
    output is 46. *)
Example normalize_pixel_rounding :
  normalize_pixel 0 765 624 = 46 /\ normalize_spec 0 765 624 = 47.
Proof. split; vm_compute; reflexivity. Qed.

(** *** The degenerate band [depth_max = depth_min] *)

Lemma np_clip_degenerate (d x : spec_float) : is_nan d = false -> np_clip d x x = x.
Proof.
  intros Hd. unfold np_clip, np_max, np_min. rewrite Hd.
  destruct (SFltb x d) eqn:E.
  - now rewrite (SFltb_asym _ _ E).
  - now destruct (SFltb x x).
Qed.

(** [x - x] is [+0] or NaN, in either format. *)
Lemma SFsub_diag_cases (prec emax : Z) (x : spec_float) :
  SFsub prec emax x x = pos_zero \/ SFsub prec emax x x = S754_nan.
Proof.
  destruct x as [[]|[]| |s m e]; cbn [SFsub]; auto.
  left. now rewrite Z.sub_diag.
Qed.

Lemma degenerate_quotient_nan (d x f : spec_float) :
  f32_div (f32_sub (np_clip d x x) x) (f32_of_f64 (f64_sub f f)) = S754_nan.
Proof.
  destruct (is_nan d) eqn:Hd.
  - destruct d; try discriminate. reflexivity.
  - rewrite np_clip_degenerate by assumption. unfold f32_sub, f64_sub.
    destruct (SFsub_diag_cases 24 128 x) as [-> | ->];
      destruct (SFsub_diag_cases 53 1024 f) as [-> | ->]; reflexivity.
Qed.

Lemma normalize_pixel_degenerate (depth_min raw : Z) :
  normalize_pixel depth_min depth_min raw = 0.
Proof.
  unfold normalize_pixel. cbv zeta. rewrite degenerate_quotient_nan. reflexivity.
Qed.

(** C5, as amended: when [depth_max = depth_min] the normalizer raises
    nothing; it returns an image of the same shape in which every pixel
    is 0 (the quotient 0/0 is NaN, and NaN is replaced by 0). *)
Theorem normalize_depth_degenerate_band (depth_min : Z) (depth_mm : list (list Z)) :
  call_normalize_depth depth_min depth_min depth_mm
  = Returns (map (map (fun _ => 0)) depth_mm).
Proof.
  unfold call_normalize_depth, normalize_depth. f_equal.
  apply map_ext. intros row. apply map_ext. intros raw.
  apply normalize_pixel_degenerate.
Qed.

(** C5 as stated fails: with the band [500, 500] the call returns. *)
Lemma normalize_depth_degenerate_band_counterexample :
  ~ exists msg, call_normalize_depth 500 500 [[500; 0]; [499; 501]] = Raises msg.
Proof. intros [msg H]. discriminate H. Qed.

(** ** Identity tracker *)

Example tracker_scenario :
  map (map (fun b => (cx b, cy b, pid b)))
      (fst (run new_tracker [[mk 100 100]; [mk 104 101]; [mk 400 400]]))
  = [[(100, 100, Some 1)]; [(104, 101, Some 1)]; [(400, 400, Some 2)]].
Proof. vm_compute. reflexivity. Qed.

Lemma geometry_set_id (k : Z) (b : blob) : geometry (set_id k b) = geometry b.
Proof. reflexivity. Qed.

Lemma dist2_set_id (p : point) (k : Z) (b : blob) : dist2 p (set_id k b) = dist2 p b.
Proof. reflexivity. Qed.

Lemma dist2_geometry (p : point) (b b' : blob) :
  geometry b = geometry b' -> dist2 p b = dist2 p b'.
Proof. unfold geometry, dist2. intros [= -> -> _ _]. reflexivity. Qed.

(** *** The inner loop *)

(** Whatever [find_best] returns beyond its accumulator is an unmatched
    blob within the matching distance. *)
Lemma find_best_sound (p : point) (bl : list blob) (m : list bool) (i : nat)
    (md : option Z) (best : option nat) (k : nat) :
  find_best p bl m i md best = Some k ->
  best = Some k \/
  exists b, (i <= k)%nat /\ bl !! (k - i)%nat = Some b /\
            m !! (k - i)%nat = Some false /\ within p b.
Proof.
  revert m i md best. induction bl as [|b bl IH]; intros m i md best Hf.
  - left. exact Hf.
  - destruct m as [|mi m]; [left; exact Hf|]. cbn [find_best] in Hf.
    assert (Hshift : forall b', (S i <= k)%nat -> bl !! (k - S i)%nat = Some b' ->
                       (b :: bl) !! (k - i)%nat = Some b').
    { intros b' Hle Hb'. replace (k - i)%nat with (S (k - S i)) by lia. exact Hb'. }
    assert (Hshiftm : (S i <= k)%nat -> m !! (k - S i)%nat = Some false ->
                       (mi :: m) !! (k - i)%nat = Some false).
    { intros Hle Hb'. replace (k - i)%nat with (S (k - S i)) by lia. exact Hb'. }
    destruct mi.
    + apply IH in Hf as [Hf | (b' & Hle & Hb' & Hm' & Hw)]; [now left|].
      right. exists b'. repeat split; auto; lia.
    + destruct (closer (dist2 p b) md && (dist2 p b <? 100 ^ 2)) eqn:Hc.
      * apply IH in Hf as [Hf | (b' & Hle & Hb' & Hm' & Hw)].
        -- injection Hf as <-. right. exists b. rewrite Nat.sub_diag.
           apply andb_true_iff in Hc as [_ Hc]. apply Z.ltb_lt in Hc.
           repeat split; auto.
        -- right. exists b'. repeat split; auto; lia.
      * apply IH in Hf as [Hf | (b' & Hle & Hb' & Hm' & Hw)]; [now left|].
        right. exists b'. repeat split; auto; lia.
Qed.

(** Once the running minimum is [d], blobs that are not strictly closer
    leave the choice alone. *)
Lemma find_best_keep (p : point) (bl : list blob) (m : list bool) (i : nat)
    (d : Z) (k : nat) :
  (forall j b, bl !! j = Some b -> m !! j = Some false -> d <= dist2 p b) ->
  find_best p bl m i (Some d) (Some k) = Some k.
Proof.
  revert m i. induction bl as [|b bl IH]; intros m i Hfar; [reflexivity|].
  destruct m as [|mi m]; [reflexivity|]. cbn [find_best].
  assert (Htl : forall j b', bl !! j = Some b' -> m !! j = Some false -> d <= dist2 p b').
  { intros j b' Hb' Hm'. apply (Hfar (S j)); assumption. }
  destruct mi; [now apply IH|].
  assert (Hd : d <= dist2 p b) by (apply (Hfar 0%nat); reflexivity).
  cbn [closer]. destruct (Z.ltb_spec (dist2 p b) d); [lia|].
  cbn [andb]. now apply IH.
Qed.

(** An unmatched blob within the matching distance that is strictly
    closer than the unmatched blobs before it, and at least as close as
    those after it, is the one chosen. *)
Lemma find_best_pick (p : point) (pre post : list blob) (mpre mpost : list bool)
    (b : blob) (i : nat) (md : option Z) (best : option nat) :
  length mpre = length pre ->
  within p b ->
  closer (dist2 p b) md = true ->
  (forall j b', pre !! j = Some b' -> mpre !! j = Some false -> dist2 p b < dist2 p b') ->
  (forall j b', post !! j = Some b' -> mpost !! j = Some false -> dist2 p b <= dist2 p b') ->
  find_best p (pre ++ b :: post) (mpre ++ false :: mpost) i md best
  = Some (i + length pre)%nat.
Proof.
  intros Hlen Hw. revert mpre i md best Hlen.
  induction pre as [|b0 pre IH]; intros mpre i md best Hlen Hmd Hpre Hpost.
  - destruct mpre; [|discriminate]. cbn [app find_best length].
    rewrite Hmd. unfold within in Hw. apply Z.ltb_lt in Hw. rewrite Hw. cbn [andb].
    rewrite Nat.add_0_r. now apply find_best_keep.
  - destruct mpre as [|m0 mpre]; [discriminate|]. cbn [app find_best length].
    injection Hlen as Hlen.
    assert (Htl : forall j b', pre !! j = Some b' -> mpre !! j = Some false ->
                    dist2 p b < dist2 p b').
    { intros j b' Hb' Hm'. apply (Hpre (S j)); assumption. }
    replace (i + S (length pre))%nat with (S i + length pre)%nat by lia.
    destruct m0; [now apply IH|].
    assert (Hb0 : dist2 p b < dist2 p b0) by (apply (Hpre 0%nat); reflexivity).
    destruct (closer (dist2 p b0) md && (dist2 p b0 <? 100 ^ 2)).
    + apply IH; auto. cbn [closer]. now apply Z.ltb_lt.
    + now apply IH.
Qed.

(** *** The loop over the previous entities *)

Lemma find_best_top (p : point) (bl : list blob) (m : list bool) (k : nat) :
  find_best p bl m 0 None None = Some k ->
  exists b, bl !! k = Some b /\ m !! k = Some false /\ within p b.
Proof.
  intros Hf. apply find_best_sound in Hf as [Hf | (b & _ & Hb & Hm & Hw)]; [discriminate|].
  rewrite Nat.sub_0_r in Hb, Hm. now exists b.
Qed.

Lemma match_step_cases (m : list bool) (bl : list blob) (prev : prev_blob) :
  match_step (m, bl) prev = (m, bl) \/
  exists k b, bl !! k = Some b /\ m !! k = Some false /\ within (pb_center prev) b /\
    match_step (m, bl) prev = (<[k := true]> m, alter (set_id (pb_id prev)) k bl).
Proof.
  unfold match_step.
  destruct (find_best (pb_center prev) bl m 0 None None) as [k|] eqn:Hf; [|now left].
  right. apply find_best_top in Hf as (b & Hb & Hm & Hw). now exists k, b.
Qed.

Lemma match_loop_geometry (prevs : list prev_blob) (m : list bool) (bl : list blob) :
  geometry <$> (fold_left match_step prevs (m, bl)).2 = geometry <$> bl.
Proof.
  revert m bl. induction prevs as [|prev prevs IH]; intros m bl; [reflexivity|].
  cbn [fold_left].
  destruct (match_step_cases m bl prev) as [-> | (k & b & _ & _ & _ & ->)]; [apply IH|].
  rewrite IH. rewrite (list_fmap_alter geometry (set_id (pb_id prev)) id).
  - now apply list_alter_id.
  - apply Forall_forall. intros; apply geometry_set_id.
Qed.

Lemma match_loop_length (prevs : list prev_blob) (m : list bool) (bl : list blob) :
  length (fold_left match_step prevs (m, bl)).1 = length m.
Proof.
  revert m bl. induction prevs as [|prev prevs IH]; intros m bl; [reflexivity|].
  cbn [fold_left].
  destruct (match_step_cases m bl prev) as [-> | (k & b & _ & _ & _ & ->)]; [apply IH|].
  rewrite IH. apply length_insert.
Qed.

(** A matched blob is never looked at again. *)
Lemma match_loop_matched (prevs : list prev_blob) (m : list bool) (bl : list blob) (i : nat) :
  m !! i = Some true ->
  (fold_left match_step prevs (m, bl)).1 !! i = Some true /\
  (fold_left match_step prevs (m, bl)).2 !! i = bl !! i.
Proof.
  revert m bl. induction prevs as [|prev prevs IH]; intros m bl Hm; [now split|].
  cbn [fold_left].
  destruct (match_step_cases m bl prev) as [-> | (k & b & _ & Hk & _ & ->)]; [now apply IH|].
  assert (k <> i) by congruence.
  destruct (IH (<[k := true]> m) (alter (set_id (pb_id prev)) k bl)) as [H1 H2].
  { now rewrite list_lookup_insert_ne. }
  split; [exact H1|]. rewrite H2. now apply list_lookup_alter_ne.
Qed.

(** A blob out of reach of every previous entity stays unmatched. *)
Lemma match_loop_far (prevs : list prev_blob) (m : list bool) (bl : list blob)
    (i : nat) (b : blob) :
  m !! i = Some false -> bl !! i = Some b ->
  Forall (fun prev => ~ within (pb_center prev) b) prevs ->
  (fold_left match_step prevs (m, bl)).1 !! i = Some false /\
  (fold_left match_step prevs (m, bl)).2 !! i = Some b.
Proof.
  revert m bl. induction prevs as [|prev prevs IH]; intros m bl Hm Hb Hfar; [now split|].
  apply Forall_cons in Hfar as [Hprev Hfar]. cbn [fold_left].
  destruct (match_step_cases m bl prev) as [-> | (k & b' & Hb' & _ & Hw & ->)]; [now apply IH|].
  assert (k <> i) by (intros ->; congruence).
  apply IH; [|rewrite list_lookup_alter_ne by assumption|]; auto.
  now rewrite list_lookup_insert_ne.
Qed.

Lemma match_step_pick (m : list bool) (bl : list blob) (prev : prev_blob)
    (i : nat) (b : blob) :
  length m = length bl ->
  m !! i = Some false -> bl !! i = Some b ->
  within (pb_center prev) b ->
  (forall i' b', i' <> i -> bl !! i' = Some b' ->
     dist2 (pb_center prev) b < dist2 (pb_center prev) b') ->
  match_step (m, bl) prev = (<[i := true]> m, alter (set_id (pb_id prev)) i bl).
Proof.
  intros Hlen Hm Hb Hw Hothers. unfold match_step.
  assert (Hi : (i < length bl)%nat) by (eapply lookup_lt_Some; eassumption).
  assert (Hf : find_best (pb_center prev) bl m 0 None None = Some i).
  { rewrite <- (take_drop_middle bl i b Hb) at 1.
    rewrite <- (take_drop_middle m i false Hm) at 1.
    replace i with (0 + length (take i bl))%nat at 5 by (rewrite length_take; lia).
    apply find_best_pick; auto.
    - rewrite !length_take. lia.
    - intros j b' Hb' _. apply lookup_take_Some in Hb' as [Hb' Hj].
      apply (Hothers j); [lia|assumption].
    - intros j b' Hb' _. rewrite lookup_drop in Hb'.
      apply Z.lt_le_incl, (Hothers (S i + j)%nat); [lia|assumption]. }
  now rewrite Hf.
Qed.

(** *** The minting loop *)

Lemma unmatched_before_nonneg (m : list bool) (i : nat) : 0 <= unmatched_before m i.
Proof.
  revert i. induction m as [|x m IH]; intros [|i]; cbn [unmatched_before]; try lia.
  specialize (IH i). destruct x; lia.
Qed.

(** The count grows strictly across an unmatched index. *)
Lemma unmatched_before_lt (m : list bool) (i j : nat) :
  (i < j)%nat -> m !! i = Some false ->
  unmatched_before m i + 1 <= unmatched_before m j.
Proof.
  revert i j. induction m as [|x m IH]; intros i j Hij Hm; [discriminate|].
  destruct j as [|j]; [lia|]. destruct i as [|i]; cbn [unmatched_before].
  - injection Hm as ->. pose proof (unmatched_before_nonneg m j). lia.
  - specialize (IH i j ltac:(lia) Hm). lia.
Qed.

Lemma assign_new_matched (bl : list blob) (m : list bool) (c : Z) (i : nat) :
  m !! i = Some true -> (assign_new bl m c).1 !! i = bl !! i.
Proof.
  revert m c i. induction bl as [|b bl IH]; intros m c i Hm; [reflexivity|].
  destruct m as [|x m]; [discriminate|]. cbn [assign_new].
  destruct x.
  - specialize (IH m c). destruct (assign_new bl m c) as [rest c'].
    destruct i as [|i]; [reflexivity|]. now apply IH.
  - specialize (IH m (c + 1)). destruct (assign_new bl m (c + 1)) as [rest c'].
    destruct i as [|i]; [discriminate|]. now apply IH.
Qed.

(** An unmatched blob receives the counter's value after one increment
    per unmatched blob up to and including itself. *)
Lemma assign_new_unmatched (bl : list blob) (m : list bool) (c : Z) (i : nat) (b : blob) :
  m !! i = Some false -> bl !! i = Some b ->
  (assign_new bl m c).1 !! i = Some (set_id (c + unmatched_before m i + 1) b).
Proof.
  revert m c i. induction bl as [|b0 bl IH]; intros m c i Hm Hb; [discriminate|].
  destruct m as [|x m]; [discriminate|]. cbn [assign_new].
  destruct x.
  - specialize (IH m c). destruct (assign_new bl m c) as [rest c'].
    destruct i as [|i]; [discriminate|]. cbn [unmatched_before].
    replace (c + (0 + unmatched_before m i) + 1) with (c + unmatched_before m i + 1) by lia.
    now apply IH.
  - specialize (IH m (c + 1)). destruct (assign_new bl m (c + 1)) as [rest c'].
    destruct i as [|i]; cbn [unmatched_before].
    + injection Hb as ->. cbn. do 2 f_equal. lia.
    + replace (c + (1 + unmatched_before m i) + 1) with (c + 1 + unmatched_before m i + 1) by lia.
      now apply IH.
Qed.

Lemma assign_new_counter (bl : list blob) (m : list bool) (c : Z) :
  length m = length bl ->
  (assign_new bl m c).2 = c + unmatched_before m (length bl).
Proof.
  revert m c. induction bl as [|b bl IH]; intros m c Hlen.
  - destruct m; [|discriminate]. cbn. lia.
  - destruct m as [|x m]; [discriminate|]. injection Hlen as Hlen.
    cbn [assign_new length unmatched_before]. destruct x.
    + specialize (IH m c Hlen). destruct (assign_new bl m c) as [rest c'].
      cbn [snd] in *. lia.
    + specialize (IH m (c + 1) Hlen). destruct (assign_new bl m (c + 1)) as [rest c'].
      cbn [snd] in *. lia.
Qed.

Lemma assign_new_geometry (bl : list blob) (m : list bool) (c : Z) :
  geometry <$> (assign_new bl m c).1 = geometry <$> bl.
Proof.
  revert m c. induction bl as [|b bl IH]; intros m c; [reflexivity|].
  destruct m as [|x m]; [reflexivity|]. cbn [assign_new]. destruct x.
  - specialize (IH m c). destruct (assign_new bl m c) as [rest c'].
    cbn [fst] in *. cbn [fmap list_fmap]. now f_equal.
  - specialize (IH m (c + 1)). destruct (assign_new bl m (c + 1)) as [rest c'].
    cbn [fst] in *. cbn [fmap list_fmap]. now f_equal.
Qed.

(** *** One call of [track_people] *)

Lemma track_people_unfold (self : tracker) (blobs : list blob) :
  track_people self blobs =
  let r := fold_left match_step (previous_blobs self)
             (replicate (length blobs) false, blobs) in
  let a := assign_new r.2 r.1 (person_counter self) in
  (a.1, Tracker (to_prev <$> a.1) a.2).
Proof.
  unfold track_people. cbv zeta.
  destruct (fold_left match_step _ _) as [m bl]. cbn [fst snd].
  now destruct (assign_new bl m (person_counter self)).
Qed.

Lemma track_people_geometry (self : tracker) (blobs : list blob) :
  geometry <$> (track_people self blobs).1 = geometry <$> blobs.
Proof.
  rewrite track_people_unfold. cbv zeta. cbn [fst].
  now rewrite assign_new_geometry, match_loop_geometry.
Qed.

Lemma track_people_length (self : tracker) (blobs : list blob) :
  length (track_people self blobs).1 = length blobs.
Proof.
  rewrite <- (length_fmap geometry), track_people_geometry. apply length_fmap.
Qed.

(** Every matched blob carries the id of a previous entity. *)
Lemma match_loop_ids (P : Z -> Prop) (prevs : list prev_blob) (m : list bool)
    (bl : list blob) :
  Forall (fun prev => P (pb_id prev)) prevs ->
  (forall i, m !! i = Some true -> exists b k, bl !! i = Some b /\ pid b = Some k /\ P k) ->
  forall i, (fold_left match_step prevs (m, bl)).1 !! i = Some true ->
    exists b k, (fold_left match_step prevs (m, bl)).2 !! i = Some b /\
                pid b = Some k /\ P k.
Proof.
  revert m bl. induction prevs as [|prev prevs IH]; intros m bl HP Hinv; [exact Hinv|].
  apply Forall_cons in HP as [Hprev HP]. cbn [fold_left].
  destruct (match_step_cases m bl prev) as [-> | (k & b & Hb & Hk & _ & ->)];
    [now apply IH|].
  apply IH; [assumption|]. intros i Hi.
  destruct (decide (k = i)) as [<-|Hne].
  - exists (set_id (pb_id prev) b), (pb_id prev).
    rewrite list_lookup_alter_eq, Hb. auto.
  - rewrite list_lookup_insert_ne in Hi by assumption.
    rewrite list_lookup_alter_ne by assumption. now apply Hinv.
Qed.

(** Where an output id comes from: a previous entity, or the counter. *)
Lemma track_people_id_cases (self : tracker) (blobs : list blob) (i : nat) (b : blob) :
  (track_people self blobs).1 !! i = Some b ->
  exists k, pid b = Some k /\
    ((exists prev, prev ∈ previous_blobs self /\ pb_id prev = k) \/
     person_counter self < k <= person_counter (track_people self blobs).2).
Proof.
  intros Hout.
  assert (Hi : (i < length blobs)%nat).
  { rewrite <- track_people_length with (self := self). eapply lookup_lt_Some; eassumption. }
  rewrite track_people_unfold in Hout |- *. cbv zeta in Hout |- *. cbn [fst snd] in Hout |- *.
  pose proof (match_loop_length (previous_blobs self) (replicate (length blobs) false) blobs)
    as Hlen.
  pose proof (match_loop_geometry (previous_blobs self) (replicate (length blobs) false) blobs)
    as Hgeo.
  pose proof (match_loop_ids (fun k => exists prev, prev ∈ previous_blobs self /\ pb_id prev = k)
                (previous_blobs self) (replicate (length blobs) false) blobs) as Hids.
  destruct (fold_left match_step (previous_blobs self) (replicate (length blobs) false, blobs))
    as [m bl]. cbn [fst snd] in *.
  rewrite length_replicate in Hlen.
  assert (Hbl : length bl = length blobs).
  { rewrite <- (length_fmap geometry bl), Hgeo. apply length_fmap. }
  destruct (lookup_lt_is_Some_2 m i ltac:(lia)) as [x Hx].
  destruct (lookup_lt_is_Some_2 bl i ltac:(lia)) as [b0 Hb0].
  destruct x.
  - rewrite (assign_new_matched _ _ _ _ Hx) in Hout.
    destruct (Hids) with (i := i) as (b' & k & Hb' & Hk & HP); auto.
    + apply Forall_forall. intros prev Hin. now exists prev.
    + intros i' Hi'. apply lookup_replicate in Hi' as [? _]. discriminate.
    + exists k. split; [congruence|now left].
  - rewrite (assign_new_unmatched _ _ _ _ _ Hx Hb0) in Hout. injection Hout as <-.
    exists (person_counter self + unmatched_before m i + 1). split; [reflexivity|right].
    rewrite assign_new_counter by lia.
    pose proof (unmatched_before_nonneg m i).
    assert (Hlt : (i < length bl)%nat) by lia.
    pose proof (unmatched_before_lt m i (length bl) Hlt Hx).
    cbn [person_counter]. lia.
Qed.

Lemma track_people_lookup (self : tracker) (current_blobs : list blob) (i : nat) (b : blob) :
  current_blobs !! i = Some b ->
  exists k, (track_people self current_blobs).1 !! i = Some (set_id k b).
Proof.
  intros Hb.
  assert (Hi : (i < length (track_people self current_blobs).1)%nat).
  { rewrite track_people_length. eapply lookup_lt_Some; eassumption. }
  destruct (lookup_lt_is_Some_2 _ _ Hi) as [b' Hb'].
  destruct (track_people_id_cases _ _ _ _ Hb') as (k & Hk & _).
  exists k. rewrite Hb'. f_equal.
  pose proof (f_equal (fun l => l !! i) (track_people_geometry self current_blobs)) as Hg.
  cbn beta in Hg. rewrite !list_lookup_fmap, Hb, Hb' in Hg.
  destruct b', b. unfold geometry, set_id in *. cbn in *. congruence.
Qed.

(** C10: [track_people] returns a list of the same length in which every
    element is the input element at the same index with an id attached
    (or replaced): centroid, depth and contour are untouched. *)
Theorem track_people_preserves_geometry (self : tracker) (current_blobs : list blob) :
  length (track_people self current_blobs).1 = length current_blobs /\
  forall i b, current_blobs !! i = Some b ->
    exists k, (track_people self current_blobs).1 !! i = Some (set_id k b).
Proof. split; [apply track_people_length|apply track_people_lookup]. Qed.

Lemma track_people_preserves_geometry_witness :
  length (track_people new_tracker [mk 100 100; mk 400 400]).1 = 2%nat /\
  exists k, (track_people new_tracker [mk 100 100; mk 400 400]).1 !! 1%nat
            = Some (set_id k (mk 400 400)).
Proof.
  destruct (track_people_preserves_geometry new_tracker [mk 100 100; mk 400 400])
    as [Hlen Hgeo].
  split; [exact Hlen|]. apply (Hgeo 1%nat). reflexivity.
Defined.

(** Every output tuple has its fifth component, so the comprehension that
    rebuilds [previous_blobs] reads an id from each. *)
Lemma track_people_all_ids (self : tracker) (current_blobs : list blob) :
  Forall (fun b => is_Some (pid b)) (track_people self current_blobs).1.
Proof.
  apply Forall_lookup. intros i b Hb.
  destruct (track_people_id_cases _ _ _ _ Hb) as (k & -> & _). now exists k.
Qed.

Lemma track_people_previous (self : tracker) (current_blobs : list blob) :
  previous_blobs (track_people self current_blobs).2
  = to_prev <$> (track_people self current_blobs).1.
Proof. now rewrite track_people_unfold. Qed.

Lemma track_people_centres (self : tracker) (current_blobs : list blob) :
  pb_center <$> previous_blobs (track_people self current_blobs).2
  = centre <$> current_blobs.
Proof.
  rewrite track_people_previous, <- list_fmap_compose.
  change (pb_center ∘ to_prev) with centre.
  pose proof (track_people_geometry self current_blobs) as Hg.
  apply (f_equal (fmap (fun g : Z * Z * Z * list point => (g.1.1.1, g.1.1.2)))) in Hg.
  now rewrite <- !list_fmap_compose in Hg.
Qed.

(** *** Minted ids *)

Lemma match_loop_unmatched (prevs : list prev_blob) (m : list bool) (bl : list blob)
    (i : nat) :
  (fold_left match_step prevs (m, bl)).1 !! i = Some false ->
  (fold_left match_step prevs (m, bl)).2 !! i = bl !! i.
Proof.
  revert m bl. induction prevs as [|prev prevs IH]; intros m bl Hfin; [reflexivity|].
  cbn [fold_left] in *.
  destruct (match_step_cases m bl prev) as [E | (k & b & Hb & Hk & _ & E)];
    rewrite E in *; [now apply IH|].
  destruct (decide (k = i)) as [<-|Hne].
  - destruct (match_loop_matched prevs (<[k := true]> m) (alter (set_id (pb_id prev)) k bl) k)
      as [Htrue _].
    + apply list_lookup_insert_eq. eapply lookup_lt_Some; eassumption.
    + congruence.
  - rewrite (IH _ _ Hfin). now apply list_lookup_alter_ne.
Qed.

Lemma final_matched_length (self : tracker) (blobs : list blob) :
  length (final_matched self blobs) = length blobs.
Proof. unfold final_matched. rewrite match_loop_length. apply length_replicate. Qed.

Lemma final_matched_far (self : tracker) (blobs : list blob) (i : nat) (b : blob) :
  blobs !! i = Some b ->
  Forall (fun prev => ~ within (pb_center prev) b) (previous_blobs self) ->
  final_matched self blobs !! i = Some false.
Proof.
  intros Hb Hfar. unfold final_matched.
  apply (match_loop_far _ _ _ i b); auto.
  apply lookup_replicate_2. eapply lookup_lt_Some; eassumption.
Qed.

Lemma track_people_unmatched (self : tracker) (blobs : list blob) (i : nat) (b : blob) :
  blobs !! i = Some b -> final_matched self blobs !! i = Some false ->
  (track_people self blobs).1 !! i
  = Some (set_id (person_counter self + unmatched_before (final_matched self blobs) i + 1) b).
Proof.
  intros Hb Hm. rewrite track_people_unfold. cbv zeta. cbn [fst].
  apply assign_new_unmatched; [exact Hm|].
  unfold final_matched in Hm. now rewrite (match_loop_unmatched _ _ _ _ Hm).
Qed.

Lemma track_people_matched (self : tracker) (blobs : list blob) (i : nat) :
  final_matched self blobs !! i = Some true ->
  exists prev b, prev ∈ previous_blobs self /\
    (track_people self blobs).1 !! i = Some b /\ pid b = Some (pb_id prev).
Proof.
  intros Hm. rewrite track_people_unfold. cbv zeta. cbn [fst].
  rewrite (assign_new_matched _ _ _ _ Hm).
  destruct (match_loop_ids (fun k => exists prev, prev ∈ previous_blobs self /\ pb_id prev = k)
              (previous_blobs self) (replicate (length blobs) false) blobs) with (i := i)
    as (b & k & Hb & Hk & prev & Hin & <-); auto.
  - apply Forall_forall. intros prev Hin. now exists prev.
  - intros i' Hi'. apply lookup_replicate in Hi' as [? _]. discriminate.
  - now exists prev, b.
Qed.

Lemma track_people_counter (self : tracker) (blobs : list blob) :
  person_counter (track_people self blobs).2
  = person_counter self + unmatched_before (final_matched self blobs) (length blobs).
Proof.
  rewrite track_people_unfold. cbv zeta. cbn [snd person_counter].
  pose proof (match_loop_geometry (previous_blobs self) (replicate (length blobs) false) blobs)
    as Hgeo.
  apply (f_equal length) in Hgeo. rewrite !length_fmap in Hgeo.
  rewrite assign_new_counter.
  - now rewrite Hgeo.
  - rewrite Hgeo. apply final_matched_length.
Qed.

Lemma track_people_counter_mono (self : tracker) (blobs : list blob) :
  person_counter self <= person_counter (track_people self blobs).2.
Proof.
  rewrite track_people_counter.
  pose proof (unmatched_before_nonneg (final_matched self blobs) (length blobs)). lia.
Qed.

Lemma track_people_ids_le (self : tracker) (blobs : list blob) :
  ids_bounded self ->
  Forall (fun b => exists k, pid b = Some k /\ k <= person_counter (track_people self blobs).2)
    (track_people self blobs).1.
Proof.
  intros Hbounded. apply Forall_lookup. intros i b Hb.
  destruct (track_people_id_cases _ _ _ _ Hb) as (k & Hk & [(prev & Hin & Hprev) | Hnew]);
    exists k; (split; [exact Hk|]); [|lia].
  pose proof (track_people_counter_mono self blobs).
  unfold ids_bounded in Hbounded. rewrite Forall_forall in Hbounded.
  specialize (Hbounded prev Hin). lia.
Qed.

Lemma track_people_bounded (self : tracker) (blobs : list blob) :
  ids_bounded self -> ids_bounded (track_people self blobs).2.
Proof.
  intros Hbounded. unfold ids_bounded. rewrite track_people_previous.
  apply Forall_fmap. eapply Forall_impl; [apply (track_people_ids_le _ _ Hbounded)|].
  intros b (k & Hk & Hle). unfold to_prev. cbn. now rewrite Hk.
Qed.

Lemma run_bounded (self : tracker) (frames : list (list blob)) :
  ids_bounded self ->
  ids_bounded (run self frames).2 /\
  person_counter self <= person_counter (run self frames).2 /\
  Forall (Forall (fun b => exists k, pid b = Some k /\
                                     k <= person_counter (run self frames).2))
    (run self frames).1.
Proof.
  revert self. induction frames as [|blobs frames IH]; intros self Hb.
  - cbn. repeat split; auto; lia.
  - cbn [run].
    pose proof (track_people_ids_le self blobs Hb) as Hout.
    pose proof (track_people_counter_mono self blobs) as Hmono.
    pose proof (track_people_bounded self blobs Hb) as Hb'.
    destruct (track_people self blobs) as [out self']. cbn [fst snd] in *.
    specialize (IH self' Hb'). destruct (run self' frames) as [outs self''].
    cbn [fst snd] in *. destruct IH as (IH1 & IH2 & IH3).
    split; [assumption|]. split; [lia|].
    constructor; [|assumption].
    eapply Forall_impl; [exact Hout|]. intros b (k & Hk & Hle). exists k. split; [auto|lia].
Qed.

Lemma new_tracker_bounded : ids_bounded new_tracker.
Proof. constructor. Qed.

(** C2: after any run, a blob of the current frame that is more than the
    matching distance away from every remembered entity gets an id minted
    from the counter (its value after one increment per unmatched blob up
    to and including this one); that id is greater than the counter's
    value before the frame and than every id given out earlier in the
    run, and no other blob of the frame gets the same id. *)
Theorem fresh_id_minting (history : list (list blob)) (current_blobs : list blob)
    (i : nat) (b : blob) :
  current_blobs !! i = Some b ->
  Forall (fun prev => 100 ^ 2 < dist2 (pb_center prev) b)
    (previous_blobs (tracker_after history)) ->
  exists k,
    (track_people (tracker_after history) current_blobs).1 !! i = Some (set_id k b) /\
    k = person_counter (tracker_after history)
        + unmatched_before (final_matched (tracker_after history) current_blobs) i + 1 /\
    person_counter (tracker_after history) < k
      <= person_counter (track_people (tracker_after history) current_blobs).2 /\
    (forall frame b0 k0, frame ∈ (run new_tracker history).1 -> b0 ∈ frame ->
       pid b0 = Some k0 -> k0 < k) /\
    (forall j bj kj, j <> i ->
       (track_people (tracker_after history) current_blobs).1 !! j = Some bj ->
       pid bj = Some kj -> kj <> k).
Proof.
  intros Hb Hfar.
  destruct (run_bounded new_tracker history new_tracker_bounded) as (Hbounded & _ & Hpast).
  fold (tracker_after history) in Hbounded, Hpast.
  set (self := tracker_after history) in *.
  assert (Hm : final_matched self current_blobs !! i = Some false).
  { apply (final_matched_far _ _ _ b Hb).
    eapply Forall_impl; [exact Hfar|]. unfold within. intros prev ?. lia. }
  pose proof (track_people_unmatched self current_blobs i b Hb Hm) as Hout.
  set (fm := final_matched self current_blobs) in *.
  assert (Hi : (i < length current_blobs)%nat) by (eapply lookup_lt_Some; eassumption).
  pose proof (unmatched_before_nonneg fm i) as Hnn.
  pose proof (unmatched_before_lt fm i (length current_blobs) Hi Hm) as Hlt.
  exists (person_counter self + unmatched_before fm i + 1).
  split; [exact Hout|]. split; [reflexivity|].
  split; [rewrite track_people_counter; fold fm; lia|]. split.
  - intros frame b0 k0 Hframe Hb0 Hk0.
    rewrite Forall_forall in Hpast. specialize (Hpast frame Hframe).
    rewrite Forall_forall in Hpast. destruct (Hpast b0 Hb0) as (k' & Hk' & Hle).
    assert (k' = k0) by congruence. lia.
  - intros j bj kj Hne Hbj Hkj.
    assert (Hj : (j < length current_blobs)%nat).
    { rewrite <- track_people_length with (self := self).
      eapply lookup_lt_Some; eassumption. }
    destruct (lookup_lt_is_Some_2 fm j) as [x Hx];
      [unfold fm; rewrite final_matched_length; exact Hj|].
    destruct x.
    + destruct (track_people_matched self current_blobs j Hx) as (prev & b' & Hin & Hb' & Hid).
      unfold ids_bounded in Hbounded. rewrite Forall_forall in Hbounded.
      specialize (Hbounded prev Hin).
      assert (kj = pb_id prev) by congruence. lia.
    + destruct (lookup_lt_is_Some_2 current_blobs j Hj) as [b' Hb'].
      rewrite (track_people_unmatched self current_blobs j b' Hb' Hx) in Hbj.
      injection Hbj as <-. cbn in Hkj. injection Hkj as <-. fold fm.
      destruct (Nat.lt_total i j) as [Hij | [-> | Hji]]; [|congruence|].
      * pose proof (unmatched_before_lt fm i j Hij Hm). lia.
      * pose proof (unmatched_before_lt fm j i Hji Hx). lia.
Qed.

Lemma fresh_id_minting_witness :
  exists k,
    (track_people (tracker_after [[mk 100 100]; [mk 104 101]])
       [mk 110 101; mk 400 400; mk 700 100]).1 !! 1%nat = Some (set_id k (mk 400 400)) /\
    k = person_counter (tracker_after [[mk 100 100]; [mk 104 101]])
        + unmatched_before
            (final_matched (tracker_after [[mk 100 100]; [mk 104 101]])
               [mk 110 101; mk 400 400; mk 700 100]) 1 + 1 /\
    person_counter (tracker_after [[mk 100 100]; [mk 104 101]]) < k
      <= person_counter
           (track_people (tracker_after [[mk 100 100]; [mk 104 101]])
              [mk 110 101; mk 400 400; mk 700 100]).2 /\
    (forall frame b0 k0,
       frame ∈ (run new_tracker [[mk 100 100]; [mk 104 101]]).1 -> b0 ∈ frame ->
       pid b0 = Some k0 -> k0 < k) /\
    (forall j bj kj, j <> 1%nat ->
       (track_people (tracker_after [[mk 100 100]; [mk 104 101]])
          [mk 110 101; mk 400 400; mk 700 100]).1 !! j = Some bj ->
       pid bj = Some kj -> kj <> k).
Proof.
  apply (fresh_id_minting [[mk 100 100]; [mk 104 101]]
           [mk 110 101; mk 400 400; mk 700 100] 1 (mk 400 400)).
  - reflexivity.
  - vm_compute. repeat constructor.
Defined.

(** *** Identity along a track *)

(** One frame: the blob that continues entity [j] undisturbed gets its id. *)
Lemma track_people_keeps (self : tracker) (blobs : list blob) (j i : nat) :
  apart (pb_center <$> previous_blobs self) j blobs i ->
  exists prev b, previous_blobs self !! j = Some prev /\ blobs !! i = Some b /\
    (track_people self blobs).1 !! i = Some (set_id (pb_id prev) b).
Proof.
  intros (c & b & Hc & Hb & Hw & Hbefore & Hothers).
  rewrite list_lookup_fmap in Hc.
  destruct (previous_blobs self !! j) as [prev|] eqn:Hprev; [|discriminate].
  injection Hc as <-. exists prev, b. split; [reflexivity|]. split; [exact Hb|].
  rewrite track_people_unfold. cbv zeta. cbn [fst].
  rewrite <- (take_drop_middle _ _ _ Hprev), fold_left_app. cbn [fold_left].
  set (m0 := replicate (length blobs) false).
  (* the entities before [j] leave blob [i] alone *)
  destruct (match_loop_far (take j (previous_blobs self)) m0 blobs i b) as [Hm1 Hb1]; auto.
  { apply lookup_replicate_2. eapply lookup_lt_Some; eassumption. }
  { apply Forall_lookup. intros j' prev' Hj'. apply lookup_take_Some in Hj' as [Hj' Hlt].
    unfold within. apply Z.le_ngt, (Hbefore j'); [exact Hlt|].
    now rewrite list_lookup_fmap, Hj'. }
  pose proof (match_loop_length (take j (previous_blobs self)) m0 blobs) as Hlen1.
  pose proof (match_loop_geometry (take j (previous_blobs self)) m0 blobs) as Hgeo1.
  destruct (fold_left match_step (take j (previous_blobs self)) (m0, blobs)) as [m1 bl1].
  cbn [fst snd] in *.
  (* entity [j] picks blob [i] *)
  rewrite (match_step_pick m1 bl1 prev i b); auto.
  - destruct (match_loop_matched (drop (S j) (previous_blobs self)) (<[i := true]> m1)
                (alter (set_id (pb_id prev)) i bl1) i) as [Hm3 Hb3].
    { apply list_lookup_insert_eq. eapply lookup_lt_Some; eassumption. }
    rewrite (assign_new_matched _ _ _ _ Hm3), Hb3, list_lookup_alter_eq, Hb1.
    reflexivity.
  - rewrite Hlen1. unfold m0. rewrite length_replicate.
    apply (f_equal length) in Hgeo1. now rewrite !length_fmap in Hgeo1.
  - intros i' b1' Hne Hb1'.
    pose proof (f_equal (fun l => l !! i') Hgeo1) as Hg. cbn beta in Hg.
    rewrite !list_lookup_fmap, Hb1' in Hg.
    destruct (blobs !! i') as [b'|] eqn:Hb'; [|discriminate].
    assert (Hg' : geometry b1' = geometry b') by (cbn in Hg; congruence).
    rewrite (dist2_geometry _ _ _ Hg'). now apply (Hothers i').
Qed.

Lemma track_ids_kept (steps : list (list blob * nat)) (self : tracker)
    (prev_frame : list blob) (j : nat) (prev : prev_blob) :
  pb_center <$> previous_blobs self = centre <$> prev_frame ->
  previous_blobs self !! j = Some prev ->
  well_separated prev_frame j steps ->
  Forall (fun o => o = Some (pb_id prev)) (track_ids self steps).
Proof.
  revert self prev_frame j prev.
  induction steps as [|[blobs i] steps IH]; intros self prev_frame j prev Hcentres Hprev Hsep.
  - constructor.
  - destruct Hsep as [Hapart Hsep]. rewrite <- Hcentres in Hapart.
    destruct (track_people_keeps self blobs j i Hapart) as (prev' & b & Hprev' & Hb & Hout).
    assert (prev' = prev) as -> by congruence.
    cbn [track_ids].
    pose proof (track_people_centres self blobs) as Hcentres'.
    pose proof (track_people_previous self blobs) as Hprevious.
    destruct (track_people self blobs) as [out self']. cbn [fst snd] in *.
    constructor.
    + now rewrite Hout.
    + apply (IH self' blobs i (to_prev (set_id (pb_id prev) b))); auto.
      now rewrite Hprevious, list_lookup_fmap, Hout.
Qed.

(** C1, as amended: along a track that is well separated (in each frame
    the track's blob is within 100 px of its previous centroid, every
    other blob of the frame is strictly farther from that centroid, and
    no blob listed before the track's in the previous frame is within
    100 px of the new blob), every frame of the run gives the track's blob
    the id it got in the first frame. *)
Theorem identity_stability (self : tracker) (first_frame : list blob) (i0 : nat)
    (steps : list (list blob * nat)) :
  is_Some (first_frame !! i0) ->
  well_separated first_frame i0 steps ->
  exists k, Forall (fun o => o = Some k) (track_ids self ((first_frame, i0) :: steps)).
Proof.
  intros [b Hb] Hsep.
  destruct (track_people_lookup self first_frame i0 b Hb) as [k Hout].
  exists k. cbn [track_ids].
  pose proof (track_people_centres self first_frame) as Hcentres.
  pose proof (track_people_previous self first_frame) as Hprevious.
  destruct (track_people self first_frame) as [out self']. cbn [fst snd] in *.
  constructor.
  - now rewrite Hout.
  - apply (track_ids_kept steps self' first_frame i0 (to_prev (set_id k b))); auto.
    now rewrite Hprevious, list_lookup_fmap, Hout.
Qed.

Lemma identity_stability_witness :
  exists k, Forall (fun o => o = Some k)
    (track_ids new_tracker
       [([mk 100 100; mk 400 400], 0%nat);
        ([mk 395 402; mk 104 101], 1%nat);
        ([mk 110 99; mk 390 400], 0%nat)]).
Proof.
  apply (identity_stability new_tracker [mk 100 100; mk 400 400] 0
           [([mk 395 402; mk 104 101], 1%nat); ([mk 110 99; mk 390 400], 0%nat)]).
  - exists (mk 100 100). reflexivity.
  - split; [|split; [|exact I]].
    + exists (100, 100), (mk 104 101).
      split; [reflexivity|]. split; [reflexivity|]. split; [reflexivity|]. split.
      * intros j' c' Hj'. lia.
      * intros [|[|i']] b' Hne Hb'; [|congruence|discriminate].
        injection Hb' as <-. reflexivity.
    + exists (104, 101), (mk 110 99).
      split; [reflexivity|]. split; [reflexivity|]. split; [reflexivity|]. split.
      * intros [|[|j']] c' Hj' Hc'; [|lia|lia]. injection Hc' as <-. vm_compute. discriminate.
      * intros [|[|i']] b' Hne Hb'; [congruence| |discriminate].
        injection Hb' as <-. reflexivity.
Defined.

(** C1 as stated fails: two tracks cross, each moving 50 px; the entity
    processed first takes the blob nearest to it, which belongs to the
    other track, and the two ids are exchanged. *)
Lemma identity_stability_counterexample :
  small_steps [mk 100 100; mk 180 100] 0 [([mk 150 100; mk 130 100], 0%nat)] /\
  track_ids new_tracker
    [([mk 100 100; mk 180 100], 0%nat); ([mk 150 100; mk 130 100], 0%nat)]
  = [Some 1; Some 2] /\
  ~ exists k, Forall (fun o => o = Some k)
      (track_ids new_tracker
         [([mk 100 100; mk 180 100], 0%nat); ([mk 150 100; mk 130 100], 0%nat)]).
Proof.
  assert (Hids : track_ids new_tracker
            [([mk 100 100; mk 180 100], 0%nat); ([mk 150 100; mk 130 100], 0%nat)]
          = [Some 1; Some 2]) by (vm_compute; reflexivity).
  split; [|split; [exact Hids|]].
  - split; [|exact I]. exists (mk 100 100), (mk 150 100). repeat split.
  - intros [k Hk]. rewrite Hids in Hk.
    apply Forall_cons in Hk as [H1 Hk]. apply Forall_cons in Hk as [H2 _].
    congruence.
Qed.

(** ** The tracker's distance tests, on binary64 and on squares *)

(** [np.sqrt] of a positive integer below [2 ^ 52]: a normal double whose
    exponent is given by half the bit length [k] of the integer, and
    whose mantissa is the square root of the integer scaled by
    [2 ^ (106 - 2 k)], rounded to nearest. *)
Lemma np_sqrt_int_spec (v : positive) :
  Z.pos v < 2 ^ 52 ->
  exists q : positive,
    np_sqrt_int (Z.pos v) = S754_finite false q ((Z.pos (digits2_pos v) + 1) / 2 - 53) /\
    2 ^ 52 <= Z.pos q < 2 ^ 53 /\
    (2 * Z.pos q - 1) * (2 * Z.pos q - 1)
      <= 4 * (Z.pos v * 2 ^ (106 - 2 * ((Z.pos (digits2_pos v) + 1) / 2))) /\
    4 * (Z.pos v * 2 ^ (106 - 2 * ((Z.pos (digits2_pos v) + 1) / 2)))
      <= (2 * Z.pos q + 1) * (2 * Z.pos q + 1).
Proof.
  intros Hv.
  assert (Hv53 : Z.pos v < 2 ^ 53) by lia.
  pose proof (digits_le_prec 52 ltac:(lia) v Hv) as Hd52.
  pose proof (canon_mant_spec 53 ltac:(lia) v Hv53) as Hm.
  pose proof (canon_mant_digits 53 ltac:(lia) v Hv53) as Hmd.
  pose proof (digits2_pos_bounds (canon_mant 53 v)) as Hmb. rewrite Hmd in Hmb.
  change (53 - 1) with 52 in Hmb.
  set (dn := Z.pos (digits2_pos v)) in *.
  assert (Hdn : 1 <= dn) by (unfold dn; lia).
  set (k := (dn + 1) / 2).
  unfold np_sqrt_int. rewrite f64_of_int_exact by (cbn [Z.abs]; lia).
  cbn [fint]. unfold canon. cbn [SFsqrt].
  (* the core: shift, then integer square root *)
  unfold SFsqrt_core_binary. cbn [Zdigits2]. rewrite Hmd. unfold canon_exp. fold dn.
  rewrite !Z.div2_div.
  replace (Z.min (fexp 53 1024 ((53 + (dn - 53) + 1) / 2)) ((dn - 53) / 2)) with (k - 53)
    by (unfold fexp, emin, k; Z.div_mod_to_equations; lia).
  assert (Hs : dn - 53 - 2 * (k - 53) = 52 \/ dn - 53 - 2 * (k - 53) = 53)
    by (unfold k; Z.div_mod_to_equations; lia).
  set (M := Z.pos v * 2 ^ (106 - 2 * k)).
  assert (HM : Z.shiftl (Z.pos (canon_mant 53 v)) (dn - 53 - 2 * (k - 53)) = M).
  { rewrite Z.shiftl_mul_pow2 by lia. unfold M. rewrite Hm, <- Z.mul_assoc, <- Z.pow_add_r by lia.
    f_equal. f_equal. lia. }
  assert (HMb : 2 ^ 104 <= M <= 2 ^ 106 - 2 ^ 53).
  { rewrite <- HM, Z.shiftl_mul_pow2 by lia. destruct Hs as [-> | ->]; lia. }
  replace (match dn - 53 - 2 * (k - 53) with
           | 0 => Z.pos (canon_mant 53 v)
           | Z.pos _ => Z.shiftl (Z.pos (canon_mant 53 v)) (dn - 53 - 2 * (k - 53))
           | Z.neg _ => 0
           end) with M
    by (rewrite <- HM; destruct Hs as [-> | ->]; reflexivity).
  pose proof (Z.sqrtrem_spec M ltac:(lia)) as Hsq.
  destruct (Z.sqrtrem M) as [q r]. destruct Hsq as [HMq Hr].
  assert (Hq : 2 ^ 52 <= q < 2 ^ 53).
  { split.
    - destruct (Z_le_gt_dec (2 ^ 52) q) as [|Hlt]; [assumption|exfalso].
      assert (q + 1 <= 2 ^ 52) by lia.
      assert ((q + 1) * (q + 1) <= 2 ^ 52 * 2 ^ 52) by (apply Z.mul_le_mono_nonneg; lia).
      lia.
    - destruct (Z_lt_le_dec q (2 ^ 53)) as [|Hge]; [assumption|exfalso].
      assert (2 ^ 53 * 2 ^ 53 <= q * q) by (apply Z.mul_le_mono_nonneg; lia).
      lia. }
  destruct q as [|q|q]; try lia.
  (* rounding the 53-bit result *)
  assert (Hdq : Z.pos (digits2_pos q) = 53) by (apply digits2_pos_unique; lia).
  assert (Hk : 1 <= k <= 26) by (unfold k; Z.div_mod_to_equations; lia).
  assert (Hshr : forall (m : positive) l, Z.pos (digits2_pos m) = 53 ->
            shr_fexp 53 1024 (Z.pos m) (k - 53) l = (shr_record_of_loc (Z.pos m) l, k - 53)).
  { intros m l Hdm. unfold shr_fexp. cbn [Zdigits2]. rewrite Hdm.
    replace (fexp 53 1024 (53 + (k - 53)) - (k - 53)) with 0 by (unfold fexp, emin; lia).
    reflexivity. }
  assert (Hfin : forall m : positive, Z.pos (digits2_pos m) = 53 ->
            (let '(mrs, e) := shr_fexp 53 1024 (Z.pos m) (k - 53) loc_Exact in
             match shr_m mrs with
             | 0 => S754_zero false
             | Z.pos m0 => if e <=? 1024 - 53 then S754_finite false m0 e
                           else S754_infinity false
             | Z.neg _ => S754_nan
             end) = S754_finite false m (k - 53)).
  { intros m Hdm. rewrite Hshr by assumption. cbn [shr_record_of_loc shr_m].
    destruct (Z.leb_spec (k - 53) (1024 - 53)); [reflexivity|lia]. }
  unfold binary_round_aux. rewrite Hshr by assumption.
  destruct (Z.eqb_spec r 0) as [Hr0|Hr0].
  - (* exact *)
    cbn [shr_record_of_loc loc_of_shr_record shr_m round_nearest_even].
    rewrite Hfin by assumption. exists q. split; [reflexivity|]. split; [lia|]. lia.
  - destruct (Z.leb_spec r (Z.pos q)) as [Hle|Hgt].
    + (* below the midpoint *)
      cbn [shr_record_of_loc loc_of_shr_record shr_m round_nearest_even].
      rewrite Hfin by assumption. exists q. split; [reflexivity|]. split; [lia|]. lia.
    + (* above the midpoint *)
      cbn [shr_record_of_loc loc_of_shr_record shr_m round_nearest_even].
      change (Z.pos q + 1) with (Z.pos (q + 1)).
      assert (Hq1 : Z.pos (q + 1) < 2 ^ 53).
      { rewrite Pos2Z.inj_add.
        destruct (Z_lt_le_dec (Z.pos q + 1) (2 ^ 53)) as [|Hge]; [assumption|exfalso].
        assert (Z.pos q = 2 ^ 53 - 1) by lia. nia. }
      rewrite Hfin by (apply digits2_pos_unique; lia).
      exists (q + 1)%positive. split; [reflexivity|]. rewrite Pos2Z.inj_add in *.
      split; [lia|]. lia.
Qed.

(** The binary64 square root is strictly increasing on the integers below
    [2 ^ 52]. *)
Lemma np_sqrt_int_increasing (a b : positive) :
  (a < b)%positive -> Z.pos b < 2 ^ 52 ->
  SFcompare (np_sqrt_int (Z.pos a)) (np_sqrt_int (Z.pos b)) = Some Lt.
Proof.
  intros Hab Hb.
  destruct (np_sqrt_int_spec a ltac:(lia)) as (qa & -> & Hqa & Hla & Hua).
  destruct (np_sqrt_int_spec b Hb) as (qb & -> & Hqb & Hlb & Hub).
  pose proof (digits2_pos_mono a b ltac:(lia)) as Hd.
  pose proof (digits_le_prec 52 ltac:(lia) b Hb) as Hdb.
  set (ka := (Z.pos (digits2_pos a) + 1) / 2) in *.
  set (kb := (Z.pos (digits2_pos b) + 1) / 2) in *.
  assert (Hk : ka <= kb <= 26) by (unfold ka, kb; Z.div_mod_to_equations; lia).
  cbn [SFcompare].
  destruct (Z.compare_spec (ka - 53) (kb - 53)) as [He|He|He]; [|reflexivity|lia].
  f_equal. change (Pos.compare_cont Eq qa qb) with (Pos.compare qa qb).
  apply Pos.compare_lt_iff.
  assert (ka = kb) as Hkk by lia. rewrite Hkk in *.
  assert (HK : 2 ^ 54 <= 2 ^ (106 - 2 * kb)) by (apply Z.pow_le_mono_r; lia).
  remember (2 ^ (106 - 2 * kb)) as K eqn:EK.
  destruct (Pos.lt_total qa qb) as [Hlt | [Heq | Hgt]]; [assumption| |]; exfalso.
  - subst qb. nia.
  - assert ((2 * Z.pos qb + 1) * (2 * Z.pos qb + 1) <= (2 * Z.pos qa - 1) * (2 * Z.pos qa - 1))
      by (apply Z.mul_le_mono_nonneg; lia).
    nia.
Qed.

Lemma SFcompare_refl_finite (s : bool) (m : positive) (e : Z) :
  SFcompare (S754_finite s m e) (S754_finite s m e) = Some Eq.
Proof.
  cbn [SFcompare]. rewrite Z.compare_refl, Pos.compare_cont_refl. now destruct s.
Qed.

(** On integers below [2 ^ 52], comparing square roots in binary64 is
    comparing the integers. *)
Lemma np_sqrt_lt (a b : Z) :
  0 <= a < 2 ^ 52 -> 0 <= b < 2 ^ 52 ->
  SFltb (np_sqrt_int a) (np_sqrt_int b) = (a <? b).
Proof.
  intros Ha Hb. unfold SFltb.
  destruct a as [|a|a], b as [|b|b]; try lia.
  - reflexivity.
  - destruct (np_sqrt_int_spec b ltac:(lia)) as (q & -> & _). reflexivity.
  - destruct (np_sqrt_int_spec a ltac:(lia)) as (q & -> & _). reflexivity.
  - destruct (Pos.compare_spec a b) as [->|Hlt|Hgt].
    + destruct (np_sqrt_int_spec b ltac:(lia)) as (q & -> & _).
      now rewrite SFcompare_refl_finite, Z.ltb_irrefl.
    + rewrite (np_sqrt_int_increasing a b) by lia. symmetry. apply Z.ltb_lt. lia.
    + rewrite (SFcompare_antisym _ _ _ (np_sqrt_int_increasing b a Hgt ltac:(lia))).
      symmetry. apply Z.ltb_ge. lia.
Qed.

Lemma compare_cont_Eq (p q : positive) : Pos.compare_cont Eq p q = Pos.compare p q.
Proof. reflexivity. Qed.

Lemma square_le_mono (x y : Z) : 0 <= x <= y -> x * x <= y * y.
Proof. intros. apply Z.mul_le_mono_nonneg; lia. Qed.

(** 100.0 has the mantissa [100 * 2 ^ 46]; [2 * 100 * 2 ^ 46 - 1] squared
    lies between the scaled squares of 9999 and of 10000. *)
Lemma hundred_bracket (h : Z) :
  h = 2 * 7036874417766400 - 1 ->
  4 * (9999 * 2 ^ 92) < h * h < 4 * (10000 * 2 ^ 92).
Proof. intros ->. split; reflexivity. Qed.

(** [dist < 100] is [dist2 < 100 ^ 2]. *)
Lemma np_sqrt_lt_100 (a : Z) :
  0 <= a < 2 ^ 52 -> SFltb (np_sqrt_int a) (f64_of_int 100) = (a <? 100 ^ 2).
Proof.
  intros Ha. unfold SFltb.
  change (f64_of_int 100) with (S754_finite false 7036874417766400 (-46)).
  destruct a as [|a|a]; try lia; [reflexivity|].
  destruct (np_sqrt_int_spec a ltac:(lia)) as (q & -> & Hq & Hl & Hu).
  set (k := (Z.pos (digits2_pos a) + 1) / 2) in *.
  cbn [SFcompare]. rewrite compare_cont_Eq.
  remember (2 * 7036874417766400 - 1) as h eqn:Hh.
  pose proof (hundred_bracket h Hh) as Hbr.
  destruct (Z.ltb_spec (Z.pos a) (100 ^ 2)) as [Hlt|Hge].
  - pose proof (digits2_pos_mono a 9999 ltac:(lia)) as Hd.
    change (Z.pos (digits2_pos 9999)) with 14 in Hd.
    assert (Hk : k <= 7) by (unfold k; Z.div_mod_to_equations; lia).
    destruct (Z.compare_spec (k - 53) (-46)) as [He|He|He]; [|reflexivity|lia].
    assert (k = 7) as Hk7 by lia. rewrite Hk7 in Hl.
    change (2 ^ (106 - 2 * 7)) with (2 ^ 92) in Hl.
    destruct (Pos.compare_spec q 7036874417766400) as [Heq|Hq'|Hq']; [|reflexivity|]; exfalso.
    + subst q. rewrite <- Hh in Hl. lia.
    + apply Pos2Z.pos_lt_pos in Hq'.
      assert (Hr : 0 <= h <= 2 * Z.pos q - 1) by (clear -Hq' Hh; lia).
      pose proof (square_le_mono h (2 * Z.pos q - 1) Hr) as Hs.
      clear -Hs Hl Hbr Hlt. lia.
  - pose proof (digits2_pos_mono 10000 a ltac:(lia)) as Hd.
    change (Z.pos (digits2_pos 10000)) with 14 in Hd.
    assert (Hk : 7 <= k) by (unfold k; Z.div_mod_to_equations; lia).
    destruct (Z.compare_spec (k - 53) (-46)) as [He|He|He]; [|lia|reflexivity].
    assert (k = 7) as Hk7 by lia. rewrite Hk7 in Hu.
    change (2 ^ (106 - 2 * 7)) with (2 ^ 92) in Hu.
    destruct (Pos.compare_spec q 7036874417766400) as [Heq|Hq'|Hq']; [reflexivity| |reflexivity].
    exfalso. apply Pos2Z.pos_lt_pos in Hq'.
    assert (Hr : 0 <= 2 * Z.pos q + 1 <= h) by (clear -Hq' Hh; lia).
    pose proof (square_le_mono (2 * Z.pos q + 1) h Hr) as Hs.
    clear -Hs Hu Hbr Hge. lia.
Qed.

Lemma np_sqrt_lt_inf (a : Z) :
  0 <= a < 2 ^ 52 -> SFltb (np_sqrt_int a) (S754_infinity false) = true.
Proof.
  intros Ha. destruct a as [|a|a]; try lia; [reflexivity|].
  destruct (np_sqrt_int_spec a ltac:(lia)) as (q & -> & _). reflexivity.
Qed.

Lemma dist2_in_range (p : point) (b : blob) :
  in_range p -> in_range (centre b) -> 0 <= dist2 p b < 2 ^ 52.
Proof.
  unfold in_range, centre, dist2. cbn [fst snd].
  intros [Hx Hy] [Hbx Hby]. rewrite !Z.pow_2_r.
  remember (cx b - p.1) as dx eqn:Hdx. remember (cy b - p.2) as dy eqn:Hdy.
  assert (0 <= (2 ^ 25 - dx) * (2 ^ 25 + dx)) by (apply Z.mul_nonneg_nonneg; lia).
  assert (0 <= (2 ^ 25 - dy) * (2 ^ 25 + dy)) by (apply Z.mul_nonneg_nonneg; lia).
  pose proof (Z.square_nonneg dx). pose proof (Z.square_nonneg dy).
  lia.
Qed.

(** The loop as written and the loop on squares choose the same blob. *)
Lemma find_best_np_eq (p : point) (blobs : list blob) (matched : list bool) (i : nat)
    (min_dist : spec_float) (min_dist2 : option Z) (best : option nat) :
  in_range p -> Forall (fun b => in_range (centre b)) blobs ->
  same_min min_dist min_dist2 ->
  find_best_np p blobs matched i min_dist best
  = find_best p blobs matched i min_dist2 best.
Proof.
  intros Hp Hblobs. revert matched i min_dist min_dist2 best.
  induction Hblobs as [|b blobs Hb Hblobs IH]; intros matched i md md2 best Hsame;
    [reflexivity|].
  destruct matched as [|m ms]; [reflexivity|]. cbn [find_best_np find_best].
  destruct m; [now apply IH|].
  pose proof (dist2_in_range p b Hp Hb) as Hd.
  unfold np_dist. rewrite (np_sqrt_lt_100 _ Hd).
  assert (Hcloser : SFltb (np_sqrt_int (dist2 p b)) md = closer (dist2 p b) md2).
  { destruct md2 as [d|]; cbn [same_min closer] in *.
    - destruct Hsame as [Hd' ->]. now apply np_sqrt_lt.
    - subst md. now apply np_sqrt_lt_inf. }
  rewrite Hcloser.
  destruct (closer (dist2 p b) md2 && (dist2 p b <? 100 ^ 2)).
  - apply IH. cbn [same_min]. auto.
  - now apply IH.
Qed.

(** In particular the first call of the loop, with [min_dist = inf]. *)
Lemma find_best_np_first (p : point) (blobs : list blob) (matched : list bool) :
  in_range p -> Forall (fun b => in_range (centre b)) blobs ->
  find_best_np p blobs matched 0 (S754_infinity false) None
  = find_best p blobs matched 0 None None.
Proof. intros Hp Hb. now apply find_best_np_eq. Qed.

Lemma match_step_centres (m : list bool) (bl : list blob) (prev : prev_blob) :
  centre <$> (match_step (m, bl) prev).2 = centre <$> bl.
Proof.
  destruct (match_step_cases m bl prev) as [-> | (k & b & _ & _ & _ & ->)]; [reflexivity|].
  cbn [snd]. rewrite (list_fmap_alter centre (set_id (pb_id prev)) id).
  - now apply list_alter_id.
  - apply Forall_forall. reflexivity.
Qed.

Lemma match_loop_np_eq (prevs : list prev_blob) (m : list bool) (bl : list blob) :
  Forall (fun prev => in_range (pb_center prev)) prevs ->
  Forall in_range (centre <$> bl) ->
  fold_left match_step_np prevs (m, bl) = fold_left match_step prevs (m, bl).
Proof.
  intros Hprevs. revert m bl.
  induction Hprevs as [|prev prevs Hprev Hprevs IH]; intros m bl Hbl; [reflexivity|].
  cbn [fold_left].
  assert (Hstep : match_step_np (m, bl) prev = match_step (m, bl) prev).
  { unfold match_step_np, match_step. rewrite find_best_np_first; auto.
    rewrite Forall_fmap in Hbl. exact Hbl. }
  rewrite Hstep. pose proof (match_step_centres m bl prev) as Hc.
  destruct (match_step (m, bl) prev) as [m' bl']. cbn [snd] in Hc.
  apply IH. now rewrite Hc.
Qed.

(** [track_people] decides on squared distances what the code decides on
    binary64 distances: for centroids within [in_range] the two agree. *)
Lemma track_people_np_eq (self : tracker) (current_blobs : list blob) :
  Forall (fun prev => in_range (pb_center prev)) (previous_blobs self) ->
  Forall (fun b => in_range (centre b)) current_blobs ->
  track_people_np self current_blobs = track_people self current_blobs.
Proof.
  intros Hprevs Hblobs. unfold track_people_np, track_people.
  rewrite match_loop_np_eq; [reflexivity|assumption|].
  rewrite Forall_fmap. exact Hblobs.
Qed.

(** ** Silhouette trail *)

Section TrailFacts.
Context {mask : Type}.
Implicit Types (trail masks : list mask) (n : nat).

Lemma add_silhouette_to_trail_drop n trail (x : mask) :
  (length trail <= n)%nat ->
  add_silhouette_to_trail n trail x
  = drop (length (trail ++ [x]) - n) (trail ++ [x]).
Proof.
  intros Hlen. unfold add_silhouette_to_trail. rewrite length_app. cbn [length].
  destruct (Nat.ltb_spec n (length trail + 1)) as [Hlt|Hge].
  - replace (length trail + 1 - n)%nat with 1%nat by lia.
    destruct trail; reflexivity.
  - replace (length trail + 1 - n)%nat with 0%nat by lia. reflexivity.
Qed.

Lemma push_all_drop n masks : forall trail,
  (length trail <= n)%nat ->
  push_all n trail masks = drop (length (trail ++ masks) - n) (trail ++ masks).
Proof.
  induction masks as [|x masks IH]; intros trail Hlen.
  - cbn. rewrite app_nil_r. replace (length trail - n)%nat with 0%nat by lia. reflexivity.
  - cbn [push_all fold_left]. fold (push_all n (add_silhouette_to_trail n trail x) masks).
    rewrite add_silhouette_to_trail_drop by assumption.
    rewrite (cons_middle x trail masks), app_assoc.
    set (T := trail ++ [x]).
    assert (HT : length T = S (length trail))
      by (unfold T; rewrite length_app; cbn [length]; lia).
    rewrite IH by (rewrite length_drop; lia).
    rewrite <- (drop_app_le T masks) by lia.
    rewrite drop_drop, length_drop, !length_app. f_equal. lia.
Qed.
End TrailFacts.

(** C7: whatever is pushed onto the (initially empty) trail, it never
    holds more than [ghost_trail_length = 5] masks, and it holds exactly
    the last five pushed (everything pushed, when fewer than five), in
    push order, oldest first. *)
Theorem trail_bounded_fifo {mask : Type} (pushed : list mask) :
  ghost_trail_length = 5%nat /\
  (length (push_all ghost_trail_length [] pushed) <= ghost_trail_length)%nat /\
  push_all ghost_trail_length [] pushed
  = drop (length pushed - ghost_trail_length) pushed.
Proof.
  split; [reflexivity|].
  assert (H : push_all ghost_trail_length [] pushed
              = drop (length pushed - ghost_trail_length) pushed).
  { rewrite push_all_drop by (cbn; lia). reflexivity. }
  split; [|exact H]. rewrite H, length_drop. lia.
Qed.

Example trail_seven_pushes :
  push_all ghost_trail_length [] [1; 2; 3; 4; 5; 6; 7]%nat = [3; 4; 5; 6; 7]%nat.
Proof. reflexivity. Qed.

(** ** Blob extractor *)

Lemma Qltb_lt (x y : Q) : Qltb x y = true <-> (x < y)%Q.
Proof.
  unfold Qltb. rewrite negb_true_iff. split.
  - intros H. apply Qnot_le_lt. intros Hle. apply Qle_bool_iff in Hle. congruence.
  - intros H. destruct (Qle_bool y x) eqn:E; [|reflexivity].
    apply Qle_bool_iff in E. exfalso. apply (Qlt_not_le _ _ H E).
Qed.

Lemma Qltb_ge (x y : Q) : Qltb x y = false <-> (y <= x)%Q.
Proof.
  unfold Qltb. rewrite negb_false_iff. apply Qle_bool_iff.
Qed.

Section SortFacts.
Variable key : blob -> Q.

Lemma Forall_insert_desc (P : blob -> Prop) (x : blob) (l : list blob) :
  P x -> Forall P l -> Forall P (insert_desc key x l).
Proof.
  intros Hx Hl. induction Hl as [|y l Hy Hl IH]; cbn [insert_desc].
  - now repeat constructor.
  - destruct (Qltb (key x) (key y)); repeat constructor; auto.
Qed.

Lemma insert_desc_sorted (x : blob) (l : list blob) :
  StronglySorted (desc key) l -> StronglySorted (desc key) (insert_desc key x l).
Proof.
  induction 1 as [|y l Hsorted IH Hy]; cbn [insert_desc].
  - repeat constructor.
  - destruct (Qltb (key x) (key y)) eqn:E.
    + constructor; [exact IH|].
      apply Forall_insert_desc; [|exact Hy].
      apply Qltb_lt in E. unfold desc. now apply Qlt_le_weak.
    + apply Qltb_ge in E. constructor; [now constructor|].
      constructor; [exact E|].
      eapply Forall_impl; [exact Hy|]. intros z Hz. unfold desc in *.
      eapply Qle_trans; eassumption.
Qed.

Lemma sort_desc_sorted (l : list blob) : StronglySorted (desc key) (sort_desc key l).
Proof.
  induction l as [|x l IH]; cbn; [constructor|]. now apply insert_desc_sorted.
Qed.
(** Sorting loses and adds nothing. *)
Lemma insert_desc_perm (x : blob) (l : list blob) :
  Permutation (insert_desc key x l) (x :: l).
Proof.
  induction l as [|y l IH]; cbn [insert_desc]; [reflexivity|].
  destruct (Qltb (key x) (key y)); [|reflexivity].
  rewrite IH. apply perm_swap.
Qed.

Lemma sort_desc_perm (l : list blob) : Permutation (sort_desc key l) l.
Proof.
  induction l as [|x l IH]; cbn; [reflexivity|].
  rewrite insert_desc_perm. now constructor.
Qed.
End SortFacts.

Lemma Forall_geometry (P : list point -> Prop) (l1 l2 : list blob) :
  geometry <$> l1 = geometry <$> l2 ->
  Forall (fun b => P (contour b)) l2 -> Forall (fun b => P (contour b)) l1.
Proof.
  revert l2. induction l1 as [|x l1 IH]; intros [|y l2] Hg Hb; try discriminate;
    constructor; rewrite !fmap_cons in Hg; injection Hg as Hx Hg;
    apply Forall_cons in Hb as [Hy Hb].
  - assert (Hc : contour x = contour y) by (unfold geometry in Hx; congruence).
    now rewrite Hc.
  - now apply (IH l2).
Qed.

(** An order that only looks at the contour survives [track_people]. *)
Lemma StronglySorted_geometry (R : list point -> list point -> Prop) (l1 l2 : list blob) :
  geometry <$> l1 = geometry <$> l2 ->
  StronglySorted (fun a b => R (contour a) (contour b)) l2 ->
  StronglySorted (fun a b => R (contour a) (contour b)) l1.
Proof.
  revert l2. induction l1 as [|a l1 IH]; intros [|b l2] Hg Hs; try discriminate;
    [constructor|].
  rewrite !fmap_cons in Hg. injection Hg as Ha Hg.
  apply StronglySorted_inv in Hs as [Hs Hb].
  constructor; [now apply (IH l2)|].
  assert (Hc : contour a = contour b) by (unfold geometry in Ha; congruence).
  rewrite Hc. now apply (Forall_geometry (R (contour b)) l1 l2).
Qed.

(** C8, as amended: the blob list is in descending order of contour area,
    ties allowed (each area is greater than or equal to every later
    one), and regions of equal area are all kept: the list holds every
    region that passes the size and centroid tests, once each.  In both
    variants of [find_all_person_blobs]; the variant that ends with
    [track_people] returns the same regions, with their ids. *)
Theorem blob_list_descending (contourArea : list point -> Q)
    (moments : list point -> spec_float * spec_float * spec_float)
    (self : tracker) (depth : list (list Z)) (contours : list (list point)) :
  (StronglySorted (fun a b => (contourArea (contour b) <= contourArea (contour a))%Q)
     (find_all_person_blobs contourArea moments depth contours) /\
   Permutation (find_all_person_blobs contourArea moments depth contours)
     (omap (person_blob contourArea moments depth) contours)) /\
  (StronglySorted (fun a b => (contourArea (contour b) <= contourArea (contour a))%Q)
     (find_all_person_blobs_tracked contourArea moments self depth contours).1 /\
   Permutation
     (geometry <$> (find_all_person_blobs_tracked contourArea moments self depth contours).1)
     (geometry <$> omap (person_blob contourArea moments depth) contours)).
Proof.
  split; split.
  - apply (sort_desc_sorted (fun x => contourArea (contour x))).
  - apply sort_desc_perm.
  - unfold find_all_person_blobs_tracked.
    apply (StronglySorted_geometry (fun c d => (contourArea d <= contourArea c)%Q)
             _ (find_all_person_blobs contourArea moments depth contours)).
    + apply track_people_geometry.
    + apply (sort_desc_sorted (fun x => contourArea (contour x))).
  - unfold find_all_person_blobs_tracked. rewrite track_people_geometry.
    apply fmap_Permutation. apply sort_desc_perm.
Qed.

(** C8 as stated fails: two regions of equal area are both returned, so
    the list is not strictly descending. *)
Lemma blob_list_descending_counterexample :
  exists a b,
    find_all_person_blobs polygon_area polygon_moments flat_frame
      [square 10 10; square 300 200] !! 0%nat = Some a /\
    find_all_person_blobs polygon_area polygon_moments flat_frame
      [square 10 10; square 300 200] !! 1%nat = Some b /\
    ~ (polygon_area (contour b) < polygon_area (contour a))%Q.
Proof.
  exists (Blob 59 59 1000 (square 10 10) None), (Blob 349 249 1000 (square 300 200) None).
  split; [vm_compute; reflexivity|]. split; [vm_compute; reflexivity|].
  vm_compute. discriminate.
Qed.

(** ** Opacity fade *)

Example f64_literals :
  f64_of_decimal 7 10 = S754_finite false 6305039478318694 (-53) /\
  f64_of_decimal 4 10 = S754_finite false 7205759403792794 (-54) /\
  f64_of_decimal 8 10 = S754_finite false 7205759403792794 (-53).
Proof. vm_compute. repeat split. Qed.

Section OpacityFacts.
Context {sprite : Type}.
Variable np_sin : spec_float -> spec_float.

Lemma assign_ghost_to_person_alpha (self : ghost_tracker sprite) (person_id : Z)
    (choice : sprite) (uniform now : spec_float) :
  ghost_alpha (assign_ghost_to_person self person_id choice uniform now).2
  = ghost_alpha self.
Proof.
  unfold assign_ghost_to_person. cbn [snd].
  destruct (person_ghost_map self !! person_id); [reflexivity|].
  now destruct (0 <? length (ghost_sprites self))%nat.
Qed.

(** Nothing but [__init__] writes [ghost_alpha]. *)
Lemma after_assignments_alpha (sprites : list sprite)
    (calls : list (Z * sprite * spec_float * spec_float)) :
  ghost_alpha (after_assignments sprites calls) = f64_of_decimal 7 10.
Proof.
  unfold after_assignments.
  assert (H : ghost_alpha (new_ghost_tracker sprites) = f64_of_decimal 7 10)
    by reflexivity.
  revert H. generalize (new_ghost_tracker sprites).
  induction calls as [|[[[person_id choice] uniform] now] calls IH]; intros self H;
    [exact H|].
  cbn [fold_left]. apply IH. now rewrite assign_ghost_to_person_alpha.
Qed.

(** C9: for an id without fade data, [get_current_opacity] returns the
    default ghost alpha, the double 0.7, raises nothing and leaves the
    tracker (so the fade-data map) as it was. *)
Theorem default_opacity_for_unknown_id (sprites : list sprite)
    (calls : list (Z * sprite * spec_float * spec_float))
    (now : spec_float) (person_id : Z) :
  person_fade_data (after_assignments sprites calls) !! person_id = None ->
  get_current_opacity np_sin (after_assignments sprites calls) now person_id
  = (Returns (f64_of_decimal 7 10), after_assignments sprites calls).
Proof.
  intros Hnone. unfold get_current_opacity. rewrite Hnone.
  now rewrite after_assignments_alpha.
Qed.
End OpacityFacts.

Lemma default_opacity_for_unknown_id_witness :
  get_current_opacity (fun x => x)
    (after_assignments [tt] [(1, tt, f64_of_decimal 13 10, f64_of_int 1000)])
    (f64_of_int 1001) 2
  = (Returns (f64_of_decimal 7 10),
     after_assignments [tt] [(1, tt, f64_of_decimal 13 10, f64_of_int 1000)]).
Proof.
  apply (default_opacity_for_unknown_id (fun x => x) [tt]
           [(1, tt, f64_of_decimal 13 10, f64_of_int 1000)] (f64_of_int 1001) 2).
  reflexivity.
Defined.

(** In binary64 the phase of the fade cycle is not exactly periodic: one
    period later it differs in its last digits, so the opacity can only
    repeat up to rounding.  (Cycle of 0.7 s started at 1000.0, sampled at
    1000.1 and at 1000.1 + 0.7.) *)
Lemma cycle_position_not_periodic :
  cycle_position
    (FadeData (f64_of_decimal 7 10) (f64_of_int 1000)
       (f64_of_decimal 4 10) (f64_of_decimal 8 10))
    (f64_of_decimal 10001 10)
  <> cycle_position
       (FadeData (f64_of_decimal 7 10) (f64_of_int 1000)
          (f64_of_decimal 4 10) (f64_of_decimal 8 10))
       (f64_add (f64_of_decimal 10001 10) (f64_of_decimal 7 10)).
Proof. vm_compute. discriminate. Qed.

(** * Part III: further properties of the code *)

(** ** Identity tracker: ids within a frame *)

(** The entities processed so far gave their ids to different blobs. *)
Lemma match_loop_distinct (prevs : list prev_blob) :
  forall (used : list Z) (m : list bool) (bl : list blob),
  NoDup (used ++ (pb_id <$> prevs)) ->
  (forall i, m !! i = Some true ->
     exists b k, bl !! i = Some b /\ pid b = Some k /\ k ∈ used) ->
  (forall i j bi bj, i <> j -> m !! i = Some true -> m !! j = Some true ->
     bl !! i = Some bi -> bl !! j = Some bj -> pid bi <> pid bj) ->
  forall i j bi bj, i <> j ->
    (fold_left match_step prevs (m, bl)).1 !! i = Some true ->
    (fold_left match_step prevs (m, bl)).1 !! j = Some true ->
    (fold_left match_step prevs (m, bl)).2 !! i = Some bi ->
    (fold_left match_step prevs (m, bl)).2 !! j = Some bj -> pid bi <> pid bj.
Proof.
  induction prevs as [|prev prevs IH]; intros used m bl Hnd Hused Hdist; [exact Hdist|].
  cbn [fold_left].
  assert (Hnd' : NoDup ((used ++ [pb_id prev]) ++ (pb_id <$> prevs))).
  { now rewrite <- app_assoc. }
  assert (Hfresh : pb_id prev ∉ used).
  { rewrite fmap_cons in Hnd. apply NoDup_app in Hnd as (_ & Hdisj & _).
    intros Hin. apply (Hdisj _ Hin). left. }
  destruct (match_step_cases m bl prev) as [-> | (k & b & Hb & Hk & _ & ->)].
  - apply (IH (used ++ [pb_id prev])); auto.
    intros i Hi. destruct (Hused i Hi) as (b & k & ? & ? & ?).
    exists b, k. repeat split; auto. apply elem_of_app. now left.
  - apply (IH (used ++ [pb_id prev])); auto.
    + intros i Hi. destruct (decide (k = i)) as [<-|Hne].
      * exists (set_id (pb_id prev) b), (pb_id prev).
        rewrite list_lookup_alter_eq, Hb. repeat split; auto.
        apply elem_of_app. right. left.
      * rewrite list_lookup_insert_ne in Hi by assumption.
        rewrite list_lookup_alter_ne by assumption.
        destruct (Hused i Hi) as (b' & k' & ? & ? & ?).
        exists b', k'. repeat split; auto. apply elem_of_app. now left.
    + intros i j bi bj Hij Hi Hj Hbi Hbj.
      destruct (decide (k = i)) as [<-|Hki]; [|destruct (decide (k = j)) as [<-|Hkj]].
      * rewrite list_lookup_alter_eq, Hb in Hbi. injection Hbi as <-.
        rewrite list_lookup_insert_ne in Hj by assumption.
        rewrite list_lookup_alter_ne in Hbj by assumption.
        destruct (Hused j Hj) as (b' & k' & Hb' & Hk' & Hin).
        assert (bj = b') by congruence. subst b'. cbn [set_id pid]. rewrite Hk'.
        intros [= E]. apply Hfresh. now rewrite E.
      * rewrite list_lookup_alter_eq, Hb in Hbj. injection Hbj as <-.
        rewrite list_lookup_insert_ne in Hi by assumption.
        rewrite list_lookup_alter_ne in Hbi by assumption.
        destruct (Hused i Hi) as (b' & k' & Hb' & Hk' & Hin).
        assert (bi = b') by congruence. subst b'. cbn [set_id pid]. rewrite Hk'.
        intros [= E]. apply Hfresh. now rewrite <- E.
      * rewrite list_lookup_insert_ne in Hi, Hj by assumption.
        rewrite list_lookup_alter_ne in Hbi, Hbj by assumption.
        now apply (Hdist i j).
Qed.

Lemma track_people_matched_distinct (self : tracker) (blobs : list blob)
    (i j : nat) (bi bj : blob) :
  NoDup (pb_id <$> previous_blobs self) -> i <> j ->
  final_matched self blobs !! i = Some true ->
  final_matched self blobs !! j = Some true ->
  (track_people self blobs).1 !! i = Some bi ->
  (track_people self blobs).1 !! j = Some bj -> pid bi <> pid bj.
Proof.
  intros Hnd Hij Hi Hj. rewrite track_people_unfold. cbv zeta. cbn [fst].
  rewrite (assign_new_matched _ _ _ _ Hi), (assign_new_matched _ _ _ _ Hj).
  apply (match_loop_distinct (previous_blobs self) []); auto.
  - intros i' Hi'. apply lookup_replicate in Hi' as [? _]. discriminate.
  - intros i' j' ? ? _ Hi'. apply lookup_replicate in Hi' as [? _]. discriminate.
Qed.

(** One call keeps the ids of a frame apart. *)
Lemma track_people_nodup (self : tracker) (blobs : list blob) :
  ids_distinct self -> NoDup (pid <$> (track_people self blobs).1).
Proof.
  intros (Hnd & Hrange & Hc). apply NoDup_alt. intros i j x Hi Hj.
  rewrite list_lookup_fmap in Hi, Hj.
  destruct ((track_people self blobs).1 !! i) as [bi|] eqn:Hbi; [|discriminate].
  destruct ((track_people self blobs).1 !! j) as [bj|] eqn:Hbj; [|discriminate].
  injection Hi as Hi. injection Hj as Hj.
  destruct (decide (i = j)) as [|Hij]; [assumption|exfalso].
  assert (Hli : (i < length blobs)%nat).
  { rewrite <- track_people_length with (self := self). eapply lookup_lt_Some; eassumption. }
  assert (Hlj : (j < length blobs)%nat).
  { rewrite <- track_people_length with (self := self). eapply lookup_lt_Some; eassumption. }
  set (fm := final_matched self blobs).
  destruct (lookup_lt_is_Some_2 fm i) as [mi Hmi];
    [unfold fm; now rewrite final_matched_length|].
  destruct (lookup_lt_is_Some_2 fm j) as [mj Hmj];
    [unfold fm; now rewrite final_matched_length|].
  destruct (lookup_lt_is_Some_2 blobs i Hli) as [b0i Hb0i].
  destruct (lookup_lt_is_Some_2 blobs j Hlj) as [b0j Hb0j].
  pose proof (unmatched_before_nonneg fm i) as Hnni.
  pose proof (unmatched_before_nonneg fm j) as Hnnj.
  rewrite Forall_forall in Hrange.
  destruct mi, mj.
  - apply (track_people_matched_distinct self blobs i j bi bj); auto. congruence.
  - destruct (track_people_matched self blobs i Hmi) as (prev & b' & Hin & Hb' & Hid).
    rewrite (track_people_unmatched self blobs j b0j Hb0j Hmj) in Hbj.
    injection Hbj as <-. cbn [set_id pid] in Hj. fold fm in Hj.
    specialize (Hrange prev Hin).
    assert (bi = b') by congruence. subst b'.
    rewrite Hid in Hi. subst x. injection Hj as Hj. lia.
  - destruct (track_people_matched self blobs j Hmj) as (prev & b' & Hin & Hb' & Hid).
    rewrite (track_people_unmatched self blobs i b0i Hb0i Hmi) in Hbi.
    injection Hbi as <-. cbn [set_id pid] in Hi. fold fm in Hi.
    specialize (Hrange prev Hin).
    assert (bj = b') by congruence. subst b'.
    rewrite Hid in Hj. subst x. injection Hj as Hj. lia.
  - rewrite (track_people_unmatched self blobs i b0i Hb0i Hmi) in Hbi.
    rewrite (track_people_unmatched self blobs j b0j Hb0j Hmj) in Hbj.
    injection Hbi as <-. injection Hbj as <-. cbn [set_id pid] in Hi, Hj. fold fm in Hi, Hj.
    subst x. injection Hj as Hj.
    destruct (Nat.lt_total i j) as [Hlt | [-> | Hlt]]; [|congruence|].
    + pose proof (unmatched_before_lt fm i j Hlt Hmi). lia.
    + pose proof (unmatched_before_lt fm j i Hlt Hmj). lia.
Qed.

(** Every output id lies between 1 and the new counter. *)
Lemma track_people_ids_range (self : tracker) (blobs : list blob) :
  ids_distinct self ->
  Forall (fun b => exists k, pid b = Some k /\
                             1 <= k <= person_counter (track_people self blobs).2)
    (track_people self blobs).1.
Proof.
  intros (Hnd & Hrange & Hc). apply Forall_lookup. intros i b Hb.
  pose proof (track_people_counter_mono self blobs) as Hmono.
  destruct (track_people_id_cases _ _ _ _ Hb) as (k & Hk & [(prev & Hin & Hprev) | Hnew]);
    exists k; (split; [exact Hk|]); [|lia].
  rewrite Forall_forall in Hrange. specialize (Hrange prev Hin). lia.
Qed.

Lemma track_people_ids_distinct (self : tracker) (blobs : list blob) :
  ids_distinct self -> ids_distinct (track_people self blobs).2.
Proof.
  intros Hok.
  pose proof (track_people_nodup self blobs Hok) as Hnd.
  pose proof (track_people_ids_range self blobs Hok) as Hrange.
  pose proof (track_people_counter_mono self blobs) as Hmono.
  destruct Hok as (_ & _ & Hc).
  unfold ids_distinct. rewrite track_people_previous.
  assert (Hsome : pid <$> (track_people self blobs).1
                  = Some <$> (pb_id <$> (to_prev <$> (track_people self blobs).1))).
  { rewrite <- !list_fmap_compose. apply Forall_fmap_ext_1.
    eapply Forall_impl; [exact Hrange|]. intros b (k & Hk & _).
    cbn. now rewrite Hk. }
  split; [|split; [|lia]].
  - rewrite Hsome in Hnd. exact (NoDup_fmap_1 Some _ Hnd).
  - rewrite Forall_fmap. eapply Forall_impl; [exact Hrange|].
    intros b (k & Hk & Hle). cbn. now rewrite Hk.
Qed.

Lemma new_tracker_ids_distinct : ids_distinct new_tracker.
Proof. split; [constructor|]. split; [constructor|]. cbn. lia. Qed.

Lemma run_ids_distinct (frames : list (list blob)) :
  forall self, ids_distinct self -> ids_distinct (run self frames).2.
Proof.
  induction frames as [|blobs frames IH]; intros self Hok; [exact Hok|].
  cbn [run]. pose proof (track_people_ids_distinct self blobs Hok) as Hok'.
  destruct (track_people self blobs) as [out self']. cbn [snd] in Hok'.
  specialize (IH self' Hok'). now destruct (run self' frames).
Qed.

(** In every frame of a run that starts with a new tracker, every blob
    has an id, the ids of the frame are pairwise distinct, and each lies
    between 1 and the counter: an id is never shared by two blobs of a
    frame, whether it was kept from the previous frame or minted. *)
Theorem track_people_ids_unique (history : list (list blob)) (current_blobs : list blob) :
  NoDup (pid <$> (track_people (tracker_after history) current_blobs).1) /\
  Forall (fun b => exists k, pid b = Some k /\
            1 <= k <= person_counter (track_people (tracker_after history) current_blobs).2)
    (track_people (tracker_after history) current_blobs).1.
Proof.
  assert (Hok : ids_distinct (tracker_after history))
    by (apply run_ids_distinct, new_tracker_ids_distinct).
  split; [now apply track_people_nodup|now apply track_people_ids_range].
Qed.

(** ** Identity tracker: ids are not given out twice *)

Lemma track_people_forgets (self : tracker) (blobs : list blob) (k : Z) :
  k <= person_counter self -> k ∉ pb_id <$> previous_blobs self ->
  Forall (fun b => pid b <> Some k) (track_people self blobs).1 /\
  k <= person_counter (track_people self blobs).2 /\
  k ∉ pb_id <$> previous_blobs (track_people self blobs).2.
Proof.
  intros Hk Hgone.
  assert (Hout : Forall (fun b => pid b <> Some k) (track_people self blobs).1).
  { apply Forall_lookup. intros i b Hb.
    destruct (track_people_id_cases _ _ _ _ Hb) as (k' & Hk' & [(prev & Hin & Hprev) | Hnew]);
      rewrite Hk'; intros [= ->]; [|lia].
    apply Hgone. rewrite <- Hprev. now apply list_elem_of_fmap_2. }
  split; [exact Hout|]. split; [pose proof (track_people_counter_mono self blobs); lia|].
  rewrite track_people_previous. intros Hin.
  apply list_elem_of_fmap in Hin as (prev & Hid & Hin).
  apply list_elem_of_fmap in Hin as (b & -> & Hin).
  rewrite Forall_forall in Hout. specialize (Hout b Hin).
  pose proof (track_people_all_ids self blobs) as Hall.
  rewrite Forall_forall in Hall. destruct (Hall b Hin) as [k' Hk'].
  cbn in Hid. rewrite Hk' in Hid, Hout. cbn in Hid. congruence.
Qed.

(** An id that has been given out (it is not above the counter) and
    that the tracker no longer remembers, because no blob of the last
    frame carried it, is never given to a blob again, in any later frame:
    a person lost for one frame comes back under a new id. *)
Theorem dropped_id_never_returns (self : tracker) (frames : list (list blob)) (k : Z) :
  k <= person_counter self -> k ∉ pb_id <$> previous_blobs self ->
  Forall (Forall (fun b => pid b <> Some k)) (run self frames).1.
Proof.
  revert self. induction frames as [|blobs frames IH]; intros self Hk Hgone; [constructor|].
  cbn [run]. destruct (track_people_forgets self blobs k Hk Hgone) as (Hout & Hk' & Hgone').
  destruct (track_people self blobs) as [out self']. cbn [fst snd] in *.
  specialize (IH self' Hk' Hgone'). destruct (run self' frames) as [outs self''].
  cbn [fst] in *. now constructor.
Qed.

Lemma dropped_id_never_returns_witness :
  Forall (Forall (fun b => pid b <> Some 1))
    (run (tracker_after [[mk 100 100]; [mk 400 400]]) [[mk 100 100]; [mk 101 100]]).1.
Proof.
  apply (dropped_id_never_returns (tracker_after [[mk 100 100]; [mk 400 400]])
           [[mk 100 100]; [mk 101 100]] 1).
  - vm_compute. discriminate.
  - vm_compute. intros H. apply list_elem_of_singleton in H. discriminate.
Defined.

(** ** Identity tracker: an empty frame *)

Lemma match_loop_nil (prevs : list prev_blob) :
  fold_left match_step prevs ([], []) = ([], []).
Proof. induction prevs as [|prev prevs IH]; [reflexivity|exact IH]. Qed.

Lemma assign_new_all_unmatched (bl : list blob) (c : Z) :
  assign_new bl (replicate (length bl) false) c
  = (imap (fun i b => set_id (c + Z.of_nat i + 1) b) bl, c + Z.of_nat (length bl)).
Proof.
  revert c. induction bl as [|b bl IH]; intros c.
  - cbn. f_equal. lia.
  - cbn [length replicate assign_new imap]. rewrite IH. f_equal.
    + f_equal; [f_equal; lia|]. apply imap_ext. intros i x _. cbn. f_equal. lia.
    + lia.
Qed.

(** A frame without blobs empties the tracker's memory (the counter
    stays): whatever the tracker remembered, every blob of the next frame
    is new to it and gets a fresh id, in list order, wherever it is. *)
Theorem track_people_empty_frame (self : tracker) (current_blobs : list blob) :
  track_people self [] = ([], Tracker [] (person_counter self)) /\
  (track_people (track_people self []).2 current_blobs).1
  = imap (fun i b => set_id (person_counter self + Z.of_nat i + 1) b) current_blobs.
Proof.
  assert (Hempty : track_people self [] = ([], Tracker [] (person_counter self))).
  { unfold track_people. cbn [length replicate]. now rewrite match_loop_nil. }
  split; [exact Hempty|]. rewrite Hempty. cbn [snd].
  unfold track_people. cbn [previous_blobs person_counter fold_left].
  now rewrite assign_new_all_unmatched.
Qed.

(** ** Identity tracker: a scene that does not move *)

Lemma dist2_nonneg (p : point) (b : blob) : 0 <= dist2 p b.
Proof.
  unfold dist2. rewrite !Z.pow_2_r.
  pose proof (Z.square_nonneg (cx b - fst p)). pose proof (Z.square_nonneg (cy b - snd p)).
  lia.
Qed.

Lemma dist2_centre (b : blob) : dist2 (centre b) b = 0.
Proof. unfold dist2, centre. cbn [fst snd]. rewrite !Z.sub_diag. reflexivity. Qed.

(** Entity after entity finds its own blob again: it is at distance 0,
    and the blobs before it are taken. *)
Lemma match_loop_replay (todo : list blob) :
  forall (ps : list prev_blob) (done : list blob),
  pb_center <$> ps = centre <$> todo ->
  fold_left match_step ps
    (replicate (length done) true ++ replicate (length todo) false, done ++ todo)
  = (replicate (length done + length todo) true,
     done ++ zip_with (fun p b => set_id (pb_id p) b) ps todo).
Proof.
  induction todo as [|b todo IH]; intros ps done Hc.
  - destruct ps; [|discriminate]. cbn. now rewrite !app_nil_r, Nat.add_0_r.
  - destruct ps as [|p ps]; [discriminate|].
    rewrite !fmap_cons in Hc. injection Hc as Hp Hc.
    cbn [fold_left length replicate zip_with].
    assert (Hstep : match_step
              (replicate (length done) true ++ false :: replicate (length todo) false,
               done ++ b :: todo) p
            = (replicate (length (done ++ [set_id (pb_id p) b])) true
                 ++ replicate (length todo) false,
               (done ++ [set_id (pb_id p) b]) ++ todo)).
    { unfold match_step.
      rewrite (find_best_pick (pb_center p) done todo (replicate (length done) true)
                 (replicate (length todo) false) b 0 None None).
      - cbn [Nat.add]. f_equal.
        + rewrite insert_app_r_alt by (rewrite length_replicate; lia).
          rewrite length_replicate, Nat.sub_diag. cbn [insert list_insert].
          rewrite length_app. cbn [length]. rewrite replicate_add. cbn [replicate].
          now rewrite <- app_assoc.
        + rewrite alter_app_r_alt by lia. rewrite Nat.sub_diag. cbn [alter list_alter].
          now rewrite <- app_assoc.
      - apply length_replicate.
      - unfold within. rewrite Hp, dist2_centre. lia.
      - reflexivity.
      - intros j b' _ Hm. apply lookup_replicate in Hm as [? _]. discriminate.
      - intros j b' _ _. rewrite Hp, dist2_centre. apply dist2_nonneg. }
    rewrite Hstep, (IH ps (done ++ [set_id (pb_id p) b]) Hc).
    rewrite length_app. cbn [length]. f_equal; [f_equal; lia|].
    now rewrite <- app_assoc.
Qed.

Lemma assign_new_all_matched (bl : list blob) (c : Z) :
  assign_new bl (replicate (length bl) true) c = (bl, c).
Proof.
  induction bl as [|b bl IH]; [reflexivity|].
  cbn [length replicate assign_new]. now rewrite IH.
Qed.

Lemma pid_zip_with_set_id (ps : list prev_blob) :
  forall bl : list blob, length bl = length ps ->
  pid <$> zip_with (fun p b => set_id (pb_id p) b) ps bl = Some <$> (pb_id <$> ps).
Proof.
  induction ps as [|p ps IH]; intros [|b bl] Hlen; try discriminate; [reflexivity|].
  cbn [zip_with]. rewrite !fmap_cons. cbn [set_id pid]. f_equal. apply IH.
  now injection Hlen.
Qed.

(** When the next frame shows the same centroids in the same order,
    every blob keeps its id and no id is minted, even where blobs share a
    centroid. *)
Theorem track_people_still_scene (self : tracker) (frame frame' : list blob) :
  centre <$> frame' = centre <$> frame ->
  pid <$> (track_people (track_people self frame).2 frame').1
  = pid <$> (track_people self frame).1 /\
  person_counter (track_people (track_people self frame).2 frame').2
  = person_counter (track_people self frame).2.
Proof.
  intros Hsame.
  pose proof (track_people_centres self frame) as Hcentres.
  pose proof (track_people_previous self frame) as Hprevious.
  pose proof (track_people_all_ids self frame) as Hids.
  pose proof (track_people_length self frame) as Hlen.
  destruct (track_people self frame) as [out self']. cbn [fst snd] in *.
  assert (Hlen' : length frame' = length frame).
  { apply (f_equal length) in Hsame. now rewrite !length_fmap in Hsame. }
  assert (Hrun : fold_left match_step (previous_blobs self')
                   (replicate (length frame') false, frame')
                 = (replicate (length frame') true,
                    zip_with (fun p b => set_id (pb_id p) b) (previous_blobs self') frame')).
  { apply (match_loop_replay frame' (previous_blobs self') []). congruence. }
  unfold track_people. rewrite Hrun.
  set (kept := zip_with (fun p b => set_id (pb_id p) b) (previous_blobs self') frame').
  assert (Hzlen : length kept = length frame').
  { unfold kept. rewrite length_zip_with, Hprevious, length_fmap. lia. }
  rewrite <- Hzlen, assign_new_all_matched. cbn [fst snd person_counter].
  split; [|reflexivity]. unfold kept.
  rewrite pid_zip_with_set_id by (rewrite Hprevious, length_fmap; lia).
  rewrite Hprevious, <- !list_fmap_compose. symmetry. apply Forall_fmap_ext_1.
  eapply Forall_impl; [exact Hids|]. intros b [k Hk]. cbn. now rewrite Hk.
Qed.

Lemma track_people_still_scene_witness :
  pid <$> (track_people (track_people new_tracker [mk 100 100; mk 100 100; mk 400 300]).2
             [mk 100 100; mk 100 100; mk 400 300]).1
  = pid <$> (track_people new_tracker [mk 100 100; mk 100 100; mk 400 300]).1 /\
  person_counter
    (track_people (track_people new_tracker [mk 100 100; mk 100 100; mk 400 300]).2
       [mk 100 100; mk 100 100; mk 400 300]).2
  = person_counter (track_people new_tracker [mk 100 100; mk 100 100; mk 400 300]).2.
Proof.
  apply (track_people_still_scene new_tracker [mk 100 100; mk 100 100; mk 400 300]
           [mk 100 100; mk 100 100; mk 400 300]).
  reflexivity.
Defined.

(** ** Blob extractor: which blobs are returned *)

Section ExtractorFacts.
Variable contourArea : list point -> Q.
Variable moments : list point -> spec_float * spec_float * spec_float.
Variable depth : list (list Z).

Lemma person_blob_sound (c : list point) (b : blob) :
  person_blob contourArea moments depth c = Some b ->
  contour b = c /\ (5000 < contourArea c)%Q /\
  0 <= cy b < shape0 depth /\ 0 <= cx b < shape1 depth /\
  blob_depth b = pixel depth (cy b) (cx b) /\ pid b = None.
Proof.
  unfold person_blob. destruct (Qltb 5000 (contourArea c)) eqn:Harea; [|discriminate].
  apply Qltb_lt in Harea.
  destruct (moments c) as [[m00 m10] m01].
  destruct (SFltb pos_zero m00); [|discriminate].
  destruct (_ && _) eqn:Hin; [|discriminate]. intros [= <-]. cbn.
  apply andb_true_iff in Hin as [Hin H4]. apply andb_true_iff in Hin as [Hin H3].
  apply andb_true_iff in Hin as [H1 H2].
  apply Z.leb_le in H1, H3. apply Z.ltb_lt in H2, H4.
  split; [reflexivity|]. split; [exact Harea|]. split; [lia|]. split; [lia|]. split; reflexivity.
Qed.

Lemma Forall_sort_desc (key : blob -> Q) (P : blob -> Prop) (l : list blob) :
  Forall P l -> Forall P (sort_desc key l).
Proof.
  induction 1 as [|x l Hx Hl IH]; cbn; [constructor|]. now apply Forall_insert_desc.
Qed.

(** Every blob the extractor returns comes from one of the contours, is
    larger than 5000 pixels, has its centroid inside the frame, carries
    the raw depth read at that centroid, and has no id yet. *)
Theorem find_all_person_blobs_sound (contours : list (list point)) :
  Forall (fun b => contour b ∈ contours /\ (5000 < contourArea (contour b))%Q /\
                   0 <= cy b < shape0 depth /\ 0 <= cx b < shape1 depth /\
                   blob_depth b = pixel depth (cy b) (cx b) /\ pid b = None)
    (find_all_person_blobs contourArea moments depth contours).
Proof.
  unfold find_all_person_blobs. apply Forall_sort_desc.
  induction contours as [|c contours IH]; [constructor|].
  cbn [omap list_omap].
  assert (Htl : Forall (fun b => contour b ∈ c :: contours /\
                          (5000 < contourArea (contour b))%Q /\
                          0 <= cy b < shape0 depth /\ 0 <= cx b < shape1 depth /\
                          blob_depth b = pixel depth (cy b) (cx b) /\ pid b = None)
                  (omap (person_blob contourArea moments depth) contours)).
  { eapply Forall_impl; [exact IH|]. intros b (Hin & Hrest). split; [now right|exact Hrest]. }
  destruct (person_blob contourArea moments depth c) as [b|] eqn:Hb; [|exact Htl].
  constructor; [|exact Htl].
  apply person_blob_sound in Hb as (Hc & Harea & Hrest).
  rewrite Hc. split; [left|]. split; assumption.
Qed.

(** Inserting [x] puts it in front of the blobs that have its key. *)
Lemma filter_insert_desc (key : blob -> Q) (q : Q) (x : blob) (l : list blob) :
  List.filter (fun b => Qeq_bool (key b) q) (insert_desc key x l)
  = List.filter (fun b => Qeq_bool (key b) q) (x :: l).
Proof.
  induction l as [|y l IH]; [reflexivity|]. cbn [insert_desc].
  destruct (Qltb (key x) (key y)) eqn:Hlt; [|reflexivity].
  cbn [List.filter] in *. rewrite IH.
  destruct (Qeq_bool (key x) q) eqn:Hx; [|reflexivity].
  destruct (Qeq_bool (key y) q) eqn:Hy; [|reflexivity].
  apply Qltb_lt in Hlt. apply Qeq_bool_iff in Hx, Hy.
  rewrite Hx, Hy in Hlt. now apply Qlt_irrefl in Hlt.
Qed.

Lemma filter_sort_desc (key : blob -> Q) (q : Q) (l : list blob) :
  List.filter (fun b => Qeq_bool (key b) q) (sort_desc key l)
  = List.filter (fun b => Qeq_bool (key b) q) l.
Proof.
  induction l as [|x l IH]; [reflexivity|].
  cbn [sort_desc foldr]. fold (sort_desc key l). rewrite filter_insert_desc.
  cbn [List.filter]. now rewrite IH.
Qed.

(** Sorting loses and adds nothing, and it is stable: the blobs that
    pass the size and centroid tests are all returned, once each, and
    blobs of equal area stay in the order of their contours. *)
Theorem find_all_person_blobs_stable (contours : list (list point)) :
  Permutation (find_all_person_blobs contourArea moments depth contours)
    (omap (person_blob contourArea moments depth) contours) /\
  forall q : Q,
    List.filter (fun b => Qeq_bool (contourArea (contour b)) q)
      (find_all_person_blobs contourArea moments depth contours)
    = List.filter (fun b => Qeq_bool (contourArea (contour b)) q)
        (omap (person_blob contourArea moments depth) contours).
Proof.
  split; [apply sort_desc_perm|].
  intros q. apply (filter_sort_desc (fun b => contourArea (contour b))).
Qed.
End ExtractorFacts.

(** ** Largest region *)

Section PersonCenterFacts.
Variable findContours : list (list Z) -> list (list point).
Variable contourArea : list point -> Q.
Variable moments : list point -> spec_float * spec_float * spec_float.

Lemma max_by_area_spec (rest : list (list point)) :
  forall c0 : list point,
  max_by_area contourArea c0 rest ∈ c0 :: rest /\
  Forall (fun c => (contourArea c <= contourArea (max_by_area contourArea c0 rest))%Q)
    (c0 :: rest).
Proof.
  induction rest as [|c rest IH]; intros c0; cbn [max_by_area].
  - split; [left|]. constructor; [apply Qle_refl|constructor].
  - destruct (Qltb (contourArea c0) (contourArea c)) eqn:Hlt.
    + destruct (IH c) as [Hin Hall]. apply Forall_cons in Hall as [Hc Hall].
      split; [now right|]. constructor; [|now constructor].
      apply Qltb_lt in Hlt. eapply Qle_trans; [apply Qlt_le_weak; exact Hlt|exact Hc].
    + destruct (IH c0) as [Hin Hall]. apply Forall_cons in Hall as [Hc0 Hall].
      split.
      * apply elem_of_cons in Hin as [->|Hin]; [left|right; now right].
      * constructor; [exact Hc0|]. constructor; [|exact Hall].
        apply Qltb_ge in Hlt. eapply Qle_trans; eassumption.
Qed.

(** When [find_person_center] returns, the mask marks the pixels strictly
    inside the depth band, and either both the centre and the contour
    are [None], or the contour is one of largest area among those of the
    mask, of area at least 10000, and the centre is its centroid
    [(int(m10 / m00), int(m01 / m00))], computed from its own moments
    with [m00 > 0], inside the frame, with the raw depth read there. *)
Theorem find_person_center_largest (depth_min depth_max : Z) (depth : list (list Z))
    (center : option (Z * Z * Z)) (largest_contour : option (list point))
    (mask : list (list Z)) :
  find_person_center findContours contourArea moments depth_min depth_max depth
  = Returns (center, largest_contour, mask) ->
  mask = depth_mask depth_min depth_max depth /\
  (center = None /\ largest_contour = None \/
   exists cx cy c,
     center = Some (cx, cy, pixel depth cy cx) /\ largest_contour = Some c /\
     c ∈ findContours mask /\ (10000 <= contourArea c)%Q /\
     Forall (fun c' => (contourArea c' <= contourArea c)%Q) (findContours mask) /\
     SFltb pos_zero (moments c).1.1 = true /\
     py_int (f64_div (moments c).1.2 (moments c).1.1) = Returns cx /\
     py_int (f64_div (moments c).2 (moments c).1.1) = Returns cy /\
     0 <= cx < shape1 depth /\ 0 <= cy < shape0 depth).
Proof.
  unfold find_person_center. cbv zeta.
  destruct (findContours (depth_mask depth_min depth_max depth)) as [|c0 rest] eqn:Hcs.
  { intros [= <- <- <-]. auto. }
  destruct (max_by_area_spec rest c0) as [Hin Hall].
  destruct (Qltb (contourArea (max_by_area contourArea c0 rest)) 10000) eqn:Hsmall.
  { intros [= <- <- <-]. auto. }
  apply Qltb_ge in Hsmall.
  destruct (moments (max_by_area contourArea c0 rest)) as [[m00 m10] m01] eqn:Hm.
  destruct (SFltb pos_zero m00) eqn:Hm00; [|intros [= <- <- <-]; auto].
  destruct (py_int (f64_div m10 m00)) as [cx|] eqn:Hcx; [|discriminate]. cbn [bind].
  destruct (py_int (f64_div m01 m00)) as [cy|] eqn:Hcy; [|discriminate]. cbn [bind].
  destruct (_ && _) eqn:Hinside; [|intros [= <- <- <-]; auto].
  intros [= <- <- <-]. split; [reflexivity|right].
  exists cx, cy, (max_by_area contourArea c0 rest). rewrite Hcs.
  apply andb_true_iff in Hinside as [Hinside H4]. apply andb_true_iff in Hinside as [Hinside H3].
  apply andb_true_iff in Hinside as [H1 H2].
  apply Z.leb_le in H1, H3. apply Z.ltb_lt in H2, H4.
  rewrite Hm. cbn [fst snd].
  repeat split; auto.
Qed.
End PersonCenterFacts.

Lemma find_person_center_largest_witness :
  depth_mask 217 3626 (replicate 120 (replicate 120 1000))
  = depth_mask 217 3626 (replicate 120 (replicate 120 1000)) /\
  (Some (57, 57, 1000) = None /\
   Some [(5, 5); (5, 110); (110, 110); (110, 5)] = @None (list point) \/
   exists cx cy c,
     Some (57, 57, 1000) = Some (cx, cy, pixel (replicate 120 (replicate 120 1000)) cy cx) /\
     Some [(5, 5); (5, 110); (110, 110); (110, 5)] = Some c /\
     c ∈ [[(5, 5); (5, 110); (110, 110); (110, 5)]; square 0 0] /\
     (10000 <= polygon_area c)%Q /\
     Forall (fun c' => (polygon_area c' <= polygon_area c)%Q)
       [[(5, 5); (5, 110); (110, 110); (110, 5)]; square 0 0] /\
     SFltb pos_zero (polygon_moments c).1.1 = true /\
     py_int (f64_div (polygon_moments c).1.2 (polygon_moments c).1.1) = Returns cx /\
     py_int (f64_div (polygon_moments c).2 (polygon_moments c).1.1) = Returns cy /\
     0 <= cx < shape1 (replicate 120 (replicate 120 1000)) /\
     0 <= cy < shape0 (replicate 120 (replicate 120 1000))).
Proof.
  apply (find_person_center_largest
           (fun _ => [[(5, 5); (5, 110); (110, 110); (110, 5)]; square 0 0])
           polygon_area polygon_moments 217 3626 (replicate 120 (replicate 120 1000))).
  vm_compute. reflexivity.
Defined.

(** ** Control panel *)

Lemma button_not_checkbox (x y : Z) : on_button x y = true -> on_checkbox x y = false.
Proof.
  unfold on_button, on_checkbox. intros H.
  apply andb_true_iff in H as [H H4]. apply andb_true_iff in H as [H H3].
  apply Z.leb_le in H3. destruct (y <=? 230) eqn:E; [|now rewrite andb_false_r].
  apply Z.leb_le in E. lia.
Qed.

(** However many mouse events arrive, a pending background capture is
    never cancelled by one (the flag is set by a left click on the button
    and otherwise kept), and debug mode is toggled once per left click on
    the checkbox; the two areas do not overlap. *)
Theorem mouse_callback_events (self : panel) (events : list (Z * Z * Z)) :
  capture_background (after_events self events)
  = capture_background self || existsb button_click events /\
  debug_mode (after_events self events)
  = xorb (debug_mode self) (Nat.odd (length (List.filter checkbox_click events))) /\
  (forall x y, on_button x y = true -> on_checkbox x y = false).
Proof.
  split; [|split; [|exact button_not_checkbox]];
    revert self; induction events as [|[[event x] y] events IH]; intros self.
  - cbn. now rewrite orb_false_r.
  - unfold after_events in *. cbn [fold_left existsb]. rewrite IH.
    unfold mouse_callback, button_click.
    destruct (event =? EVENT_LBUTTONDOWN); cbn [andb]; [|reflexivity].
    destruct (on_button x y); cbn [capture_background orb].
    + now rewrite orb_true_r.
    + now destruct (on_checkbox x y).
  - cbn. now rewrite xorb_false_r.
  - unfold after_events in *. cbn [fold_left List.filter]. rewrite IH.
    unfold mouse_callback, checkbox_click.
    destruct (event =? EVENT_LBUTTONDOWN); cbn [andb]; [|reflexivity].
    destruct (on_button x y) eqn:Hb.
    + now rewrite (button_not_checkbox x y Hb).
    + destruct (on_checkbox x y); cbn [debug_mode length]; [|reflexivity].
      rewrite Nat.odd_succ, <- Nat.negb_odd. now destruct (debug_mode self), (Nat.odd _).
Qed.

(** ** Depth normalizer: outside the band, and an inverted band *)

Section ExactDifferences.
Variable prec : Z.
Hypothesis Hprec : 0 < prec.
Variable emax : Z.
Hypothesis Hemax : prec <= emax.
Hypothesis Hemax2 : 2 <= emax.

Lemma SFsub_canon_lt (a b : positive) :
  Z.pos b < 2 ^ prec -> (a < b)%positive ->
  SFsub prec emax (canon prec false a) (canon prec false b) = canon prec true (b - a).
Proof.
  intros Hb Hab.
  assert (Ha : Z.pos a < 2 ^ prec) by lia.
  pose proof (digits2_pos_mono a b ltac:(lia)) as Hd.
  pose proof (digits_le_prec prec Hprec b Hb) as Hdb.
  pose proof (digits_le_prec prec Hprec a Ha) as Hda.
  pose proof (canon_mant_spec prec Hprec a Ha) as Hma.
  pose proof (canon_mant_spec prec Hprec b Hb) as Hmb.
  unfold canon. cbn [SFsub]. unfold canon_exp.
  rewrite Z.min_l by lia.
  assert (Hbl : Z.pos (fst (shl_align (canon_mant prec b) (Z.pos (digits2_pos b) - prec)
                                      (Z.pos (digits2_pos a) - prec)))
                = Z.pos b * 2 ^ (prec - Z.pos (digits2_pos a))).
  { unfold shl_align.
    destruct (Z.pos (digits2_pos a) - prec - (Z.pos (digits2_pos b) - prec)) as [|p|p] eqn:Hp;
      cbn [fst].
    - rewrite Hmb. f_equal. f_equal. lia.
    - lia.
    - rewrite Zpos_iter_xO, Hmb, <- Z.mul_assoc, <- Z.pow_add_r by lia.
      f_equal. f_equal. lia. }
  assert (Hal : fst (shl_align (canon_mant prec a) (Z.pos (digits2_pos a) - prec)
                               (Z.pos (digits2_pos a) - prec)) = canon_mant prec a).
  { unfold shl_align. now rewrite Z.sub_diag. }
  rewrite Hal. cbn [cond_Zopp]. rewrite Hbl, Hma.
  assert (Hpow : 0 < 2 ^ (prec - Z.pos (digits2_pos a))) by (apply Z.pow_pos_nonneg; lia).
  destruct (Z.pos a * 2 ^ (prec - Z.pos (digits2_pos a))
            - Z.pos b * 2 ^ (prec - Z.pos (digits2_pos a))) as [|w|w] eqn:Hw; [nia|nia|].
  cbn [binary_normalize].
  apply binary_round_exact; try assumption.
  - rewrite Pos2Z.inj_sub by assumption. lia.
  - lia.
  - rewrite Pos2Z.inj_sub by assumption.
    replace (- (Z.pos (digits2_pos a) - prec)) with (prec - Z.pos (digits2_pos a)) by lia.
    lia.
Qed.

(** Subtraction of integers below [2 ^ prec] is exact, whatever the sign
    of the difference. *)
Lemma SFsub_fint_signed (a b : Z) :
  0 <= a < 2 ^ prec -> 0 <= b < 2 ^ prec ->
  SFsub prec emax (fint prec a) (fint prec b) = fint prec (a - b).
Proof.
  intros Ha Hb. destruct (Z_le_gt_dec b a) as [Hle|Hgt].
  - apply SFsub_fint; (assumption || lia).
  - destruct b as [|b|b]; try lia. destruct a as [|a|a]; try lia.
    + reflexivity.
    + cbn [fint]. rewrite SFsub_canon_lt by lia.
      replace (Z.pos a - Z.pos b) with (Z.neg (b - a)); [reflexivity|].
      change (Z.neg (b - a)) with (- Z.pos (b - a)). rewrite Pos2Z.inj_sub by lia. lia.
Qed.
End ExactDifferences.

Lemma f32_sub_fint_signed (a b : Z) :
  0 <= a < 2 ^ 24 -> 0 <= b < 2 ^ 24 -> f32_sub (fint 24 a) (fint 24 b) = fint 24 (a - b).
Proof. intros. apply SFsub_fint_signed; lia. Qed.

Lemma f64_sub_fint_signed (a b : Z) :
  0 <= a < 2 ^ 53 -> 0 <= b < 2 ^ 53 -> f64_sub (fint 53 a) (fint 53 b) = fint 53 (a - b).
Proof. intros. apply SFsub_fint_signed; lia. Qed.

Lemma f32_div_self_signed (s : bool) (v : positive) :
  Z.pos v < 2 ^ 24 -> f32_div (canon 24 s v) (canon 24 s v) = f32_of_int 1.
Proof.
  intros Hv. unfold f32_div, canon. cbn [SFdiv]. rewrite xorb_nilpotent.
  unfold SFdiv_core_binary. cbn [Zdigits2].
  rewrite (canon_mant_digits 24 ltac:(lia) v Hv).
  replace (24 + canon_exp 24 v - (24 + canon_exp 24 v)) with 0 by lia.
  rewrite Z.sub_diag.
  change (Z.min (fexp 24 128 0) 0) with (-24).
  change (0 - -24) with 24.
  rewrite Z.shiftl_mul_pow2 by lia.
  destruct (Z.div_eucl (Z.pos (canon_mant 24 v) * 2 ^ 24) (Z.pos (canon_mant 24 v)))
    as [q r] eqn:E.
  assert (Hq : q = 2 ^ 24).
  { change q with (fst (q, r)). rewrite <- E.
    change (fst (Z.div_eucl ?a ?b)) with (a / b).
    rewrite Z.mul_comm. apply Z.div_mul. lia. }
  assert (Hr : r = 0).
  { change r with (snd (q, r)). rewrite <- E.
    change (snd (Z.div_eucl ?a ?b)) with (a mod b).
    rewrite Z.mul_comm. apply Z_mod_mult. }
  subst q r.
  assert (Hloc : new_location (Z.pos (canon_mant 24 v)) 0 = loc_Exact).
  { unfold new_location. now destruct (Z.even _). }
  rewrite Hloc. reflexivity.
Qed.

(** Readings at or beyond an edge of the band are saturated: every valid
    reading up to [depth_min] is as bright as [depth_min] itself (255),
    every reading from [depth_max] on is black (0). *)
Theorem normalize_pixel_saturates (depth_min depth_max raw : Z) :
  0 <= depth_min < depth_max -> depth_max < 2 ^ 24 -> 0 < raw < 2 ^ 24 ->
  (raw <= depth_min -> normalize_pixel depth_min depth_max raw = 255) /\
  (depth_max <= raw -> normalize_pixel depth_min depth_max raw = 0).
Proof.
  intros Hband Hmax Hraw. split; intros Hout; rewrite normalize_pixel_in_band by lia.
  - replace (clamp raw depth_min depth_max - depth_min) with 0 by (unfold clamp; lia).
    change (fint 24 0) with pos_zero.
    rewrite f32_div_zero_fint by lia. apply scale_quotient_zero.
  - replace (clamp raw depth_min depth_max - depth_min) with (depth_max - depth_min)
      by (unfold clamp; lia).
    destruct (depth_max - depth_min) as [|v|v] eqn:Hv; try lia.
    cbn [fint]. rewrite f32_div_self by lia. apply scale_quotient_one.
Qed.

Lemma normalize_pixel_saturates_witness :
  (100 <= 217 -> normalize_pixel 217 3626 100 = 255) /\
  (3626 <= 100 -> normalize_pixel 217 3626 100 = 0).
Proof. apply (normalize_pixel_saturates 217 3626 100); lia. Defined.

Lemma normalize_pixel_inverted (depth_min depth_max raw : Z) :
  0 <= depth_max < depth_min -> depth_min < 2 ^ 24 -> Z.abs raw < 2 ^ 24 ->
  normalize_pixel depth_min depth_max raw = 0.
Proof.
  intros Hband Hmin Hraw. destruct (Z_le_gt_dec raw 0) as [Hneg|Hpos].
  { now apply normalize_pixel_masked. }
  unfold normalize_pixel.
  rewrite (f32_of_int_exact raw), SFleb_fint_zero by lia.
  destruct (Z.leb_spec raw 0) as [|_]; [lia|].
  rewrite !f64_of_int_exact by lia.
  rewrite f64_sub_fint_signed by lia.
  rewrite !f32_of_f64_fint by lia.
  rewrite np_clip_fint by lia.
  replace (clamp raw depth_min depth_max) with depth_max by (unfold clamp; lia).
  rewrite f32_sub_fint_signed by lia.
  destruct (depth_max - depth_min) as [|v|v] eqn:Hv; try lia.
  cbn [fint]. rewrite f32_div_self_signed by lia. reflexivity.
Qed.

(** With the two sliders crossed ([depth_max] below [depth_min]) the
    normalizer returns a black image: every pixel is clipped to
    [depth_max], the quotient is 1 and the intensity 0, so no pixel can
    pass the blob extractor's threshold. *)
Theorem normalize_depth_inverted_band (depth_min depth_max : Z) (depth_mm : list (list Z)) :
  0 <= depth_max < depth_min -> depth_min < 2 ^ 24 ->
  Forall (Forall (fun raw => Z.abs raw < 2 ^ 24)) depth_mm ->
  normalize_depth depth_min depth_max depth_mm = map (map (fun _ => 0)) depth_mm.
Proof.
  intros Hband Hmin Hframe. unfold normalize_depth.
  induction Hframe as [|row rows Hrow Hrows IH]; [reflexivity|].
  cbn [map]. f_equal; [|exact IH].
  induction Hrow as [|raw row Hraw Hrow IHrow]; [reflexivity|].
  cbn [map]. f_equal; [|exact IHrow].
  now apply normalize_pixel_inverted.
Qed.

Lemma normalize_depth_inverted_band_witness :
  normalize_depth 3000 1000 [[500; 2000]; [0; 4000]] = map (map (fun _ => 0)) [[500; 2000]; [0; 4000]].
Proof.
  apply (normalize_depth_inverted_band 3000 1000 [[500; 2000]; [0; 4000]]); try lia.
  repeat constructor; cbn; lia.
Defined.

(** ** Ghost assignment *)

Section AssignmentFacts.
Context {sprite : Type}.
Variable np_sin : spec_float -> spec_float.
Implicit Types (self : ghost_tracker sprite) (calls : list (Z * sprite * spec_float * spec_float)).

(** The tracker after further calls. *)
Lemma after_assignments_app (sprites : list sprite) calls calls' :
  after_assignments sprites (calls ++ calls')
  = fold_left
      (fun self '(person_id, choice, uniform, now) =>
         (assign_ghost_to_person self person_id choice uniform now).2)
      calls' (after_assignments sprites calls).
Proof. unfold after_assignments. apply fold_left_app. Qed.

Lemma assign_ghost_to_person_known self (person_id : Z) (g choice : sprite)
    (uniform now : spec_float) :
  person_ghost_map self !! person_id = Some g ->
  assign_ghost_to_person self person_id choice uniform now = (Some g, self).
Proof. intros Hg. unfold assign_ghost_to_person. rewrite Hg. cbv zeta. now rewrite Hg. Qed.

Lemma assign_ghost_to_person_keeps self (person_id id : Z) (g choice : sprite)
    (uniform now : spec_float) :
  person_ghost_map self !! id = Some g ->
  person_ghost_map (assign_ghost_to_person self person_id choice uniform now).2 !! id
  = Some g /\
  person_fade_data (assign_ghost_to_person self person_id choice uniform now).2 !! id
  = person_fade_data self !! id.
Proof.
  intros Hg. unfold assign_ghost_to_person. cbn [snd].
  destruct (person_ghost_map self !! person_id) eqn:Hp; [now split|].
  destruct (0 <? length (ghost_sprites self))%nat; [|now split].
  cbn [person_ghost_map person_fade_data].
  assert (person_id <> id) by congruence.
  now rewrite !lookup_insert_ne.
Qed.

(** Once a person has a ghost, it is theirs for good: whatever calls
    follow, for this or any other person, the map keeps the same sprite
    and the same fade data for them, and a further call for them returns
    that sprite and changes nothing (no new random choice, no new
    cycle). *)
Theorem ghost_assignment_is_permanent (sprites : list sprite) calls calls'
    (person_id : Z) (g choice : sprite) (uniform now : spec_float) :
  person_ghost_map (after_assignments sprites calls) !! person_id = Some g ->
  person_ghost_map (after_assignments sprites (calls ++ calls')) !! person_id = Some g /\
  person_fade_data (after_assignments sprites (calls ++ calls')) !! person_id
  = person_fade_data (after_assignments sprites calls) !! person_id /\
  assign_ghost_to_person (after_assignments sprites (calls ++ calls')) person_id
    choice uniform now
  = (Some g, after_assignments sprites (calls ++ calls')).
Proof.
  intros Hg. rewrite after_assignments_app.
  revert Hg. generalize (after_assignments sprites calls).
  induction calls' as [|[[[id c] u] t] calls' IH]; intros self Hg.
  - cbn [fold_left]. split; [exact Hg|]. split; [reflexivity|].
    now apply assign_ghost_to_person_known.
  - cbn [fold_left].
    destruct (assign_ghost_to_person_keeps self id person_id g c u t Hg) as [Hg' Hf'].
    destruct (IH _ Hg') as (H1 & H2 & H3).
    split; [exact H1|]. split; [now rewrite H2|exact H3].
Qed.

(** The two maps are written together. *)
Lemma assign_ghost_to_person_together self (person_id id : Z) (choice : sprite)
    (uniform now : spec_float) :
  (is_Some (person_ghost_map self !! id) <-> is_Some (person_fade_data self !! id)) ->
  is_Some (person_ghost_map (assign_ghost_to_person self person_id choice uniform now).2 !! id)
  <-> is_Some (person_fade_data
                 (assign_ghost_to_person self person_id choice uniform now).2 !! id).
Proof.
  intros Hinv. unfold assign_ghost_to_person. cbn [snd].
  destruct (person_ghost_map self !! person_id); [exact Hinv|].
  destruct (0 <? length (ghost_sprites self))%nat; [|exact Hinv].
  cbn [person_ghost_map person_fade_data].
  destruct (decide (person_id = id)) as [->|Hne].
  - rewrite !lookup_insert_eq. split; intros _; eexists; reflexivity.
  - now rewrite !lookup_insert_ne.
Qed.

(** A person has fade data exactly when they have a ghost: the default
    opacity is used for persons without a ghost and for no one else. *)
Theorem ghost_and_fade_data_together (sprites : list sprite) calls (person_id : Z) :
  is_Some (person_ghost_map (after_assignments sprites calls) !! person_id) <->
  is_Some (person_fade_data (after_assignments sprites calls) !! person_id).
Proof.
  unfold after_assignments.
  assert (Hinit : is_Some (person_ghost_map (new_ghost_tracker sprites) !! person_id) <->
                  is_Some (person_fade_data (new_ghost_tracker sprites) !! person_id)).
  { cbn. rewrite !lookup_empty. split; intros [? ?]; discriminate. }
  revert Hinit. generalize (new_ghost_tracker sprites).
  induction calls as [|[[[id c] u] t] calls IH]; intros self Hinv; [exact Hinv|].
  cbn [fold_left]. apply IH. now apply assign_ghost_to_person_together.
Qed.

Lemma assign_ghost_to_person_sprites self (person_id : Z) (choice : sprite)
    (uniform now : spec_float) :
  ghost_sprites (assign_ghost_to_person self person_id choice uniform now).2
  = ghost_sprites self.
Proof.
  unfold assign_ghost_to_person. cbn [snd].
  destruct (person_ghost_map self !! person_id); [reflexivity|].
  now destruct (0 <? length (ghost_sprites self))%nat.
Qed.

Lemma assign_ghost_to_person_no_sprites self (person_id : Z) (choice : sprite)
    (uniform now : spec_float) :
  ghost_sprites self = [] -> person_ghost_map self = ∅ ->
  assign_ghost_to_person self person_id choice uniform now = (None, self).
Proof.
  intros Hs Hm. unfold assign_ghost_to_person. rewrite Hm, lookup_empty, Hs. cbn.
  now rewrite Hm, lookup_empty.
Qed.

(** Without sprites (an empty or missing sprite folder) nothing is ever
    assigned: every call returns [None] and leaves the tracker as
    [__init__] made it, and the opacity asked for any person is the
    default 0.7. *)
Theorem no_sprites_no_ghosts calls (person_id : Z) (choice : sprite)
    (uniform now : spec_float) :
  after_assignments [] calls = new_ghost_tracker [] /\
  assign_ghost_to_person (after_assignments [] calls) person_id choice uniform now
  = (None, after_assignments [] calls) /\
  get_current_opacity np_sin (after_assignments [] calls) now person_id
  = (Returns (f64_of_decimal 7 10), after_assignments [] calls).
Proof.
  assert (Hsame : after_assignments (@nil sprite) calls = new_ghost_tracker []).
  { unfold after_assignments. generalize (eq_refl (new_ghost_tracker (@nil sprite))).
    generalize (new_ghost_tracker (@nil sprite)) at 1 3.
    induction calls as [|[[[id c] u] t] calls IH]; intros self Hself; [exact Hself|].
    cbn [fold_left]. apply IH.
    rewrite assign_ghost_to_person_no_sprites by (now rewrite Hself). exact Hself. }
  rewrite Hsame. split; [reflexivity|]. split; [|reflexivity].
  now apply assign_ghost_to_person_no_sprites.
Qed.

Lemma half_le_nonzero (u : spec_float) :
  SFleb (f64_of_decimal 5 10) u = true -> is_zero u = false.
Proof. destruct u; try reflexivity. vm_compute. discriminate. Qed.

Lemma assign_ghost_to_person_cycle self (person_id id : Z) (choice : sprite)
    (uniform now : spec_float) (fd : fade_data) :
  is_zero uniform = false ->
  (forall fd', person_fade_data self !! id = Some fd' -> is_zero (cycle_time fd') = false) ->
  person_fade_data (assign_ghost_to_person self person_id choice uniform now).2 !! id
  = Some fd ->
  is_zero (cycle_time fd) = false.
Proof.
  intros Hu Hinv. unfold assign_ghost_to_person. cbn [snd].
  destruct (person_ghost_map self !! person_id); [apply Hinv|].
  destruct (0 <? length (ghost_sprites self))%nat; [|apply Hinv].
  cbn [person_fade_data].
  destruct (decide (person_id = id)) as [->|Hne].
  - rewrite lookup_insert_eq. now intros [= <-].
  - rewrite lookup_insert_ne by assumption. apply Hinv.
Qed.

(** [get_current_opacity] never raises: as long as every cycle time
    drawn is at least 0.5 (what [random.uniform(0.5, 2.0)] returns), the
    two divisions by the cycle time are divisions by a non-zero number,
    for every person and at every instant; the call returns an opacity
    and leaves the tracker unchanged. *)
Theorem get_current_opacity_returns (sprites : list sprite) calls
    (now : spec_float) (person_id : Z) :
  Forall (fun call => SFleb (f64_of_decimal 5 10) call.1.2 = true) calls ->
  exists opacity,
    get_current_opacity np_sin (after_assignments sprites calls) now person_id
    = (Returns opacity, after_assignments sprites calls).
Proof.
  intros Hcalls.
  assert (Hinv : forall fd,
            person_fade_data (after_assignments sprites calls) !! person_id = Some fd ->
            is_zero (cycle_time fd) = false).
  { unfold after_assignments.
    assert (Hinit : forall fd,
              person_fade_data (new_ghost_tracker sprites) !! person_id = Some fd ->
              is_zero (cycle_time fd) = false).
    { intros fd. cbn. now rewrite lookup_empty. }
    revert Hinit. generalize (new_ghost_tracker sprites).
    induction Hcalls as [|[[[id c] u] t] calls Hu Hcalls IH]; intros self Hinit; [exact Hinit|].
    cbn [fold_left]. apply IH. intros fd.
    apply assign_ghost_to_person_cycle; [|exact Hinit].
    now apply half_le_nonzero. }
  unfold get_current_opacity.
  destruct (person_fade_data (after_assignments sprites calls) !! person_id) as [fd|];
    [|eexists; reflexivity].
  specialize (Hinv fd eq_refl).
  unfold cycle_position, py_float_mod, py_float_div. rewrite Hinv.
  destruct (is_zero (fmod _ _)); [eexists; reflexivity|].
  destruct (xorb _ _); eexists; reflexivity.
Qed.
End AssignmentFacts.

Lemma ghost_assignment_is_permanent_witness :
  person_ghost_map
    (after_assignments [true; false]
       ([(1, true, f64_of_decimal 13 10, f64_of_int 1000)]
        ++ [(2, false, f64_of_int 1, f64_of_int 1001);
            (1, false, f64_of_int 2, f64_of_int 1002)])) !! 1 = Some true /\
  person_fade_data
    (after_assignments [true; false]
       ([(1, true, f64_of_decimal 13 10, f64_of_int 1000)]
        ++ [(2, false, f64_of_int 1, f64_of_int 1001);
            (1, false, f64_of_int 2, f64_of_int 1002)])) !! 1
  = person_fade_data
      (after_assignments [true; false]
         [(1, true, f64_of_decimal 13 10, f64_of_int 1000)]) !! 1 /\
  assign_ghost_to_person
    (after_assignments [true; false]
       ([(1, true, f64_of_decimal 13 10, f64_of_int 1000)]
        ++ [(2, false, f64_of_int 1, f64_of_int 1001);
            (1, false, f64_of_int 2, f64_of_int 1002)]))
    1 false (f64_of_int 1) (f64_of_int 1003)
  = (Some true,
     after_assignments [true; false]
       ([(1, true, f64_of_decimal 13 10, f64_of_int 1000)]
        ++ [(2, false, f64_of_int 1, f64_of_int 1001);
            (1, false, f64_of_int 2, f64_of_int 1002)])).
Proof.
  apply (ghost_assignment_is_permanent [true; false]
           [(1, true, f64_of_decimal 13 10, f64_of_int 1000)]
           [(2, false, f64_of_int 1, f64_of_int 1001);
            (1, false, f64_of_int 2, f64_of_int 1002)]
           1 true false (f64_of_int 1) (f64_of_int 1003)).
  reflexivity.
Defined.

Lemma get_current_opacity_returns_witness :
  exists opacity,
    get_current_opacity (fun x => x)
      (after_assignments [tt] [(1, tt, f64_of_decimal 13 10, f64_of_int 1000)])
      (f64_of_int 1001) 1
    = (Returns opacity,
       after_assignments [tt] [(1, tt, f64_of_decimal 13 10, f64_of_int 1000)]).
Proof.
  apply (get_current_opacity_returns (fun x => x) [tt]
           [(1, tt, f64_of_decimal 13 10, f64_of_int 1000)] (f64_of_int 1001) 1).
  repeat constructor.
Defined.

(** ** Bat particles *)

Section ParticleFacts.
Variable pointPolygonTest : list point -> pynum -> pynum -> outcome spec_float.
Variable moments : list point -> spec_float * spec_float * spec_float.
Variable float_pow2 : spec_float -> outcome spec_float.

Lemma bind_returns {A B : Type} (e : outcome A) (f : A -> outcome B) (b : B) :
  bind e f = Returns b -> exists a, e = Returns a /\ f a = Returns b.
Proof. destruct e as [a|msg]; [|discriminate]. intros H. now exists a. Qed.

(** A collision changes the velocity and the hit state, nothing else. *)
Lemma check_collisions_frame (person_contours : list (list point)) (self s : Particle.t)
    (bounce_multiplier : spec_float) :
  Particle.check_collisions pointPolygonTest moments float_pow2 self person_contours
    bounce_multiplier = Returns s ->
  Particle.x s = Particle.x self /\ Particle.y s = Particle.y self /\
  Particle.screen_width s = Particle.screen_width self /\
  Particle.screen_height s = Particle.screen_height self /\
  (s = self \/ Particle.was_hit s = true /\ Particle.hit_frames_ago s = 0).
Proof.
  induction person_contours as [|contour rest IH]; cbn [Particle.check_collisions].
  - intros [= <-]. repeat split; auto.
  - intros H. apply bind_returns in H as (inside & _ & H).
    destruct (py_ge (PyFloat inside) 0); [|now apply IH].
    destruct (moments contour) as [[m00 m10] m01].
    destruct (py_gt (PyFloat m00) 0); [|now apply IH].
    apply bind_returns in H as (cx & _ & H). apply bind_returns in H as (cy & _ & H).
    apply bind_returns in H as (dx & _ & H). apply bind_returns in H as (dy & _ & H).
    apply bind_returns in H as (dx2 & _ & H). apply bind_returns in H as (dy2 & _ & H).
    apply bind_returns in H as (sum & _ & H). apply bind_returns in H as (distance & _ & H).
    destruct (py_gt (PyFloat distance) 0); [|now apply IH].
    apply bind_returns in H as (dx' & _ & H). apply bind_returns in H as (dy' & _ & H).
    apply bind_returns in H as (current_speed & _ & H).
    injection H as <-. cbn. repeat split; auto.
Qed.

Lemma float_cmp_int_cases (f : spec_float) (n : Z) :
  f = S754_nan \/ exists c, float_cmp_int f n = Some c.
Proof. destruct f; cbn; eauto. Qed.

(** Whatever comes out of the edge test is on the screen, or not a
    number. *)
Lemma on_screen_intro (limit : Z) (pos : pynum) :
  py_le pos 0 = false -> py_ge pos limit = false -> Particle.on_screen limit pos.
Proof.
  unfold Particle.on_screen, py_le, py_ge.
  destruct pos as [n|[s|s| |s m e]]; cbn [py_cmp_int float_cmp_int]; try exact (fun _ _ => I).
  - destruct (n ?= 0), (n ?= limit); intros H1 H2; try discriminate; auto.
  - rewrite Z.compare_refl. discriminate.
  - destruct s; discriminate.
  - destruct (if 0 <=? e then _ else _), (if 0 <=? e then _ else _); intros H1 H2;
      try discriminate; auto.
Qed.

Lemma on_screen_inside (limit : Z) (pos : pynum) :
  py_gt pos 0 = true -> py_lt pos limit = true -> Particle.on_screen limit pos.
Proof.
  unfold Particle.on_screen, py_gt, py_lt, py_ge, py_le.
  destruct pos as [n|[s|s| |s m e]]; cbn [py_cmp_int float_cmp_int]; try exact (fun _ _ => I).
  - destruct (n ?= 0), (n ?= limit); intros H1 H2; try discriminate; auto.
  - rewrite Z.compare_refl. discriminate.
  - destruct s; discriminate.
  - destruct (if 0 <=? e then _ else _), (if 0 <=? e then _ else _); intros H1 H2;
      try discriminate; auto.
Qed.

(** Whatever comes out of the edge test is on the screen, or not a
    number. *)
Lemma bounce_on_screen (limit : Z) (pos : pynum) (v : spec_float) :
  0 <= limit -> Particle.on_screen limit (Particle.bounce limit pos v).1.
Proof.
  intros Hlimit. unfold Particle.bounce.
  assert (Hzero : Particle.on_screen limit (PyInt 0)).
  { split; [reflexivity|]. unfold py_le, py_cmp_int.
    destruct (Z.compare_spec 0 limit); [reflexivity|reflexivity|lia]. }
  assert (Hedge : Particle.on_screen limit (PyInt limit)).
  { split; unfold py_ge, py_le, py_cmp_int; [|now rewrite Z.compare_refl].
    destruct (Z.compare_spec limit 0); [reflexivity|lia|reflexivity]. }
  destruct (py_le pos 0 || py_ge pos limit) eqn:Hout; cbn [fst].
  - unfold clamp_to_screen.
    destruct (py_lt pos limit) eqn:Hlt.
    + destruct (py_gt pos 0) eqn:Hgt; [now apply on_screen_inside|exact Hzero].
    + destruct (py_gt (PyInt limit) 0); [exact Hedge|exact Hzero].
  - apply orb_false_iff in Hout as [Hle Hge]. now apply on_screen_intro.
Qed.

(** What [update] returns, field by field. *)
Lemma update_returns (self p : Particle.t) (person_contours : list (list point))
    (speed_decay min_speed bounce_multiplier : spec_float) :
  Particle.update pointPolygonTest moments float_pow2 self person_contours
    speed_decay min_speed bounce_multiplier = Returns p ->
  exists (s : Particle.t) (x1 y1 : pynum),
    Particle.check_collisions pointPolygonTest moments float_pow2 self person_contours
      bounce_multiplier = Returns s /\
    Particle.x p = (Particle.bounce (Particle.screen_width s) x1 (Particle.vx s)).1 /\
    Particle.y p = (Particle.bounce (Particle.screen_height s) y1 (Particle.vy s)).1 /\
    Particle.screen_width p = Particle.screen_width s /\
    Particle.screen_height p = Particle.screen_height s /\
    (Particle.was_hit p, Particle.hit_frames_ago p)
    = Particle.hit_state (Particle.was_hit s) (Particle.hit_frames_ago s).
Proof.
  unfold Particle.update. intros H.
  apply bind_returns in H as (s & Hs & H).
  apply bind_returns in H as (x1 & _ & H). apply bind_returns in H as (y1 & _ & H).
  exists s, x1, y1. split; [exact Hs|].
  destruct (Particle.bounce (Particle.screen_width s) x1 (Particle.vx s)) as [x' vx'].
  destruct (Particle.bounce (Particle.screen_height s) y1 (Particle.vy s)) as [y' vy'].
  apply bind_returns in H as (v & _ & H).
  destruct (Particle.hit_state (Particle.was_hit s) (Particle.hit_frames_ago s))
    as [was_hit' hit_frames_ago'].
  injection H as <-. cbn. repeat split; reflexivity.
Qed.

(** Bats stay on the screen: after every [update] that returns, each
    coordinate of the particle is a number between 0 and the screen edge
    (both included) or NaN, whatever the contours, the velocity and the
    position before; the screen size is unchanged. *)
Theorem particle_update_on_screen (self p : Particle.t)
    (person_contours : list (list point))
    (speed_decay min_speed bounce_multiplier : spec_float) :
  0 <= Particle.screen_width self -> 0 <= Particle.screen_height self ->
  Particle.update pointPolygonTest moments float_pow2 self person_contours
    speed_decay min_speed bounce_multiplier = Returns p ->
  Particle.on_screen (Particle.screen_width self) (Particle.x p) /\
  Particle.on_screen (Particle.screen_height self) (Particle.y p) /\
  Particle.screen_width p = Particle.screen_width self /\
  Particle.screen_height p = Particle.screen_height self.
Proof.
  intros Hw Hh Hp.
  apply update_returns in Hp as (s & x1 & y1 & Hs & Hx & Hy & Hsw & Hsh & _).
  apply check_collisions_frame in Hs as (_ & _ & Hw' & Hh' & _).
  rewrite Hx, Hy, Hsw, Hsh, Hw', Hh'.
  split; [now apply bounce_on_screen|]. split; [now apply bounce_on_screen|]. now split.
Qed.

(** The hit flag and its counter stay in step: when the particle's
    [hit_frames_ago] is 0 with the flag down, or between 0 and 5 with the
    flag up, then after [update] it is between 1 and 5 with the flag up,
    or 0 with the flag down. *)
Theorem particle_update_hit_state (self p : Particle.t)
    (person_contours : list (list point))
    (speed_decay min_speed bounce_multiplier : spec_float) :
  Particle.hit_state_ok self ->
  Particle.update pointPolygonTest moments float_pow2 self person_contours
    speed_decay min_speed bounce_multiplier = Returns p ->
  Particle.hit_state_ok p /\ (Particle.was_hit p = true -> 1 <= Particle.hit_frames_ago p).
Proof.
  intros Hok Hp.
  apply update_returns in Hp as (s & x1 & y1 & Hs & _ & _ & _ & _ & Hhit).
  apply check_collisions_frame in Hs as (_ & _ & _ & _ & Hs).
  assert (Hok' : Particle.hit_state_ok s).
  { destruct Hs as [->|[Hh Hz]]; [exact Hok|].
    unfold Particle.hit_state_ok. rewrite Hh, Hz. lia. }
  unfold Particle.hit_state_ok in *. unfold Particle.hit_state in Hhit.
  destruct (Particle.was_hit s).
  - destruct (Z.ltb_spec 5 (Particle.hit_frames_ago s + 1)); injection Hhit as -> ->.
    + split; [reflexivity|discriminate].
    + split; intros; lia.
  - injection Hhit as -> ->. split; [exact Hok'|discriminate].
Qed.
End ParticleFacts.

Lemma particle_update_on_screen_witness :
  Particle.on_screen 640 (PyInt 640) /\ Particle.on_screen 480 (PyInt 0) /\
  640 = 640 /\ 480 = 480.
Proof.
  apply (particle_update_on_screen
           (fun _ _ _ => Returns (f64_of_int (-1))) polygon_moments
           (fun v => Returns (f64_mul v v))
           (Particle.Build (PyInt 639) (PyInt 1) 640 480 (f64_of_int 3) (f64_of_int (-2))
              false 0)
           (Particle.Build (PyInt 640) (PyInt 0) 640 480
              (S754_finite true 6620291452234629 (-51))
              (S754_finite false 8827055269646172 (-52)) false 0)
           [] (f64_of_decimal 98 100) (f64_of_decimal 1 10) (f64_of_decimal 15 10)).
  - cbn. lia.
  - cbn. lia.
  - vm_compute. reflexivity.
Defined.

Lemma particle_update_hit_state_witness :
  Particle.hit_state_ok
    (Particle.Build (PyFloat (S754_finite false 5611000899509915 (-43))) (PyInt 0) 640 480
       (S754_finite true 4967701340670582 (-52))
       (S754_finite false 5961241608804699 (-50)) true 1) /\
  (true = true -> 1 <= 1).
Proof.
  apply (particle_update_hit_state
           (fun _ _ _ => Returns (f64_of_int 1)) polygon_moments
           (fun v => Returns (f64_mul v v))
           (Particle.Build (PyInt 639) (PyInt 1) 640 480 (f64_of_int 3) (f64_of_int (-2))
              false 0)
           (Particle.Build (PyFloat (S754_finite false 5611000899509915 (-43))) (PyInt 0)
              640 480
              (S754_finite true 4967701340670582 (-52))
              (S754_finite false 5961241608804699 (-50)) true 1)
           [square 600 0] (f64_of_decimal 98 100) (f64_of_decimal 1 10)
           (f64_of_decimal 15 10)).
  - reflexivity.
  - vm_compute. reflexivity.
Defined.

(** ** Identity tracker: the distances as the code computes them *)

Lemma track_people_np_eq_witness :
  track_people_np (tracker_after [[mk 100 100; mk 300 200]]) [mk 160 180; mk 310 205]
  = track_people (tracker_after [[mk 100 100; mk 300 200]]) [mk 160 180; mk 310 205].
Proof.
  apply (track_people_np_eq (tracker_after [[mk 100 100; mk 300 200]])
           [mk 160 180; mk 310 205]).
  - repeat constructor; cbn; lia.
  - repeat constructor; cbn; lia.
Defined.

(** * Part IV: rounding, and what follows from it *)

(** ** Rounding to nearest, on fractions *)

Lemma RNE_cases (N D : Z) :
  0 < D ->
  (RNE N D = N / D /\ 2 * (N mod D) <= D) \/
  (RNE N D = N / D + 1 /\ D <= 2 * (N mod D)).
Proof.
  intros HD. unfold RNE, loc_of.
  pose proof (Z.mod_pos_bound N D HD) as Hr.
  destruct (Z.eqb_spec (N mod D) 0) as [E|E]; cbn [round_nearest_even].
  - left. split; [reflexivity|lia].
  - destruct (Z.compare_spec (2 * (N mod D)) D) as [C|C|C].
    + destruct (Z.even (N / D)); [left|right]; split; (reflexivity || lia).
    + left. split; [reflexivity|lia].
    + right. split; [reflexivity|lia].
Qed.

Lemma RNE_exact (K D : Z) : 0 < D -> RNE (K * D) D = K.
Proof.
  intros HD. unfold RNE, loc_of. rewrite Z.mod_mul, Z.div_mul by lia. reflexivity.
Qed.

Lemma RNE_le_int (N D K : Z) : 0 < D -> N <= K * D -> RNE N D <= K.
Proof.
  intros HD HN. pose proof (Z.mod_pos_bound N D HD) as Hr.
  pose proof (Z.div_mod N D ltac:(lia)) as Hdm.
  assert (Hq : N / D <= K) by (apply Z.div_le_upper_bound; lia).
  destruct (RNE_cases N D HD) as [[-> _]|[-> H2]]; [exact Hq|].
  destruct (Z.eq_dec (N / D) K) as [E|E]; [|lia].
  rewrite E in Hdm. nia.
Qed.

Lemma RNE_ge_int (N D K : Z) : 0 < D -> K * D <= N -> K <= RNE N D.
Proof.
  intros HD HN.
  assert (Hq : K <= N / D) by (apply Z.div_le_lower_bound; lia).
  destruct (RNE_cases N D HD) as [[-> _]|[-> _]]; lia.
Qed.

Lemma div_le_cross (N D N' D' : Z) :
  0 < D -> 0 < D' -> N * D' <= N' * D -> N / D <= N' / D'.
Proof.
  intros HD HD' Hle.
  pose proof (Z.mod_pos_bound N D HD) as Hr.
  pose proof (Z.mod_pos_bound N' D' HD') as Hr'.
  pose proof (Z.div_mod N D ltac:(lia)) as Hdm.
  pose proof (Z.div_mod N' D' ltac:(lia)) as Hdm'.
  set (q := N / D) in *. set (r := N mod D) in *.
  set (q' := N' / D') in *. set (r' := N' mod D') in *.
  destruct (Z_le_gt_dec q q') as [|Hgt]; [assumption|exfalso].
  assert (q' + 1 <= q) by lia.
  assert (N' * D < (q' + 1) * D' * D) by nia.
  assert ((q' + 1) * D' * D <= q * D * D') by nia.
  assert (q * D * D' <= N * D') by nia. lia.
Qed.

Lemma RNE_mono (N D N' D' : Z) :
  0 < D -> 0 < D' -> N * D' <= N' * D -> RNE N D <= RNE N' D'.
Proof.
  intros HD HD' Hle.
  pose proof (div_le_cross N D N' D' HD HD' Hle) as Hq.
  pose proof (Z.mod_pos_bound N D HD) as Hr.
  pose proof (Z.mod_pos_bound N' D' HD') as Hr'.
  pose proof (Z.div_mod N D ltac:(lia)) as Hdm.
  pose proof (Z.div_mod N' D' ltac:(lia)) as Hdm'.
  set (q := N / D) in *. set (r := N mod D) in *.
  set (q' := N' / D') in *. set (r' := N' mod D') in *.
  destruct (Z.eq_dec q q') as [E|E].
  2:{ destruct (RNE_cases N D HD) as [[-> _]|[-> _]];
      destruct (RNE_cases N' D' HD') as [[-> _]|[-> _]]; fold q q'; lia. }
  assert (Hrr : r * D' <= r' * D) by nia.
  unfold RNE, loc_of. fold q q' r r'. rewrite <- E.
  destruct (Z.eqb_spec r 0) as [Z0|NZ]; cbn [round_nearest_even].
  - destruct (r' =? 0); cbn [round_nearest_even]; [lia|].
    destruct (2 * r' ?= D'); [destruct (Z.even q)|..]; lia.
  - destruct (Z.eqb_spec r' 0) as [Z0'|NZ']; [nia|].
    cbn [round_nearest_even].
    destruct (Z.compare_spec (2 * r) D) as [C|C|C];
      destruct (Z.compare_spec (2 * r') D') as [C'|C'|C']; try (destruct (Z.even q)); try lia;
      exfalso; nia.
Qed.

Lemma RNE_nonneg (N D : Z) : 0 < D -> 0 <= N -> 0 <= RNE N D.
Proof. intros HD HN. apply (RNE_ge_int N D 0); lia. Qed.

Lemma RNE_scale (N D N' D' : Z) :
  0 < D -> 0 < D' -> N * D' = N' * D -> RNE N D = RNE N' D'.
Proof.
  intros HD HD' E. apply Z.le_antisymm; apply RNE_mono; lia.
Qed.

(** *** Shifting bits out *)

Lemma loc_of_shr_record_of_loc (m : Z) (l : location) :
  loc_of_shr_record (shr_record_of_loc m l) = l.
Proof. destruct l as [|[]]; reflexivity. Qed.

Lemma shr_m_of_loc (m : Z) (l : location) : shr_m (shr_record_of_loc m l) = m.
Proof. destruct l as [|[]]; reflexivity. Qed.

Lemma shr_1_spec (N D : Z) :
  0 <= N -> 0 < D ->
  shr_1 (shr_record_of_loc (N / D) (loc_of N D))
  = shr_record_of_loc (N / (2 * D)) (loc_of N (2 * D)).
Proof.
  intros HN HD.
  pose proof (Z.mod_pos_bound N D HD) as Hr.
  assert (Hq : 0 <= N / D) by (apply Z.div_pos; lia).
  assert (Hdiv : N / (2 * D) = N / D / 2) by (rewrite (Z.mul_comm 2 D), Z.div_div; lia).
  assert (Hmod : N mod (2 * D) = N mod D + D * ((N / D) mod 2)).
  { rewrite (Z.mul_comm 2 D). apply Z.rem_mul_r; lia. }
  unfold loc_of at 2. rewrite Hdiv, Hmod.
  unfold loc_of.
  destruct (N / D) as [|q|q] eqn:Eq; [| |lia]; clear Hq.
  - change (0 mod 2) with 0. change (0 / 2) with 0. rewrite Z.mul_0_r, Z.add_0_r.
    destruct (Z.eqb_spec (N mod D) 0) as [E|E]; [reflexivity|].
    destruct (Z.compare_spec (2 * (N mod D)) D) as [C|C|C];
      destruct (Z.compare_spec (2 * (N mod D)) (2 * D)) as [C'|C'|C']; try lia; reflexivity.
  - destruct q as [q|q|].
    + assert (E2 : Z.pos q~1 mod 2 = 1).
      { rewrite Pos2Z.inj_xI, Z.add_comm, Z.mul_comm, Z.mod_add by lia. reflexivity. }
      assert (E3 : Z.pos q~1 / 2 = Z.pos q).
      { rewrite Pos2Z.inj_xI. rewrite Z.add_comm, Z.mul_comm, Z.div_add by lia. reflexivity. }
      rewrite E2, E3, Z.mul_1_r.
      destruct (Z.eqb_spec (N mod D + D) 0) as [E|E]; [lia|].
      destruct (Z.eqb_spec (N mod D) 0) as [E0|E0].
      * rewrite E0. cbn [Z.add]. rewrite Z.compare_refl. reflexivity.
      * destruct (Z.compare_spec (2 * (N mod D + D)) (2 * D)) as [C'|C'|C']; try lia.
        destruct (Z.compare_spec (2 * (N mod D)) D) as [C|C|C]; reflexivity.
    + assert (E2 : Z.pos q~0 mod 2 = 0).
      { rewrite Pos2Z.inj_xO, Z.mul_comm, Z.mod_mul by lia. reflexivity. }
      assert (E3 : Z.pos q~0 / 2 = Z.pos q).
      { rewrite Pos2Z.inj_xO, Z.mul_comm, Z.div_mul by lia. reflexivity. }
      rewrite E2, E3, Z.mul_0_r, Z.add_0_r.
      destruct (Z.eqb_spec (N mod D) 0) as [E0|E0]; [reflexivity|].
      destruct (Z.compare_spec (2 * (N mod D)) (2 * D)) as [C'|C'|C']; try lia.
      destruct (Z.compare_spec (2 * (N mod D)) D) as [C|C|C]; reflexivity.
    + change (1 mod 2) with 1. change (1 / 2) with 0. rewrite Z.mul_1_r.
      destruct (Z.eqb_spec (N mod D + D) 0) as [E|E]; [lia|].
      destruct (Z.eqb_spec (N mod D) 0) as [E0|E0].
      * rewrite E0. cbn [Z.add]. rewrite Z.compare_refl. reflexivity.
      * destruct (Z.compare_spec (2 * (N mod D + D)) (2 * D)) as [C'|C'|C']; try lia.
        destruct (Z.compare_spec (2 * (N mod D)) D) as [C|C|C]; reflexivity.
Qed.

Lemma shr_iter_spec (n : nat) (N D : Z) :
  0 <= N -> 0 < D ->
  Nat.iter n shr_1 (shr_record_of_loc (N / D) (loc_of N D))
  = shr_record_of_loc (N / (D * 2 ^ Z.of_nat n)) (loc_of N (D * 2 ^ Z.of_nat n)).
Proof.
  intros HN HD. induction n as [|n IH].
  - change (Z.of_nat 0) with 0. rewrite Z.pow_0_r, Z.mul_1_r. reflexivity.
  - rewrite Nat.iter_succ, IH.
    assert (0 < 2 ^ Z.of_nat n) by (apply Z.pow_pos_nonneg; lia).
    rewrite shr_1_spec by nia.
    rewrite Nat2Z.inj_succ, Z.pow_succ_r by lia.
    replace (2 * (D * 2 ^ Z.of_nat n)) with (D * (2 * 2 ^ Z.of_nat n)) by lia.
    reflexivity.
Qed.

Lemma shr_spec (N D e n : Z) :
  0 <= N -> 0 < D -> 0 <= n ->
  shr (shr_record_of_loc (N / D) (loc_of N D)) e n
  = (shr_record_of_loc (N / (D * 2 ^ n)) (loc_of N (D * 2 ^ n)), e + n).
Proof.
  intros HN HD Hn. destruct n as [|p|p]; [| |lia].
  - cbn [shr]. now rewrite Z.pow_0_r, Z.mul_1_r, Z.add_0_r.
  - cbn [shr]. rewrite iter_pos_nat, shr_iter_spec by assumption.
    now rewrite positive_nat_Z.
Qed.

(** *** Digits *)

Lemma Zdigits2_nonneg (k : Z) : 0 <= Zdigits2 k.
Proof. destruct k; cbn [Zdigits2]; lia. Qed.

Lemma Zdigits2_bounds (k : Z) :
  0 < k -> 2 ^ (Zdigits2 k - 1) <= k < 2 ^ Zdigits2 k.
Proof. destruct k as [|p|p]; try lia. intros _. apply digits2_pos_bounds. Qed.

Lemma Zdigits2_unique (k d : Z) : 2 ^ (d - 1) <= k < 2 ^ d -> 0 < k -> Zdigits2 k = d.
Proof. destruct k as [|p|p]; try lia. intros H _. now apply digits2_pos_unique. Qed.

Lemma Zdigits2_le (k j : Z) : 0 <= j -> 0 <= k < 2 ^ j -> Zdigits2 k <= j.
Proof.
  intros Hj [Hk Hlt]. destruct (Z.eq_dec k 0) as [->|Hne]; [cbn; lia|].
  pose proof (Zdigits2_bounds k ltac:(lia)) as [Hlo _].
  destruct (Z_le_gt_dec (Zdigits2 k) j) as [|Hgt]; [assumption|exfalso].
  assert (2 ^ j <= 2 ^ (Zdigits2 k - 1)) by (apply Z.pow_le_mono_r; lia). lia.
Qed.

Lemma Zdigits2_ge (k j : Z) : 0 <= j -> 2 ^ j <= k -> j + 1 <= Zdigits2 k.
Proof.
  intros Hj Hle.
  assert (0 < 2 ^ j) by (apply Z.pow_pos_nonneg; lia).
  pose proof (Zdigits2_bounds k ltac:(lia)) as [_ Hhi].
  destruct (Z_le_gt_dec (j + 1) (Zdigits2 k)) as [|Hgt]; [assumption|exfalso].
  assert (2 ^ Zdigits2 k <= 2 ^ j) by (apply Z.pow_le_mono_r; [lia|lia]). lia.
Qed.

Lemma Zdigits2_mono (k k' : Z) : 0 <= k <= k' -> Zdigits2 k <= Zdigits2 k'.
Proof.
  intros [Hk Hle]. destruct (Z.eq_dec k 0) as [->|Hne]; [apply Zdigits2_nonneg|].
  pose proof (Zdigits2_bounds k ltac:(lia)) as [Hlo _].
  pose proof (Zdigits2_bounds k' ltac:(lia)) as [_ Hhi'].
  pose proof (Zdigits2_nonneg k').
  destruct (Z_le_gt_dec (Zdigits2 k) (Zdigits2 k')) as [|Hgt]; [assumption|exfalso].
  assert (2 ^ Zdigits2 k' <= 2 ^ (Zdigits2 k - 1)) by (apply Z.pow_le_mono_r; lia). lia.
Qed.



Lemma pow2_pos (j : Z) : 0 <= j -> 0 < 2 ^ j.
Proof. intros. apply Z.pow_pos_nonneg; lia. Qed.

Lemma pow2_split (a b : Z) : 0 <= b <= a -> 2 ^ a = 2 ^ (a - b) * 2 ^ b.
Proof. intros H. rewrite <- Z.pow_add_r by lia. f_equal. lia. Qed.

Lemma div_lt_cross (N D B : Z) : 0 < D -> N / D < B -> N < B * D.
Proof.
  intros HD H. pose proof (Z.mod_pos_bound N D HD).
  pose proof (Z.div_mod N D ltac:(lia)). nia.
Qed.

Lemma div_ge_cross (N D B : Z) : 0 < D -> B <= N / D -> B * D <= N.
Proof.
  intros HD H. pose proof (Z.mod_pos_bound N D HD).
  pose proof (Z.div_mod N D ltac:(lia)). nia.
Qed.



Lemma pow2_add (a b : Z) : 0 <= a -> 0 <= b -> 2 ^ (a + b) = 2 ^ a * 2 ^ b.
Proof. intros. apply Z.pow_add_r; lia. Qed.





Lemma new_location_loc_of (N D : Z) : 0 < D -> new_location D (N mod D) = loc_of N D.
Proof.
  intros HD. pose proof (Z.mod_pos_bound N D HD) as Hr.
  unfold new_location, new_location_even, new_location_odd, loc_of.
  destruct (Z.even D) eqn:Ev; [reflexivity|].
  destruct (Z.eqb_spec (N mod D) 0) as [E|NE]; [reflexivity|].
  f_equal.
  assert (Hodd : Z.odd D = true) by (rewrite <- Z.negb_even, Ev; reflexivity).
  apply Z.odd_spec in Hodd as [c Hc].
  destruct (Z.compare_spec (2 * (N mod D) + 1) D) as [C|C|C];
    destruct (Z.compare_spec (2 * (N mod D)) D) as [C'|C'|C']; try reflexivity; lia.
Qed.

Section Rounding.
Variable prec : Z.
Hypothesis Hprec : 0 < prec.

Lemma grid_nonneg (k : Z) : 0 <= grid prec k.
Proof using Hprec. unfold grid. lia. Qed.

Lemma grid_cases (k : Z) :
  0 <= k ->
  (grid prec k = 0 /\ k < 2 ^ prec) \/
  (0 < grid prec k /\ 2 ^ (prec + grid prec k - 1) <= k < 2 ^ (prec + grid prec k)).
Proof using Hprec.
  intros Hk. unfold grid.
  destruct (Z.eq_dec k 0) as [->|Hne].
  { left. cbn [Zdigits2]. split; [lia|]. apply Z.pow_pos_nonneg; lia. }
  pose proof (Zdigits2_bounds k ltac:(lia)) as [Hlo Hhi].
  destruct (Z_le_gt_dec (Zdigits2 k) prec) as [Hle|Hgt].
  - left. split; [lia|].
    assert (2 ^ Zdigits2 k <= 2 ^ prec) by (apply Z.pow_le_mono_r; lia). lia.
  - right. rewrite Z.max_r by lia.
    replace (prec + (Zdigits2 k - prec)) with (Zdigits2 k) by lia. lia.
Qed.

Lemma grid_small (k : Z) : 0 <= k < 2 ^ prec -> grid prec k = 0.
Proof using Hprec.
  intros Hk. unfold grid. pose proof (Zdigits2_le k prec ltac:(lia) Hk). lia.
Qed.

Lemma grid_big (k g : Z) :
  0 < g -> 2 ^ (prec + g - 1) <= k < 2 ^ (prec + g) -> grid prec k = g.
Proof using Hprec.
  intros Hg Hk. unfold grid.
  assert (0 < 2 ^ (prec + g - 1)) by (apply Z.pow_pos_nonneg; lia).
  rewrite (Zdigits2_unique k (prec + g)) by lia. lia.
Qed.

Lemma grid_mono (k k' : Z) : 0 <= k <= k' -> grid prec k <= grid prec k'.
Proof using Hprec. intros H. unfold grid. pose proof (Zdigits2_mono k k' H). lia. Qed.


(** What the rounded mantissa looks like. *)
Lemma Rnd_shape (P Q : Z) :
  0 <= P -> 0 < Q ->
  let g := grid prec (P / Q) in
  let R := RNE P (Q * 2 ^ g) in
  0 <= R <= 2 ^ prec /\ (0 < g -> 2 ^ (prec - 1) <= R).
Proof using Hprec.
  intros HP HQ g R.
  assert (Hk : 0 <= P / Q) by (apply Z.div_pos; lia).
  pose proof (grid_nonneg (P / Q)) as Hg. fold g in Hg.
  pose proof (pow2_pos g Hg) as H2g.
  assert (HD : 0 < Q * 2 ^ g) by nia.
  pose proof (grid_cases (P / Q) Hk) as Hc. fold g in Hc.
  destruct Hc as [[Hg0 Hlt]|[Hgpos [Hlo Hhi]]].
  - split; [|lia]. split; [apply RNE_nonneg; lia|].
    apply RNE_le_int; [lia|]. rewrite Hg0, Z.pow_0_r, Z.mul_1_r.
    pose proof (div_lt_cross P Q (2 ^ prec) HQ Hlt). lia.
  - assert (E1 : 2 ^ (prec + g) = 2 ^ prec * 2 ^ g) by (apply Z.pow_add_r; lia).
    assert (E2 : 2 ^ (prec + g - 1) = 2 ^ (prec - 1) * 2 ^ g).
    { rewrite <- Z.pow_add_r by lia. f_equal. lia. }
    pose proof (div_lt_cross P Q _ HQ Hhi) as Hup.
    pose proof (div_ge_cross P Q _ HQ Hlo) as Hdn.
    assert (Hlow : 2 ^ (prec - 1) <= R) by (apply RNE_ge_int; [lia|nia]).
    pose proof (pow2_pos (prec - 1) ltac:(lia)).
    split; [split; [lia|]|intros _; exact Hlow].
    apply RNE_le_int; [lia|nia].
Qed.

Lemma Rnd_nonneg (P Q : Z) : 0 <= P -> 0 < Q -> 0 <= Rnd prec P Q.
Proof using Hprec.
  intros HP HQ. unfold Rnd.
  pose proof (grid_nonneg (P / Q)) as Hg.
  pose proof (pow2_pos _ Hg).
  pose proof (RNE_nonneg P (Q * 2 ^ grid prec (P / Q)) ltac:(nia) HP). nia.
Qed.

(** Rounding is monotone. *)
Lemma Rnd_mono (P Q P' Q' : Z) :
  0 <= P -> 0 < Q -> 0 < Q' -> P * Q' <= P' * Q -> Rnd prec P Q <= Rnd prec P' Q'.
Proof using Hprec.
  intros HP HQ HQ' Hle.
  assert (HP' : 0 <= P') by nia.
  pose proof (div_le_cross P Q P' Q' HQ HQ' Hle) as Hkk.
  assert (Hk : 0 <= P / Q) by (apply Z.div_pos; lia).
  assert (Hk' : 0 <= P' / Q') by (apply Z.div_pos; lia).
  pose proof (grid_mono (P / Q) (P' / Q') ltac:(lia)) as Hgg.
  unfold Rnd.
  set (g := grid prec (P / Q)) in *. set (g' := grid prec (P' / Q')) in *.
  pose proof (grid_nonneg (P / Q)) as Hg. fold g in Hg.
  pose proof (pow2_pos g Hg) as H2g.
  pose proof (pow2_pos g' ltac:(lia)) as H2g'.
  destruct (Z.eq_dec g g') as [E|NE].
  - rewrite <- E. apply Z.mul_le_mono_nonneg_r; [lia|].
    apply RNE_mono; nia.
  - assert (Hlt : g < g') by lia.
    pose proof (grid_cases (P' / Q') Hk') as Hc'. fold g' in Hc'.
    destruct Hc' as [[Hg0 _]|[_ [Hlo' _]]]; [lia|].
    set (B := 2 ^ (prec + g' - 1)) in *.
    assert (HB : B = 2 ^ (prec + g' - 1 - g) * 2 ^ g).
    { unfold B. rewrite <- Z.pow_add_r by lia. f_equal. lia. }
    assert (HB' : B = 2 ^ (prec - 1) * 2 ^ g').
    { unfold B. rewrite <- Z.pow_add_r by lia. f_equal. lia. }
    assert (HkB : P / Q < B).
    { pose proof (grid_cases (P / Q) Hk) as Hc. fold g in Hc.
      destruct Hc as [[_ Hs]|[_ [_ Hs]]].
      - assert (2 ^ prec <= B) by (apply Z.pow_le_mono_r; lia). lia.
      - assert (2 ^ (prec + g) <= B) by (apply Z.pow_le_mono_r; lia). lia. }
    pose proof (div_lt_cross P Q B HQ HkB) as Hup.
    pose proof (div_ge_cross P' Q' B HQ' Hlo') as Hdn.
    apply Z.le_trans with B.
    + rewrite HB at 1. apply Z.mul_le_mono_nonneg_r; [lia|].
      apply RNE_le_int; [nia|].
      replace (2 ^ (prec + g' - 1 - g) * (Q * 2 ^ g)) with (B * Q) by (rewrite HB; ring). lia.
    + rewrite HB' at 1. apply Z.mul_le_mono_nonneg_r; [lia|].
      apply RNE_ge_int; [nia|].
      replace (2 ^ (prec - 1) * (Q' * 2 ^ g')) with (B * Q') by (rewrite HB'; ring). lia.
Qed.

Lemma Rnd_scale (P Q P' Q' : Z) :
  0 <= P -> 0 < Q -> 0 < Q' -> P * Q' = P' * Q -> Rnd prec P Q = Rnd prec P' Q'.
Proof using Hprec.
  intros HP HQ HQ' E. assert (0 <= P') by nia.
  apply Z.le_antisymm; apply Rnd_mono; lia.
Qed.

(** A value that fits the mantissa is not changed. *)
Lemma Rnd_repr (K t Q : Z) :
  0 <= K < 2 ^ prec -> 0 <= t -> 0 < Q -> Rnd prec (K * 2 ^ t * Q) Q = K * 2 ^ t.
Proof using Hprec.
  intros HK Ht HQ. unfold Rnd. rewrite Z.div_mul by lia.
  pose proof (pow2_pos t Ht) as H2t.
  set (g := grid prec (K * 2 ^ t)).
  assert (Hg : 0 <= g <= t).
  { split; [apply grid_nonneg|]. unfold g, grid.
    assert (Zdigits2 (K * 2 ^ t) <= prec + t); [|lia].
    apply Zdigits2_le; [lia|]. rewrite Z.pow_add_r by lia. nia. }
  pose proof (pow2_pos g ltac:(lia)) as H2g.
  rewrite (pow2_split t g) at 1 by lia.
  replace (K * (2 ^ (t - g) * 2 ^ g) * Q) with (K * 2 ^ (t - g) * (Q * 2 ^ g)) by lia.
  rewrite RNE_exact by nia.
  rewrite <- Z.mul_assoc, <- pow2_split by lia. reflexivity.
Qed.

Lemma Rnd_le_repr (P Q K t : Z) :
  0 <= P -> 0 < Q -> 0 <= K < 2 ^ prec -> 0 <= t -> P <= K * 2 ^ t * Q ->
  Rnd prec P Q <= K * 2 ^ t.
Proof using Hprec.
  intros HP HQ HK Ht Hle. rewrite <- (Rnd_repr K t Q) by assumption.
  apply Rnd_mono; try assumption. nia.
Qed.

Lemma Rnd_zero (Q : Z) : 0 < Q -> Rnd prec 0 Q = 0.
Proof using Hprec.
  intros HQ. pose proof (Rnd_repr 0 0 Q ltac:(pose proof (pow2_pos prec); lia) ltac:(lia) HQ) as H.
  exact H.
Qed.

(** The rounded value sits on its own grid. *)
Lemma Rnd_on_grid (P Q : Z) :
  0 <= P -> 0 < Q ->
  let g := grid prec (P / Q) in
  let R := RNE P (Q * 2 ^ g) in
  (R < 2 ^ prec /\ grid prec (Rnd prec P Q) = g \/ R = 0 /\ Rnd prec P Q = 0) \/
  (R = 2 ^ prec /\ grid prec (Rnd prec P Q) = g + 1).
Proof using Hprec.
  intros HP HQ g R.
  destruct (Rnd_shape P Q HP HQ) as [[HR0 HR1] HR2]. fold g R in HR0, HR1, HR2.
  pose proof (grid_nonneg (P / Q)) as Hg. fold g in Hg.
  pose proof (pow2_pos g Hg) as H2g.
  pose proof (pow2_pos prec ltac:(lia)) as H2p.
  change (Rnd prec P Q) with (R * 2 ^ g).
  destruct (Z.eq_dec R (2 ^ prec)) as [E|NE].
  - right. split; [exact E|]. rewrite E. apply grid_big; [lia|].
    replace (prec + (g + 1) - 1) with (prec + g) by lia.
    rewrite !Z.pow_add_r by lia. lia.
  - left. destruct (Z.eq_dec R 0) as [E0|NE0]; [right; split; [exact E0|rewrite E0; lia]|].
    left. split; [lia|].
    destruct (Z.eq_dec g 0) as [G0|GN].
    + rewrite G0, Z.pow_0_r, Z.mul_1_r. apply grid_small; lia.
    + apply grid_big; [lia|].
      specialize (HR2 ltac:(lia)).
      replace (prec + g - 1) with (prec - 1 + g) by lia.
      rewrite !Z.pow_add_r by lia. nia.
Qed.
End Rounding.

Section RoundedOps.
Variable prec : Z.
Hypothesis Hprec : 0 < prec.
Variable emax : Z.
Hypothesis Hemax : prec <= emax.
Hypothesis Hemax2 : 2 <= emax.

Lemma emin_nonpos : (emin prec emax) <= 0.
Proof using Hprec Hemax Hemax2. unfold emin. lia. Qed.

(** The exponent the first shift of [binary_round_aux] aims at is the one
    of the grid of the exact value. *)
Lemma fexp_grid (N D ex : Z) :
  0 <= N -> 0 < D ->
  ex <= (emin prec emax) + grid prec (N * 2 ^ Z.max 0 (ex - emin prec emax) / (D * 2 ^ Z.max 0 (emin prec emax - ex))) ->
  fexp prec emax (Zdigits2 (N / D) + ex)
  = (emin prec emax) + grid prec (N * 2 ^ Z.max 0 (ex - emin prec emax) / (D * 2 ^ Z.max 0 (emin prec emax - ex))).
Proof using Hprec Hemax Hemax2.
  intros HN HD.
  assert (Hmx : 0 <= N / D) by (apply Z.div_pos; lia).
  pose proof (Z.mod_pos_bound N D HD) as Hr.
  pose proof (Z.div_mod N D ltac:(lia)) as Hdm.
  destruct (Z_le_gt_dec (emin prec emax) ex) as [Hge|Hlt].
  - (* the exponent is in range: the value has at least the digits of the quotient *)
    rewrite (Z.max_r 0 (ex - emin prec emax)), (Z.max_l 0 (emin prec emax - ex)) by lia.
    rewrite Z.pow_0_r, Z.mul_1_r.
    set (j := ex - emin prec emax). assert (Hj : 0 <= j) by (unfold j; lia).
    pose proof (pow2_pos j Hj) as H2j.
    set (k := N * 2 ^ j / D).
    destruct (Z.eq_dec (N / D) 0) as [E0|NE0].
    + assert (HND : N < D) by nia.
      assert (Hk : 0 <= k < 2 ^ j).
      { unfold k. split; [apply Z.div_pos; nia|]. apply Z.div_lt_upper_bound; nia. }
      pose proof (Zdigits2_le k j Hj Hk) as Hd.
      pose proof (Zdigits2_nonneg k).
      unfold grid. intros Hex.
      assert (j = 0) by lia.
      assert (k = 0) by (rewrite H0 in Hk; simpl in Hk; lia).
      rewrite E0, H1. cbn [Zdigits2]. unfold fexp. lia.
    + pose proof (Zdigits2_bounds (N / D) ltac:(lia)) as [Hlo Hhi].
      pose proof (Zdigits2_nonneg (N / D)).
      assert (Hdpos : 1 <= Zdigits2 (N / D)).
      { destruct (N / D); cbn [Zdigits2] in *; lia. }
      assert (Hd : Zdigits2 k = Zdigits2 (N / D) + j).
      { assert (Hk1 : N / D * 2 ^ j <= k) by (unfold k; apply Z.div_le_lower_bound; nia).
        assert (Hk2 : k < (N / D + 1) * 2 ^ j) by (unfold k; apply Z.div_lt_upper_bound; nia).
        apply Zdigits2_unique; [|nia].
        replace (Zdigits2 (N / D) + j - 1) with (Zdigits2 (N / D) - 1 + j) by lia.
        rewrite !pow2_add by lia. split; nia. }
      intros _. unfold grid, fexp. rewrite Hd. unfold j. lia.
  - (* the exponent is below the range: bits are dropped *)
    rewrite (Z.max_l 0 (ex - emin prec emax)), (Z.max_r 0 (emin prec emax - ex)) by lia.
    rewrite Z.pow_0_r, Z.mul_1_r.
    set (j := (emin prec emax) - ex). assert (Hj : 0 < j) by (unfold j; lia).
    pose proof (pow2_pos j ltac:(lia)) as H2j.
    rewrite <- Z.div_div by lia.
    intros _.
    destruct (Z_lt_le_dec (N / D) (2 ^ j)) as [Hs|Hb].
    + rewrite (Z.div_small (N / D)) by lia.
      pose proof (Zdigits2_le (N / D) j ltac:(lia) ltac:(lia)).
      unfold grid, fexp. cbn [Zdigits2]. unfold j in *. lia.
    + pose proof (Zdigits2_bounds (N / D) ltac:(lia)) as [Hlo Hhi].
      pose proof (Zdigits2_ge (N / D) j ltac:(lia) Hb) as Hdg.
      assert (Hd : Zdigits2 (N / D / 2 ^ j) = Zdigits2 (N / D) - j).
      { assert (E1 : 2 ^ Zdigits2 (N / D) = 2 ^ (Zdigits2 (N / D) - j) * 2 ^ j)
          by (apply pow2_split; lia).
        assert (E2 : 2 ^ (Zdigits2 (N / D) - 1) = 2 ^ (Zdigits2 (N / D) - j - 1) * 2 ^ j).
        { rewrite <- pow2_add by lia. f_equal. lia. }
        pose proof (pow2_pos (Zdigits2 (N / D) - j - 1) ltac:(lia)).
        assert (Hk1 : 2 ^ (Zdigits2 (N / D) - j - 1) <= N / D / 2 ^ j)
          by (apply Z.div_le_lower_bound; lia).
        assert (Hk2 : N / D / 2 ^ j < 2 ^ (Zdigits2 (N / D) - j))
          by (apply Z.div_lt_upper_bound; lia).
        apply Zdigits2_unique; lia. }
      unfold grid, fexp. rewrite Hd. unfold j. lia.
Qed.

(** The second shift of [binary_round_aux] renormalizes a carry. *)
Lemma second_shift (R g : Z) :
  0 <= R <= 2 ^ prec -> 0 <= g -> (0 < g -> 2 ^ (prec - 1) <= R) ->
  shr_fexp prec emax R (emin prec emax + g) loc_Exact
  = (shr_record_of_loc (R * 2 ^ g / 2 ^ grid prec (R * 2 ^ g)) loc_Exact,
     (emin prec emax) + grid prec (R * 2 ^ g)).
Proof using Hprec Hemax Hemax2.
  intros HR Hg Hnorm.
  pose proof (pow2_pos g Hg) as H2g.
  pose proof (pow2_pos prec ltac:(lia)) as H2p.
  unfold shr_fexp.
  destruct (Z.eq_dec R (2 ^ prec)) as [E|NE].
  - assert (Hd : Zdigits2 R = prec + 1).
    { apply Zdigits2_unique; [|lia]. rewrite E.
      replace (prec + 1 - 1) with prec by lia. rewrite pow2_add by lia. lia. }
    assert (Hgr : grid prec (R * 2 ^ g) = g + 1).
    { rewrite E. apply (grid_big prec Hprec); [lia|].
      replace (prec + (g + 1) - 1) with (prec + g) by lia.
      rewrite !pow2_add by lia. lia. }
    rewrite Hd, Hgr. unfold fexp.
    replace (Z.max (prec + 1 + (emin prec emax + g) - prec) (emin prec emax) - (emin prec emax + g)) with 1 by lia.
    replace (shr_record_of_loc R loc_Exact) with (shr_record_of_loc (R / 1) (loc_of R 1)).
    2:{ rewrite Z.div_1_r. unfold loc_of. rewrite Z.mod_1_r. reflexivity. }
    rewrite shr_spec by lia.
    assert (HR2 : R = 2 ^ (prec - 1) * 2).
    { rewrite E. replace prec with (prec - 1 + 1) at 1 by lia. rewrite pow2_add by lia. reflexivity. }
    change (1 * 2 ^ 1) with 2.
    assert (Hq : R / 2 = 2 ^ (prec - 1)) by (rewrite HR2; apply Z.div_mul; lia).
    assert (Hl : loc_of R 2 = loc_Exact).
    { unfold loc_of. rewrite HR2, Z.mod_mul by lia. reflexivity. }
    assert (Hu : R * 2 ^ g / 2 ^ (g + 1) = 2 ^ (prec - 1)).
    { rewrite pow2_add by lia. change (2 ^ 1) with 2. rewrite HR2.
      replace (2 ^ (prec - 1) * 2 * 2 ^ g) with (2 ^ (prec - 1) * (2 ^ g * 2)) by lia.
      apply Z.div_mul. lia. }
    rewrite Hq, Hl, Hu. f_equal. lia.
  - assert (Hlt : R < 2 ^ prec) by lia.
    pose proof (Zdigits2_le R prec ltac:(lia) ltac:(lia)) as Hd.
    assert (Hgr : grid prec (R * 2 ^ g) = g /\ R * 2 ^ g / 2 ^ g = R).
    { split; [|apply Z.div_mul; lia].
      destruct (Z.eq_dec g 0) as [G0|GN].
      - rewrite G0, Z.pow_0_r, Z.mul_1_r. apply (grid_small prec Hprec); lia.
      - specialize (Hnorm ltac:(lia)).
        apply (grid_big prec Hprec); [lia|].
        replace (prec + g - 1) with (prec - 1 + g) by lia.
        rewrite !pow2_add by lia. nia. }
    destruct Hgr as [Hg1 Hg2]. rewrite Hg1, Hg2.
    unfold fexp.
    destruct (Z.max (Zdigits2 R + (emin prec emax + g) - prec) (emin prec emax) - (emin prec emax + g)) as [|p|p] eqn:En;
      [reflexivity|lia|reflexivity].
Qed.

(** [binary_round_aux] on the quotient [N / D] and its location, with
    exponent [ex], is the rounding of the exact value
    [N / D * 2 ^ ex], provided the quotient was taken with enough bits. *)
Lemma binary_round_aux_Rnd (s : bool) (N D ex : Z) :
  0 <= N -> 0 < D ->
  ex <= (emin prec emax) + grid prec (N * 2 ^ Z.max 0 (ex - emin prec emax) / (D * 2 ^ Z.max 0 (emin prec emax - ex))) ->
  binary_round_aux prec emax s (N / D) ex (loc_of N D)
  = encode prec emax s (Rnd prec (N * 2 ^ Z.max 0 (ex - emin prec emax)) (D * 2 ^ Z.max 0 (emin prec emax - ex))).
Proof using Hprec Hemax Hemax2.
  intros HN HD Hex.
  pose proof (fexp_grid N D ex HN HD Hex) as Hfexp.
  set (P := N * 2 ^ Z.max 0 (ex - emin prec emax)) in *.
  set (Q := D * 2 ^ Z.max 0 (emin prec emax - ex)) in *.
  pose proof (pow2_pos (Z.max 0 (ex - emin prec emax)) ltac:(lia)) as H2a.
  pose proof (pow2_pos (Z.max 0 (emin prec emax - ex)) ltac:(lia)) as H2b.
  assert (HP : 0 <= P) by (unfold P; nia).
  assert (HQ : 0 < Q) by (unfold Q; nia).
  set (g := grid prec (P / Q)) in *.
  pose proof (grid_nonneg prec Hprec (P / Q)) as Hg. fold g in Hg.
  pose proof (pow2_pos g Hg) as H2g.
  set (n := (emin prec emax) + g - ex).
  pose proof (pow2_pos n ltac:(unfold n; lia)) as H2n.
  assert (Hfirst : shr_fexp prec emax (N / D) ex (loc_of N D)
                   = (shr_record_of_loc (N / (D * 2 ^ n)) (loc_of N (D * 2 ^ n)), (emin prec emax) + g)).
  { unfold shr_fexp. rewrite Hfexp. fold n. rewrite shr_spec by (unfold n; lia).
    f_equal. unfold n. lia. }
  unfold binary_round_aux. rewrite Hfirst.
  rewrite shr_m_of_loc, loc_of_shr_record_of_loc.
  change (round_nearest_even (N / (D * 2 ^ n)) (loc_of N (D * 2 ^ n))) with (RNE N (D * 2 ^ n)).
  assert (HR : RNE N (D * 2 ^ n) = RNE P (Q * 2 ^ g)).
  { apply RNE_scale; [nia|nia|]. unfold P, Q.
    replace (N * (D * 2 ^ Z.max 0 (emin prec emax - ex) * 2 ^ g))
      with (N * D * (2 ^ Z.max 0 (emin prec emax - ex) * 2 ^ g)) by ring.
    replace (N * 2 ^ Z.max 0 (ex - emin prec emax) * (D * 2 ^ n))
      with (N * D * (2 ^ Z.max 0 (ex - emin prec emax) * 2 ^ n)) by ring.
    rewrite <- !pow2_add by (unfold n; lia). do 2 f_equal. unfold n. lia. }
  rewrite HR.
  destruct (Rnd_shape prec Hprec P Q HP HQ) as [HR1 HR2]. fold g in HR1, HR2.
  rewrite second_shift by assumption.
  rewrite shr_m_of_loc. unfold encode.
  change (Rnd prec P Q) with (RNE P (Q * 2 ^ g) * 2 ^ g).
  set (U := RNE P (Q * 2 ^ g) * 2 ^ g).
  assert (0 <= U / 2 ^ grid prec U).
  { apply Z.div_pos; [unfold U; nia|]. apply pow2_pos, (grid_nonneg prec Hprec). }
  destruct (U / 2 ^ grid prec U); [reflexivity|reflexivity|lia].
Qed.

Lemma binary_round_aux_exact (s : bool) (M ex : Z) :
  0 <= M ->
  ex <= (emin prec emax) + grid prec (M * 2 ^ Z.max 0 (ex - emin prec emax) / 2 ^ Z.max 0 (emin prec emax - ex)) ->
  binary_round_aux prec emax s M ex loc_Exact
  = encode prec emax s (Rnd prec (M * 2 ^ Z.max 0 (ex - emin prec emax)) (2 ^ Z.max 0 (emin prec emax - ex))).
Proof using Hprec Hemax Hemax2.
  intros HM Hex.
  pose proof (binary_round_aux_Rnd s M 1 ex HM ltac:(lia)) as H.
  rewrite Z.mul_1_l, Z.div_1_r in H. unfold loc_of in H. rewrite Z.mod_1_r in H.
  cbn [Z.eqb] in H. apply H. exact Hex.
Qed.


Lemma bounded_inv (m : positive) (e : Z) :
  bounded prec emax m e = true ->
  (emin prec emax) <= e <= emax - prec /\ Z.pos (digits2_pos m) <= prec /\
  ((emin prec emax) < e -> Z.pos (digits2_pos m) = prec).
Proof using Hprec Hemax Hemax2.
  unfold bounded, canonical_mantissa, fexp. intros H.
  apply andb_prop in H as [H1 H2]. apply Z.eqb_eq in H1. apply Z.leb_le in H2. lia.
Qed.

Lemma bounded_intro (m : positive) (e : Z) :
  (emin prec emax) <= e <= emax - prec -> Z.pos (digits2_pos m) <= prec ->
  ((emin prec emax) < e -> Z.pos (digits2_pos m) = prec) -> bounded prec emax m e = true.
Proof using Hprec Hemax Hemax2.
  intros He Hd Hn. unfold bounded, canonical_mantissa, fexp.
  apply andb_true_intro. split; [apply Z.eqb_eq|apply Z.leb_le; lia].
  destruct (Z.eq_dec e (emin prec emax)) as [E|NE]; [lia|]. specialize (Hn ltac:(lia)). lia.
Qed.

Lemma grid_ulps (m : positive) (e : Z) :
  bounded prec emax m e = true -> grid prec (Z.pos m * 2 ^ (e - emin prec emax)) = e - (emin prec emax).
Proof using Hprec Hemax Hemax2.
  intros Hb. apply bounded_inv in Hb as (He & Hd & Hn).
  pose proof (digits2_pos_bounds m) as [Hlo Hhi].
  destruct (Z.eq_dec e (emin prec emax)) as [E|NE].
  - rewrite E, Z.sub_diag, Z.pow_0_r, Z.mul_1_r. apply (grid_small prec Hprec).
    assert (2 ^ Z.pos (digits2_pos m) <= 2 ^ prec) by (apply Z.pow_le_mono_r; lia). lia.
  - specialize (Hn ltac:(lia)). rewrite Hn in Hlo, Hhi.
    pose proof (pow2_pos (e - emin prec emax) ltac:(lia)).
    apply (grid_big prec Hprec); [lia|].
    replace (prec + (e - emin prec emax) - 1) with (prec - 1 + (e - emin prec emax)) by lia.
    rewrite !pow2_add by lia. nia.
Qed.

(** A valid float is the encoding of its value. *)
Lemma encode_ulps (s : bool) (m : positive) (e : Z) :
  bounded prec emax m e = true ->
  encode prec emax s (Z.pos m * 2 ^ (e - emin prec emax)) = S754_finite s m e.
Proof using Hprec Hemax Hemax2.
  intros Hb. unfold encode. rewrite (grid_ulps m e Hb).
  apply bounded_inv in Hb as (He & _).
  rewrite Z.div_mul by (pose proof (pow2_pos (e - emin prec emax) ltac:(lia)); lia).
  replace (emin prec emax + (e - emin prec emax)) with e by lia.
  destruct (Z.leb_spec e (emax - prec)); [reflexivity|lia].
Qed.

Lemma Rnd_ulps (m : positive) (e : Z) :
  bounded prec emax m e = true ->
  Rnd prec (Z.pos m * 2 ^ (e - emin prec emax)) 1 = Z.pos m * 2 ^ (e - emin prec emax).
Proof using Hprec Hemax Hemax2.
  intros Hb. apply bounded_inv in Hb as (He & Hd & _).
  pose proof (digits2_pos_bounds m) as [_ Hhi].
  assert (2 ^ Z.pos (digits2_pos m) <= 2 ^ prec) by (apply Z.pow_le_mono_r; lia).
  rewrite <- (Z.mul_1_r (Z.pos m * 2 ^ (e - emin prec emax))) at 1.
  apply (Rnd_repr prec Hprec); lia.
Qed.

Lemma Rnd_grid_mod (P Q : Z) :
  0 <= P -> 0 < Q -> Rnd prec P Q mod 2 ^ grid prec (Rnd prec P Q) = 0.
Proof using Hprec Hemax Hemax2.
  intros HP HQ.
  pose proof (grid_nonneg prec Hprec (P / Q)) as Hg.
  pose proof (pow2_pos _ Hg) as H2g.
  destruct (Rnd_on_grid prec Hprec P Q HP HQ) as [[[_ Hgr]|[_ H0]]|[HR Hgr]].
  - rewrite Hgr. unfold Rnd. apply Z.mod_mul. lia.
  - rewrite H0. apply Z.mod_0_l. pose proof (grid_nonneg prec Hprec 0).
    pose proof (pow2_pos _ H). lia.
  - rewrite Hgr. unfold Rnd. rewrite HR.
    replace (2 ^ prec) with (2 ^ (prec - 1) * 2).
    2:{ replace prec with (prec - 1 + 1) at 2 by lia. rewrite pow2_add by lia. reflexivity. }
    rewrite pow2_add by lia. change (2 ^ 1) with 2.
    replace (2 ^ (prec - 1) * 2 * 2 ^ grid prec (P / Q))
      with (2 ^ (prec - 1) * (2 ^ grid prec (P / Q) * 2)) by ring.
    apply Z.mod_mul. lia.
Qed.

(** A value on its grid and below the overflow threshold encodes as a
    valid float with that value. *)
Lemma encode_on_grid (U : Z) :
  0 <= U -> U mod 2 ^ grid prec U = 0 -> U < 2 ^ (emax - emin prec emax) ->
  nonneg_finite prec emax (encode prec emax false U) /\
  ulps prec emax (encode prec emax false U) = U /\
  trunc (encode prec emax false U) = U / 2 ^ (- emin prec emax).
Proof using Hprec Hemax Hemax2.
  intros HU Hmod Hlt.
  pose proof (grid_nonneg prec Hprec U) as Hg.
  pose proof (pow2_pos _ Hg) as H2g.
  pose proof (emin_nonpos) as Hem.
  assert (HUm : U = U / 2 ^ grid prec U * 2 ^ grid prec U).
  { pose proof (Z.div_mod U (2 ^ grid prec U) ltac:(lia)). lia. }
  unfold encode.
  destruct (U / 2 ^ grid prec U) as [|p|p] eqn:Ep.
  - assert (U = 0) by lia. subst U. cbn. split; [reflexivity|]. split; reflexivity.
  - assert (Hrange : (emin prec emax) + grid prec U <= emax - prec).
    { destruct (grid_cases prec Hprec U HU) as [[G0 _]|[Gp [Hlo _]]].
      - rewrite G0. unfold emin. lia.
      - assert (prec + grid prec U - 1 < emax - emin prec emax); [|lia].
        apply (Z.pow_lt_mono_r_iff 2); [lia|unfold emin; lia|lia]. }
    destruct (Z.leb_spec (emin prec emax + grid prec U) (emax - prec)) as [_|]; [|lia].
    assert (Hb : bounded prec emax p (emin prec emax + grid prec U) = true).
    { apply bounded_intro; [lia| |].
      - destruct (grid_cases prec Hprec U HU) as [[G0 Hs]|[Gp [Hlo Hhi]]].
        + rewrite G0, Z.pow_0_r, Z.mul_1_r in HUm.
          change (Z.pos (digits2_pos p)) with (Zdigits2 (Z.pos p)).
          apply Zdigits2_le; lia.
        + rewrite (digits2_pos_unique p prec); [lia|].
          replace (prec + grid prec U - 1) with (prec - 1 + grid prec U) in Hlo by lia.
          rewrite !pow2_add in * by lia. nia.
      - intros Hgt. destruct (grid_cases prec Hprec U HU) as [[G0 Hs]|[Gp [Hlo Hhi]]]; [lia|].
        apply digits2_pos_unique.
        replace (prec + grid prec U - 1) with (prec - 1 + grid prec U) in Hlo by lia.
        rewrite !pow2_add in * by lia. nia. }
    split; [split; [reflexivity|exact Hb]|].
    split.
    + cbn [ulps]. replace (emin prec emax + grid prec U - emin prec emax) with (grid prec U) by lia. lia.
    + cbn [trunc cond_Zopp].
      destruct (Z.leb_spec 0 (emin prec emax + grid prec U)) as [Hpos|Hneg].
      * rewrite HUm at 2.
        rewrite (pow2_split (grid prec U) (- emin prec emax)) by lia.
        rewrite Z.mul_assoc, Z.div_mul by (pose proof (pow2_pos (- emin prec emax) ltac:(lia)); lia).
        do 2 f_equal. lia.
      * rewrite HUm at 2.
        rewrite (pow2_split (- emin prec emax) (grid prec U)) by lia.
        rewrite Z.div_mul_cancel_r by
          (pose proof (pow2_pos (- (emin prec emax) - grid prec U) ltac:(lia)); lia).
        do 2 f_equal. lia.
  - pose proof (Z.div_pos U (2 ^ grid prec U) HU H2g). lia.
Qed.

Lemma encode_Rnd (P Q : Z) :
  0 <= P -> 0 < Q -> Rnd prec P Q < 2 ^ (emax - emin prec emax) ->
  nonneg_finite prec emax (encode prec emax false (Rnd prec P Q)) /\
  ulps prec emax (encode prec emax false (Rnd prec P Q)) = Rnd prec P Q /\
  trunc (encode prec emax false (Rnd prec P Q)) = Rnd prec P Q / 2 ^ (- emin prec emax).
Proof using Hprec Hemax Hemax2.
  intros HP HQ Hlt. apply encode_on_grid; [now apply (Rnd_nonneg prec Hprec)|now apply Rnd_grid_mod|exact Hlt].
Qed.

Lemma ulps_nonneg (x : spec_float) : 0 <= ulps prec emax x.
Proof using Hprec Hemax Hemax2.
  destruct x as [| | |s m e]; cbn [ulps]; lia.
Qed.

Lemma ulps_pos (s : bool) (m : positive) (e : Z) :
  bounded prec emax m e = true -> 0 < ulps prec emax (S754_finite s m e).
Proof using Hprec Hemax Hemax2.
  intros Hb. apply bounded_inv in Hb as (He & _). cbn [ulps].
  pose proof (pow2_pos (e - emin prec emax) ltac:(lia)). nia.
Qed.

(** *** The operations on non-negative operands *)

Lemma SFmul_Rnd (x y : spec_float) :
  nonneg_finite prec emax x -> nonneg_finite prec emax y ->
  SFmul prec emax x y
  = encode prec emax false (Rnd prec (ulps prec emax x * ulps prec emax y) (2 ^ (- emin prec emax))).
Proof using Hprec Hemax Hemax2.
  pose proof (emin_nonpos) as Hem.
  pose proof (pow2_pos (- emin prec emax) ltac:(lia)) as H2e.
  assert (Hz : encode prec emax false (Rnd prec 0 (2 ^ (- emin prec emax))) = S754_zero false).
  { rewrite (Rnd_zero prec Hprec) by lia. reflexivity. }
  destruct x as [sx| | |sx mx ex], y as [sy| | |sy my ey]; cbn [nonneg_finite]; try tauto.
  - intros -> ->. cbn [SFmul ulps xorb]. rewrite Z.mul_0_l. now rewrite Hz.
  - intros -> [-> _]. cbn [SFmul ulps xorb]. rewrite Z.mul_0_l. now rewrite Hz.
  - intros [-> _] ->. cbn [SFmul xorb]. cbn [ulps]. rewrite Z.mul_0_r. now rewrite Hz.
  - intros [-> Hbx] [-> Hby]. cbn [SFmul xorb ulps].
    pose proof (bounded_inv mx ex Hbx) as (Hex & Hdx & Hnx).
    pose proof (bounded_inv my ey Hby) as (Hey & Hdy & Hny).
    pose proof (digits2_pos_bounds mx) as [Hlx Hhx].
    pose proof (digits2_pos_bounds my) as [Hly Hhy].
    set (t := ex + ey - emin prec emax).
    pose proof (pow2_pos (Z.max 0 t) ltac:(lia)) as H2a.
    pose proof (pow2_pos (Z.max 0 (- t)) ltac:(lia)) as H2b.
    rewrite Pos2Z.inj_mul.
    rewrite binary_round_aux_exact; try assumption; [|lia|].
    + f_equal. apply (Rnd_scale prec Hprec); [nia|lia|lia|].
      replace (Z.max 0 (ex + ey - emin prec emax)) with (Z.max 0 t) by (unfold t; lia).
      replace (Z.max 0 (emin prec emax - (ex + ey))) with (Z.max 0 (- t)) by (unfold t; lia).
      replace (Z.pos mx * Z.pos my * 2 ^ Z.max 0 t * 2 ^ (- emin prec emax))
        with (Z.pos mx * Z.pos my * (2 ^ Z.max 0 t * 2 ^ (- emin prec emax))) by ring.
      replace (Z.pos mx * 2 ^ (ex - emin prec emax) * (Z.pos my * 2 ^ (ey - emin prec emax)) * 2 ^ Z.max 0 (- t))
        with (Z.pos mx * Z.pos my * (2 ^ (ex - emin prec emax) * 2 ^ (ey - emin prec emax) * 2 ^ Z.max 0 (- t))) by ring.
      rewrite <- !pow2_add by lia. do 2 f_equal. unfold t. lia.
    + (* the product has enough bits *)
      pose proof (grid_nonneg prec Hprec (Z.pos mx * Z.pos my * 2 ^ Z.max 0 (ex + ey - emin prec emax) / 2 ^ Z.max 0 (emin prec emax - (ex + ey)))) as Hg.
      destruct (Z_le_gt_dec (ex + ey) (emin prec emax)) as [Hle|Hgt]; [lia|].
      rewrite (Z.max_l 0 (emin prec emax - (ex + ey))), Z.pow_0_r, Z.div_1_r by lia.
      rewrite (Z.max_r 0 (ex + ey - emin prec emax)) by lia. fold t.
      assert (Ht : 0 < t) by (unfold t; lia).
      assert (Hdd : prec + 1 <= Z.pos (digits2_pos mx) + Z.pos (digits2_pos my)).
      { destruct (Z.eq_dec ex (emin prec emax)) as [Ex|Nx]; destruct (Z.eq_dec ey (emin prec emax)) as [Ey|Ny].
        - lia.
        - specialize (Hny ltac:(lia)). lia.
        - specialize (Hnx ltac:(lia)). lia.
        - specialize (Hnx ltac:(lia)). specialize (Hny ltac:(lia)). lia. }
      assert (Hk : Z.pos (digits2_pos mx) + Z.pos (digits2_pos my) - 1 + t
                   <= Zdigits2 (Z.pos mx * Z.pos my * 2 ^ t)).
      { pose proof (Zdigits2_ge (Z.pos mx * Z.pos my * 2 ^ t)
                      (Z.pos (digits2_pos mx) - 1 + (Z.pos (digits2_pos my) - 1) + t)
                      ltac:(lia)) as Hge.
        rewrite !pow2_add in Hge by lia.
        pose proof (pow2_pos t ltac:(lia)).
        assert (Hmm : 2 ^ (Z.pos (digits2_pos mx) - 1) * 2 ^ (Z.pos (digits2_pos my) - 1)
                      <= Z.pos mx * Z.pos my) by (apply Z.mul_le_mono_nonneg; lia).
        assert (Hmt : 2 ^ (Z.pos (digits2_pos mx) - 1) * 2 ^ (Z.pos (digits2_pos my) - 1) * 2 ^ t
                      <= Z.pos mx * Z.pos my * 2 ^ t) by (apply Z.mul_le_mono_nonneg_r; lia).
        specialize (Hge Hmt). lia. }
      unfold grid, t in *. lia.
Qed.


Lemma SFdiv_Rnd (x y : spec_float) :
  nonneg_finite prec emax x -> nonneg_finite prec emax y -> 0 < ulps prec emax y ->
  SFdiv prec emax x y
  = encode prec emax false (Rnd prec (ulps prec emax x * 2 ^ (- emin prec emax)) (ulps prec emax y)).
Proof using Hprec Hemax Hemax2.
  pose proof emin_nonpos as Hem.
  pose proof (pow2_pos (- emin prec emax) ltac:(lia)) as H2e.
  destruct x as [sx| | |sx mx ex], y as [sy| | |sy my ey]; cbn [nonneg_finite]; try tauto;
    try (cbn [ulps]; intros; lia).
  - intros -> [-> Hby] Hy. cbn [SFdiv xorb]. cbn [ulps] in *.
    rewrite Z.mul_0_l, (Rnd_zero prec Hprec) by lia. reflexivity.
  - intros [-> Hbx] [-> Hby] _. cbn [SFdiv xorb ulps].
    pose proof (bounded_inv mx ex Hbx) as (Hex & _ & _).
    pose proof (bounded_inv my ey Hby) as (Hey & _ & _).
    pose proof (digits2_pos_bounds mx) as [Hlx _].
    pose proof (digits2_pos_bounds my) as [_ Hhy].
    clear Hbx Hby.
    unfold SFdiv_core_binary. cbn [Zdigits2].
    set (dx := Z.pos (digits2_pos mx)) in *. set (dy := Z.pos (digits2_pos my)) in *.
    assert (Hdx : 1 <= dx) by (unfold dx; lia).
    assert (Hdy : 1 <= dy) by (unfold dy; lia).
    clearbody dx dy.
    set (E := dx + ex - (dy + ey)).
    set (e' := Z.min (fexp prec emax E) (ex - ey)).
    assert (He1 : e' <= ex - ey) by (unfold e'; lia).
    assert (He2 : e' <= (emin prec emax) \/ ((emin prec emax) < E - prec /\ e' <= E - prec)) by (unfold e', fexp; lia).
    clearbody e'.
    set (sh := ex - ey - e').
    assert (Hsh : 0 <= sh) by (unfold sh; lia).
    pose proof (pow2_pos sh Hsh) as H2s.
    assert (Hm' : match sh with Z.pos _ => Z.shiftl (Z.pos mx) sh | 0 => Z.pos mx | Z.neg _ => 0 end
                  = Z.pos mx * 2 ^ sh).
    { destruct sh as [|p|p] eqn:Es; [rewrite Z.pow_0_r; lia| |lia].
      rewrite Z.shiftl_mul_pow2 by lia. reflexivity. }
    rewrite Hm'. clear Hm'.
    set (N := Z.pos mx * 2 ^ sh).
    assert (HN : 0 < N) by (unfold N; apply Z.mul_pos_pos; lia).
    assert (Hde : Z.div_eucl N (Z.pos my) = (N / Z.pos my, N mod Z.pos my)).
    { unfold Z.div, Z.modulo. destruct (Z.div_eucl N (Z.pos my)); reflexivity. }
    rewrite Hde. clear Hde. rewrite new_location_loc_of by lia.
    rewrite binary_round_aux_Rnd; [| lia | lia |].
    + set (a := Z.max 0 (e' - emin prec emax)). set (b := Z.max 0 (emin prec emax - e')).
      assert (Hab : 0 <= a /\ 0 <= b /\ a - b = e' - emin prec emax) by (unfold a, b; lia).
      clearbody a b. destruct Hab as (Ha & Hb & Hab).
      f_equal. apply (Rnd_scale prec Hprec).
      * apply Z.mul_nonneg_nonneg; [lia|]. apply Z.pow_nonneg; lia.
      * apply Z.mul_pos_pos; [lia|]. apply pow2_pos; lia.
      * apply Z.mul_pos_pos; [lia|]. apply pow2_pos; lia.
      * unfold N.
        replace (Z.pos mx * 2 ^ sh * 2 ^ a * (Z.pos my * 2 ^ (ey - emin prec emax)))
          with (Z.pos mx * Z.pos my * (2 ^ sh * 2 ^ a * 2 ^ (ey - emin prec emax))) by ring.
        replace (Z.pos mx * 2 ^ (ex - emin prec emax) * 2 ^ (- emin prec emax) * (Z.pos my * 2 ^ b))
          with (Z.pos mx * Z.pos my * (2 ^ (ex - emin prec emax) * 2 ^ (- emin prec emax) * 2 ^ b)) by ring.
        rewrite <- !pow2_add by lia. do 2 f_equal. unfold sh. lia.
    + (* the quotient is taken with enough bits *)
      set (a := Z.max 0 (e' - emin prec emax)). set (b := Z.max 0 (emin prec emax - e')).
      assert (Hab : 0 <= a /\ 0 <= b /\ a - b = e' - emin prec emax) by (unfold a, b; lia).
      clearbody a b. destruct Hab as (Ha & Hb & Hab).
      set (P := N * 2 ^ a). set (Q := Z.pos my * 2 ^ b).
      pose proof (grid_nonneg prec Hprec (P / Q)) as Hg.
      destruct He2 as [Hsmall|[Hbig He3]]; [lia|].
      set (t := ex - ey - emin prec emax).
      set (c := dx - dy + t - 1).
      assert (Hc : prec <= c) by (unfold c, t, E in *; lia).
      pose proof (pow2_pos a Ha) as H2a. pose proof (pow2_pos b Hb) as H2b.
      pose proof (pow2_pos c ltac:(lia)) as H2c.
      pose proof (pow2_pos dy ltac:(lia)) as H2dy.
      assert (HQ : 0 < Q) by (unfold Q; apply Z.mul_pos_pos; lia).
      assert (HQle : Q <= 2 ^ dy * 2 ^ b)
        by (unfold Q; apply Z.mul_le_mono_nonneg_r; lia).
      assert (HPge : 2 ^ (dx - 1) * 2 ^ sh * 2 ^ a <= P).
      { unfold P, N. apply Z.mul_le_mono_nonneg_r; [lia|].
        apply Z.mul_le_mono_nonneg_r; lia. }
      assert (Heq : 2 ^ c * (2 ^ dy * 2 ^ b) = 2 ^ (dx - 1) * 2 ^ sh * 2 ^ a).
      { rewrite <- !pow2_add by lia. f_equal. unfold c, t, sh. lia. }
      assert (Hle : 2 ^ c * Q <= 2 ^ c * (2 ^ dy * 2 ^ b))
        by (apply Z.mul_le_mono_nonneg_l; lia).
      assert (Hk : 2 ^ c <= P / Q) by (apply Z.div_le_lower_bound; lia).
      pose proof (Zdigits2_ge (P / Q) c ltac:(lia) Hk) as Hd.
      unfold grid. unfold c, t, E in *. lia.
Qed.

(** [binary_round] rounds the value [m * 2 ^ e]. *)
Lemma binary_round_Rnd (s : bool) (m : positive) (e : Z) :
  (emin prec emax) <= e ->
  binary_round prec emax s m e = encode prec emax s (Rnd prec (Z.pos m * 2 ^ (e - emin prec emax)) 1).
Proof using Hprec Hemax Hemax2.
  intros He.
  pose proof (digits2_pos_bounds m) as [Hlo Hhi].
  set (d := Z.pos (digits2_pos m)) in *.
  assert (Hgrid : fexp prec emax (d + e) = (emin prec emax) + grid prec (Z.pos m * 2 ^ (e - emin prec emax))).
  { unfold grid, fexp.
    rewrite (Zdigits2_unique (Z.pos m * 2 ^ (e - emin prec emax)) (d + (e - emin prec emax))).
    - lia.
    - replace (d + (e - emin prec emax) - 1) with (d - 1 + (e - emin prec emax)) by lia.
      unfold d in *. rewrite !pow2_add by lia.
      pose proof (pow2_pos (e - emin prec emax) ltac:(lia)). nia.
    - pose proof (pow2_pos (e - emin prec emax) ltac:(lia)). nia. }
  unfold binary_round. fold d. unfold shl_align.
  destruct (fexp prec emax (d + e) - e) as [|p|p] eqn:Ep.
  - rewrite binary_round_aux_exact; try assumption; [|lia|].
    + f_equal. rewrite (Z.max_r 0 (e - emin prec emax)), (Z.max_l 0 (emin prec emax - e)) by lia. reflexivity.
    + rewrite (Z.max_r 0 (e - emin prec emax)), (Z.max_l 0 (emin prec emax - e)), Z.pow_0_r, Z.div_1_r by lia. lia.
  - rewrite binary_round_aux_exact; try assumption; [|lia|].
    + f_equal. rewrite (Z.max_r 0 (e - emin prec emax)), (Z.max_l 0 (emin prec emax - e)) by lia. reflexivity.
    + rewrite (Z.max_r 0 (e - emin prec emax)), (Z.max_l 0 (emin prec emax - e)), Z.pow_0_r, Z.div_1_r by lia. lia.
  - set (fe := fexp prec emax (d + e)) in *.
    assert (Hfe : (emin prec emax) <= fe) by (unfold fe, fexp; lia).
    assert (Hmz : Z.pos (Pos.iter xO m p) * 2 ^ (fe - emin prec emax) = Z.pos m * 2 ^ (e - emin prec emax)).
    { rewrite Zpos_iter_xO, <- Z.mul_assoc, <- pow2_add by lia. do 2 f_equal. lia. }
    rewrite binary_round_aux_exact; try assumption; [|lia|].
    + f_equal. rewrite (Z.max_r 0 (fe - emin prec emax)), (Z.max_l 0 (emin prec emax - fe)) by lia.
      rewrite Hmz. reflexivity.
    + rewrite (Z.max_r 0 (fe - emin prec emax)), (Z.max_l 0 (emin prec emax - fe)), Z.pow_0_r, Z.div_1_r by lia.
      rewrite Hmz. lia.
Qed.

Lemma shl_align_fst (m : positive) (e e' : Z) :
  e' <= e -> Z.pos (fst (shl_align m e e')) = Z.pos m * 2 ^ (e - e').
Proof using Hprec Hemax Hemax2.
  intros H. unfold shl_align. destruct (e' - e) as [|p|p] eqn:Ep; cbn [fst].
  - replace (e - e') with 0 by lia. lia.
  - lia.
  - rewrite Zpos_iter_xO. do 2 f_equal. lia.
Qed.

Lemma SFsub_Rnd (x y : spec_float) :
  nonneg_finite prec emax x -> nonneg_finite prec emax y ->
  ulps prec emax y <= ulps prec emax x ->
  SFsub prec emax x y
  = encode prec emax false (Rnd prec (ulps prec emax x - ulps prec emax y) 1).
Proof using Hprec Hemax Hemax2.
  destruct x as [sx| | |sx mx ex], y as [sy| | |sy my ey]; cbn [nonneg_finite]; try tauto.
  - intros -> -> _. cbn [SFsub ulps]. rewrite Z.sub_0_r, (Rnd_zero prec Hprec) by lia. reflexivity.
  - intros -> [-> Hby] Hle. pose proof (ulps_pos false my ey Hby).
    cbn [ulps] in *. lia.
  - intros [-> Hbx] -> _. cbn [SFsub ulps]. rewrite Z.sub_0_r.
    rewrite Rnd_ulps by assumption. symmetry. now apply encode_ulps.
  - intros [-> Hbx] [-> Hby] Hle. cbn [ulps] in *. cbn [SFsub cond_Zopp].
    pose proof (bounded_inv mx ex Hbx) as (Hex & _).
    pose proof (bounded_inv my ey Hby) as (Hey & _).
    set (ez := Z.min ex ey).
    rewrite !shl_align_fst by (unfold ez; lia).
    pose proof (pow2_pos (ez - emin prec emax) ltac:(unfold ez; lia)) as H2z.
    assert (Hx : Z.pos mx * 2 ^ (ex - emin prec emax) = Z.pos mx * 2 ^ (ex - ez) * 2 ^ (ez - emin prec emax)).
    { rewrite <- Z.mul_assoc, <- pow2_add by (unfold ez; lia). do 2 f_equal. lia. }
    assert (Hy : Z.pos my * 2 ^ (ey - emin prec emax) = Z.pos my * 2 ^ (ey - ez) * 2 ^ (ez - emin prec emax)).
    { rewrite <- Z.mul_assoc, <- pow2_add by (unfold ez; lia). do 2 f_equal. lia. }
    rewrite Hx, Hy in *. rewrite <- Z.mul_sub_distr_r.
    destruct (Z.pos mx * 2 ^ (ex - ez) - Z.pos my * 2 ^ (ey - ez)) as [|w|w] eqn:Ew.
    + cbn [binary_normalize]. rewrite Z.mul_0_l, (Rnd_zero prec Hprec) by lia. reflexivity.
    + cbn [binary_normalize]. apply binary_round_Rnd. unfold ez. lia.
    + exfalso. nia.
Qed.

(** *** Integers as floats *)

Lemma fint_nonneg_finite (n : Z) :
  0 <= n < 2 ^ prec ->
  nonneg_finite prec emax (fint prec n) /\ ulps prec emax (fint prec n) = n * 2 ^ (- emin prec emax).
Proof using Hprec Hemax Hemax2.
  intros Hn. pose proof (emin_nonpos) as Hem.
  destruct n as [|v|v]; [split; reflexivity| |lia].
  cbn [fint]. unfold canon. cbn [nonneg_finite ulps].
  pose proof (digits_le_prec prec Hprec v ltac:(lia)) as Hd.
  pose proof (canon_mant_spec prec Hprec v ltac:(lia)) as Hm.
  pose proof (canon_mant_digits prec Hprec v ltac:(lia)) as Hmd.
  split; [split; [reflexivity|]|].
  - apply bounded_intro; try assumption; unfold canon_exp, emin; lia.
  - rewrite Hm. unfold canon_exp. rewrite <- Z.mul_assoc, <- pow2_add by (unfold emin; lia).
    do 2 f_equal. lia.
Qed.

(** *** Addition *)

Lemma SFadd_Rnd (x y : spec_float) :
  nonneg_finite prec emax x -> nonneg_finite prec emax y ->
  SFadd prec emax x y
  = encode prec emax false (Rnd prec (ulps prec emax x + ulps prec emax y) 1).
Proof using Hprec Hemax Hemax2.
  destruct x as [sx| | |sx mx ex], y as [sy| | |sy my ey]; cbn [nonneg_finite]; try tauto.
  - intros -> ->. cbn [SFadd ulps]. rewrite Z.add_0_r, (Rnd_zero prec Hprec) by lia. reflexivity.
  - intros -> [-> Hby]. cbn [SFadd ulps]. rewrite Z.add_0_l.
    rewrite Rnd_ulps by assumption. symmetry. now apply encode_ulps.
  - intros [-> Hbx] ->. cbn [SFadd ulps]. rewrite Z.add_0_r.
    rewrite Rnd_ulps by assumption. symmetry. now apply encode_ulps.
  - intros [-> Hbx] [-> Hby]. cbn [ulps]. cbn [SFadd cond_Zopp].
    pose proof (bounded_inv mx ex Hbx) as (Hex & _).
    pose proof (bounded_inv my ey Hby) as (Hey & _).
    set (ez := Z.min ex ey).
    rewrite !shl_align_fst by (unfold ez; lia).
    pose proof (pow2_pos (ez - emin prec emax) ltac:(unfold ez; lia)) as H2z.
    pose proof (pow2_pos (ex - ez) ltac:(unfold ez; lia)) as H2x.
    pose proof (pow2_pos (ey - ez) ltac:(unfold ez; lia)) as H2y.
    assert (Hx : Z.pos mx * 2 ^ (ex - emin prec emax) = Z.pos mx * 2 ^ (ex - ez) * 2 ^ (ez - emin prec emax)).
    { rewrite <- Z.mul_assoc, <- pow2_add by (unfold ez; lia). do 2 f_equal. lia. }
    assert (Hy : Z.pos my * 2 ^ (ey - emin prec emax) = Z.pos my * 2 ^ (ey - ez) * 2 ^ (ez - emin prec emax)).
    { rewrite <- Z.mul_assoc, <- pow2_add by (unfold ez; lia). do 2 f_equal. lia. }
    rewrite Hx, Hy. rewrite <- Z.mul_add_distr_r.
    destruct (Z.pos mx * 2 ^ (ex - ez) + Z.pos my * 2 ^ (ey - ez)) as [|w|w] eqn:Ew.
    + exfalso. nia.
    + cbn [binary_normalize]. apply binary_round_Rnd. unfold ez. lia.
    + exfalso. nia.
Qed.

(** A negative number plus a positive one is a subtraction. *)
Lemma SFadd_neg_pos (mx my : positive) (ex ey : Z) :
  SFadd prec emax (S754_finite true mx ex) (S754_finite false my ey)
  = SFsub prec emax (S754_finite false my ey) (S754_finite false mx ex).
Proof using Hprec Hemax Hemax2.
  cbn [SFadd SFsub cond_Zopp]. rewrite (Z.min_comm ey ex). f_equal; lia.
Qed.

(** *** Comparison *)

Lemma SFcompare_ulps (m1 m2 : positive) (e1 e2 : Z) :
  bounded prec emax m1 e1 = true -> bounded prec emax m2 e2 = true ->
  match e1 ?= e2 with
  | Lt => Lt
  | Gt => Gt
  | Eq => Pos.compare_cont Eq m1 m2
  end = (Z.pos m1 * 2 ^ (e1 - emin prec emax) ?= Z.pos m2 * 2 ^ (e2 - emin prec emax)).
Proof using Hprec Hemax Hemax2.
  intros Hb1 Hb2.
  pose proof (bounded_inv m1 e1 Hb1) as (He1 & Hd1 & Hn1).
  pose proof (bounded_inv m2 e2 Hb2) as (He2 & Hd2 & Hn2).
  pose proof (digits2_pos_bounds m1) as [Hl1 Hh1].
  pose proof (digits2_pos_bounds m2) as [Hl2 Hh2].
  assert (Hlt : forall ma mb ea eb,
            (emin prec emax) <= ea -> ea < eb ->
            Z.pos ma < 2 ^ prec -> 2 ^ (prec - 1) <= Z.pos mb ->
            Z.pos ma * 2 ^ (ea - emin prec emax) < Z.pos mb * 2 ^ (eb - emin prec emax)).
  { intros ma mb ea eb Hea Hab Hma Hmb.
    pose proof (pow2_pos (ea - emin prec emax) ltac:(lia)) as Ha.
    pose proof (pow2_pos (eb - ea - 1) ltac:(lia)) as Hb.
    pose proof (pow2_pos (prec - 1) ltac:(lia)) as Hp.
    assert (E1 : 2 ^ (eb - emin prec emax) = 2 ^ (eb - ea - 1) * 2 * 2 ^ (ea - emin prec emax)).
    { replace (eb - emin prec emax) with ((eb - ea - 1) + 1 + (ea - emin prec emax)) by lia.
      rewrite !pow2_add by lia. reflexivity. }
    assert (E2 : 2 ^ prec = 2 ^ (prec - 1) * 2).
    { replace prec with (prec - 1 + 1) at 1 by lia. rewrite pow2_add by lia. reflexivity. }
    rewrite E1.
    apply Z.lt_le_trans with (2 ^ prec * 2 ^ (ea - emin prec emax)).
    - apply Z.mul_lt_mono_pos_r; lia.
    - rewrite E2.
      replace (Z.pos mb * (2 ^ (eb - ea - 1) * 2 * 2 ^ (ea - emin prec emax)))
        with (Z.pos mb * 2 ^ (eb - ea - 1) * 2 * 2 ^ (ea - emin prec emax)) by ring.
      apply Z.mul_le_mono_nonneg_r; [lia|].
      apply Z.mul_le_mono_nonneg_r; [lia|].
      apply Z.le_trans with (Z.pos mb * 1); [lia|].
      apply Z.mul_le_mono_nonneg_l; lia. }
  assert (Hs1 : Z.pos m1 < 2 ^ prec).
  { assert (2 ^ Z.pos (digits2_pos m1) <= 2 ^ prec) by (apply Z.pow_le_mono_r; lia). lia. }
  assert (Hs2 : Z.pos m2 < 2 ^ prec).
  { assert (2 ^ Z.pos (digits2_pos m2) <= 2 ^ prec) by (apply Z.pow_le_mono_r; lia). lia. }
  destruct (Z.compare_spec e1 e2) as [E|L|G].
  - subst e2. change (Pos.compare_cont Eq m1 m2) with (Z.pos m1 ?= Z.pos m2).
    pose proof (pow2_pos (e1 - emin prec emax) ltac:(lia)) as Hpw.
    destruct (Z.compare_spec (Z.pos m1) (Z.pos m2)) as [E|L|G]; symmetry.
    + apply Z.compare_eq_iff. now rewrite E.
    + apply Z.compare_lt_iff. apply Z.mul_lt_mono_pos_r; assumption.
    + apply Z.compare_gt_iff. apply Z.mul_lt_mono_pos_r; assumption.
  - symmetry. apply Z.compare_lt_iff. apply Hlt; try lia.
    specialize (Hn2 ltac:(lia)). rewrite Hn2 in Hl2. exact Hl2.
  - symmetry. apply Z.compare_gt_iff. apply Hlt; try lia.
    specialize (Hn1 ltac:(lia)). rewrite Hn1 in Hl1. exact Hl1.
Qed.

(** Valid floats compare as their values do. *)
Lemma SFcompare_sulps (x y : spec_float) :
  finite_float prec emax x -> finite_float prec emax y ->
  SFcompare x y = Some (sulps prec emax x ?= sulps prec emax y).
Proof using Hprec Hemax Hemax2.
  destruct x as [sx| | |sx mx ex], y as [sy| | |sy my ey]; cbn [finite_float]; try tauto.
  - intros _ Hby. pose proof (ulps_pos sy my ey Hby) as Hp. cbn [ulps] in Hp.
    cbn [SFcompare sulps]. destruct sy; cbn [cond_Zopp]; f_equal; symmetry.
    + apply Z.compare_gt_iff. lia.
    + apply Z.compare_lt_iff. lia.
  - intros Hbx _. pose proof (ulps_pos sx mx ex Hbx) as Hp. cbn [ulps] in Hp.
    cbn [SFcompare sulps]. destruct sx; cbn [cond_Zopp]; f_equal; symmetry.
    + apply Z.compare_lt_iff. lia.
    + apply Z.compare_gt_iff. lia.
  - intros Hbx Hby.
    pose proof (ulps_pos sx mx ex Hbx) as Hpx. cbn [ulps] in Hpx.
    pose proof (ulps_pos sy my ey Hby) as Hpy. cbn [ulps] in Hpy.
    pose proof (SFcompare_ulps mx my ex ey Hbx Hby) as Hc.
    cbn [SFcompare sulps]. destruct sx, sy; cbn [cond_Zopp]; f_equal.
    + rewrite Z.compare_opp.
      rewrite (Z.compare_antisym (Z.pos mx * 2 ^ (ex - emin prec emax))), <- Hc.
      destruct (ex ?= ey); reflexivity.
    + symmetry. apply Z.compare_lt_iff. lia.
    + symmetry. apply Z.compare_gt_iff. lia.
    + exact Hc.
Qed.

Lemma SFleb_sulps (x y : spec_float) :
  finite_float prec emax x -> finite_float prec emax y ->
  SFleb x y = true <-> sulps prec emax x <= sulps prec emax y.
Proof using Hprec Hemax Hemax2.
  intros Hx Hy. unfold SFleb. rewrite (SFcompare_sulps x y Hx Hy).
  destruct (Z.compare_spec (sulps prec emax x) (sulps prec emax y)); split; intros; try lia;
    try reflexivity; discriminate.
Qed.

Lemma SFltb_sulps (x y : spec_float) :
  finite_float prec emax x -> finite_float prec emax y ->
  SFltb x y = true <-> sulps prec emax x < sulps prec emax y.
Proof using Hprec Hemax Hemax2.
  intros Hx Hy. unfold SFltb. rewrite (SFcompare_sulps x y Hx Hy).
  destruct (Z.compare_spec (sulps prec emax x) (sulps prec emax y)); split; intros; try lia;
    try reflexivity; discriminate.
Qed.

Lemma nonneg_finite_sulps (x : spec_float) :
  nonneg_finite prec emax x ->
  finite_float prec emax x /\ sulps prec emax x = ulps prec emax x.
Proof using Hprec Hemax Hemax2.
  destruct x as [s| | |s m e]; cbn [nonneg_finite finite_float sulps ulps]; try tauto.
  intros [-> Hb]. split; [exact Hb|reflexivity].
Qed.

Lemma Rnd_ulps_nonneg_finite (x : spec_float) :
  nonneg_finite prec emax x -> Rnd prec (ulps prec emax x) 1 = ulps prec emax x.
Proof using Hprec Hemax Hemax2.
  destruct x as [s| | |s m e]; cbn [nonneg_finite ulps]; try tauto.
  all: try (intros [_ Hb]; now apply Rnd_ulps).
  all: intros _; apply (Rnd_zero prec Hprec); lia.
Qed.

Lemma encode_ulps_nonneg_finite (x : spec_float) :
  nonneg_finite prec emax x -> encode prec emax false (ulps prec emax x) = x.
Proof using Hprec Hemax Hemax2.
  destruct x as [s| | |s m e]; cbn [nonneg_finite ulps]; try tauto.
  all: try (intros [-> Hb]; now apply encode_ulps).
  all: intros ->; reflexivity.
Qed.

(** A value that is at least [- one], plus [one]. *)
Lemma SFadd_one (x one : spec_float) :
  finite_float prec emax x ->
  nonneg_finite prec emax one ->
  - ulps prec emax one <= sulps prec emax x ->
  SFadd prec emax x one
  = encode prec emax false (Rnd prec (ulps prec emax one + sulps prec emax x) 1).
Proof using Hprec Hemax Hemax2.
  intros Hx Hone Hlo.
  destruct x as [sx| | |sx mx ex]; cbn [finite_float] in Hx; try tauto.
  - cbn [sulps]. rewrite Z.add_0_r, Rnd_ulps_nonneg_finite, encode_ulps_nonneg_finite
      by assumption.
    destruct one as [s1| | |s1 m1 e1]; cbn [nonneg_finite] in Hone; try tauto.
    subst s1. destruct sx; reflexivity.
  - destruct sx.
    + destruct one as [s1| | |s1 m1 e1]; cbn [nonneg_finite] in Hone; try tauto.
      * pose proof (ulps_pos true mx ex Hx) as Hp. cbn [ulps sulps cond_Zopp] in *. lia.
      * destruct Hone as [-> Hb1]. rewrite SFadd_neg_pos.
        rewrite SFsub_Rnd; [|split; [reflexivity|assumption]..|].
        -- cbn [ulps sulps cond_Zopp]. do 2 f_equal; lia.
        -- cbn [ulps sulps cond_Zopp] in *. lia.
    + rewrite SFadd_Rnd; [|split; [reflexivity|assumption]|assumption].
      cbn [ulps sulps cond_Zopp]. do 2 f_equal; lia.
Qed.
End RoundedOps.

Lemma overflow_above (prec emax j : Z) :
  0 < prec -> 2 <= emax -> 0 <= j < emax ->
  2 ^ j * 2 ^ (- emin prec emax) < 2 ^ (emax - emin prec emax).
Proof.
  intros Hp He Hj. assert (emin prec emax <= 0) by (unfold emin; lia).
  rewrite <- pow2_add by lia. apply Z.pow_lt_mono_r; lia.
Qed.

(** ** The fade formula in units *)

(** [lo + (s + 1) / 2 * d] as the code computes it, for a sine value [s]
    between [-1] and [1]: every step is a rounding of the exact result. *)
Lemma fade_units (lo d s : spec_float) :
  nonneg_finite 53 1024 lo -> nonneg_finite 53 1024 d ->
  ulps 53 1024 lo <= 2 ^ (- emin 53 1024) -> ulps 53 1024 d <= 2 ^ (- emin 53 1024) ->
  finite_float 53 1024 s ->
  - 2 ^ (- emin 53 1024) <= sulps 53 1024 s <= 2 ^ (- emin 53 1024) ->
  nonneg_finite 53 1024
    (f64_add lo (f64_mul (f64_div (f64_add s (f64_of_int 1)) (f64_of_int 2)) d)) /\
  ulps 53 1024
    (f64_add lo (f64_mul (f64_div (f64_add s (f64_of_int 1)) (f64_of_int 2)) d))
  = Rnd 53 (ulps 53 1024 lo
            + Rnd 53 (Rnd 53 (Rnd 53 (2 ^ (- emin 53 1024) + sulps 53 1024 s) 1) 2
                      * ulps 53 1024 d) (2 ^ (- emin 53 1024))) 1.
Proof.
  intros Hlo Hd Hlo1 Hd1 Hs Hs1.
  assert (Hp : 0 < 53) by lia. assert (He : 53 <= 1024) by lia. assert (He2 : 2 <= 1024) by lia.
  pose proof (emin_nonpos 53 Hp 1024 He He2) as Hem.
  set (ONE := 2 ^ (- emin 53 1024)) in *.
  assert (H1 : 0 < ONE) by (apply pow2_pos; lia).
  assert (Hovf : forall j, 0 <= j < 1024 -> 2 ^ j * ONE < 2 ^ (1024 - emin 53 1024))
    by (intros j Hj; apply overflow_above; lia).
  assert (Hpow : forall j, 0 <= j -> 2 ^ (j - emin 53 1024) = 2 ^ j * ONE)
    by (intros j Hj; unfold ONE; rewrite <- pow2_add by lia; f_equal; lia).
  pose proof (ulps_nonneg 53 Hp 1024 He He2 lo) as Hlo0.
  pose proof (ulps_nonneg 53 Hp 1024 He He2 d) as Hd0.
  set (Ulo := ulps 53 1024 lo) in *. set (Ud := ulps 53 1024 d) in *.
  set (S := sulps 53 1024 s) in *.
  destruct (fint_nonneg_finite 53 Hp 1024 He He2 1 ltac:(lia)) as [Hf1 Hu1].
  destruct (fint_nonneg_finite 53 Hp 1024 He He2 2 ltac:(lia)) as [Hf2 Hu2].
  fold ONE in Hu1, Hu2. rewrite Z.mul_1_l in Hu1.
  rewrite !f64_of_int_exact by (simpl; lia).
  (* s + 1 *)
  set (U1 := Rnd 53 (ONE + S) 1).
  assert (HU10 : 0 <= U1) by (apply (Rnd_nonneg 53 Hp); lia).
  assert (HU11 : U1 <= 2 * ONE).
  { pose proof (Rnd_le_repr 53 Hp (ONE + S) 1 1 (1 - emin 53 1024)
                  ltac:(lia) ltac:(lia) ltac:(lia) ltac:(lia)) as H.
    rewrite Hpow, Z.mul_1_l in H by lia. change (2 ^ 1) with 2 in H. apply H. lia. }
  assert (E1 : f64_add s (fint 53 1) = encode 53 1024 false U1).
  { unfold f64_add. rewrite (SFadd_one 53 Hp 1024 He He2) by (try assumption; rewrite Hu1; lia).
    rewrite Hu1. reflexivity. }
  destruct (encode_Rnd 53 Hp 1024 He He2 (ONE + S) 1 ltac:(lia) ltac:(lia)) as (Hf1' & Hu1' & _).
  { fold U1. specialize (Hovf 1 ltac:(lia)). change (2 ^ 1) with 2 in Hovf. lia. }
  fold U1 in Hf1', Hu1'.
  (* / 2 *)
  set (U2 := Rnd 53 U1 2).
  assert (HU20 : 0 <= U2) by (apply (Rnd_nonneg 53 Hp); lia).
  assert (HU21 : U2 <= ONE).
  { pose proof (Rnd_le_repr 53 Hp U1 2 1 (- emin 53 1024)
                  ltac:(lia) ltac:(lia) ltac:(lia) ltac:(lia)) as H.
    fold ONE in H. apply H. lia. }
  assert (E2 : f64_div (encode 53 1024 false U1) (fint 53 2) = encode 53 1024 false U2).
  { unfold f64_div. rewrite (SFdiv_Rnd 53 Hp 1024 He He2) by (try assumption; rewrite Hu2; lia).
    rewrite Hu1', Hu2. fold ONE. f_equal. apply (Rnd_scale 53 Hp); nia. }
  destruct (encode_Rnd 53 Hp 1024 He He2 U1 2 ltac:(lia) ltac:(lia)) as (Hf2' & Hu2' & _).
  { fold U2. specialize (Hovf 0 ltac:(lia)). rewrite Z.pow_0_r in Hovf. lia. }
  fold U2 in Hf2', Hu2'.
  (* * d *)
  set (U3 := Rnd 53 (U2 * Ud) ONE).
  assert (HU30 : 0 <= U3) by (apply (Rnd_nonneg 53 Hp); nia).
  assert (HU31 : U3 <= ONE).
  { pose proof (Rnd_le_repr 53 Hp (U2 * Ud) ONE 1 (- emin 53 1024)
                  ltac:(nia) ltac:(lia) ltac:(lia) ltac:(lia)) as H.
    fold ONE in H. apply H. rewrite Z.mul_1_l. apply Z.mul_le_mono_nonneg; lia. }
  assert (E3 : f64_mul (encode 53 1024 false U2) d = encode 53 1024 false U3).
  { unfold f64_mul. rewrite (SFmul_Rnd 53 Hp 1024 He He2) by assumption.
    rewrite Hu2'. reflexivity. }
  destruct (encode_Rnd 53 Hp 1024 He He2 (U2 * Ud) ONE ltac:(nia) ltac:(lia)) as (Hf3' & Hu3' & _).
  { fold U3. specialize (Hovf 0 ltac:(lia)). rewrite Z.pow_0_r in Hovf. lia. }
  fold U3 in Hf3', Hu3'.
  (* lo + *)
  set (Uo := Rnd 53 (Ulo + U3) 1).
  assert (HUo1 : Uo <= 2 * ONE).
  { pose proof (Rnd_le_repr 53 Hp (Ulo + U3) 1 1 (1 - emin 53 1024)
                  ltac:(lia) ltac:(lia) ltac:(lia) ltac:(lia)) as H.
    rewrite Hpow, Z.mul_1_l in H by lia. change (2 ^ 1) with 2 in H. apply H. lia. }
  assert (E4 : f64_add lo (encode 53 1024 false U3) = encode 53 1024 false Uo).
  { unfold f64_add. rewrite (SFadd_Rnd 53 Hp 1024 He He2) by assumption.
    rewrite Hu3'. reflexivity. }
  destruct (encode_Rnd 53 Hp 1024 He He2 (Ulo + U3) 1 ltac:(lia) ltac:(lia)) as (Hfo & Huo & _).
  { fold Uo. specialize (Hovf 1 ltac:(lia)). change (2 ^ 1) with 2 in Hovf. lia. }
  fold Uo in Hfo, Huo.
  rewrite E1, E2, E3, E4. split; assumption.
Qed.

(** The fade formula is monotone in the sine value. *)
Lemma fade_units_mono (Ulo Ud S S' : Z) :
  0 <= Ulo -> 0 <= Ud -> - 2 ^ (- emin 53 1024) <= S -> S <= S' ->
  Rnd 53 (Ulo + Rnd 53 (Rnd 53 (Rnd 53 (2 ^ (- emin 53 1024) + S) 1) 2 * Ud)
                  (2 ^ (- emin 53 1024))) 1
  <= Rnd 53 (Ulo + Rnd 53 (Rnd 53 (Rnd 53 (2 ^ (- emin 53 1024) + S') 1) 2 * Ud)
                     (2 ^ (- emin 53 1024))) 1.
Proof.
  intros Hlo Hd HS HSS.
  assert (Hp : 0 < 53) by lia.
  pose proof (emin_nonpos 53 Hp 1024 ltac:(lia) ltac:(lia)) as Hem.
  set (ONE := 2 ^ (- emin 53 1024)) in *.
  assert (H1 : 0 < ONE) by (apply pow2_pos; lia).
  assert (M1 : Rnd 53 (ONE + S) 1 <= Rnd 53 (ONE + S') 1) by (apply (Rnd_mono 53 Hp); lia).
  assert (N1 : 0 <= Rnd 53 (ONE + S) 1) by (apply (Rnd_nonneg 53 Hp); lia).
  assert (M2 : Rnd 53 (Rnd 53 (ONE + S) 1) 2 <= Rnd 53 (Rnd 53 (ONE + S') 1) 2)
    by (apply (Rnd_mono 53 Hp); lia).
  assert (N2 : 0 <= Rnd 53 (Rnd 53 (ONE + S) 1) 2) by (apply (Rnd_nonneg 53 Hp); lia).
  set (A := Rnd 53 (Rnd 53 (ONE + S) 1) 2) in *.
  set (A' := Rnd 53 (Rnd 53 (ONE + S') 1) 2) in *.
  assert (M3 : Rnd 53 (A * Ud) ONE <= Rnd 53 (A' * Ud) ONE).
  { apply (Rnd_mono 53 Hp); [nia|lia|lia|].
    apply Z.mul_le_mono_nonneg_r; [lia|]. apply Z.mul_le_mono_nonneg_r; lia. }
  assert (N3 : 0 <= Rnd 53 (A * Ud) ONE) by (apply (Rnd_nonneg 53 Hp); nia).
  apply (Rnd_mono 53 Hp); lia.
Qed.

(** ** The opacity stays within its bounds *)

Section FadeBounds.
Context {sprite : Type}.
Variable np_sin : spec_float -> spec_float.

(** Every fade cycle stored was written by [assign_ghost_to_person]: its
    bounds are 0.4 and 0.8 and its period is a [uniform] drawn. *)
Lemma after_assignments_fade_data (sprites : list sprite)
    (calls : list (Z * sprite * spec_float * spec_float)) (id : Z) (fd : fade_data) :
  Forall (fun call => SFleb (f64_of_decimal 5 10) call.1.2 = true) calls ->
  person_fade_data (after_assignments sprites calls) !! id = Some fd ->
  min_opacity fd = f64_of_decimal 4 10 /\ max_opacity fd = f64_of_decimal 8 10 /\
  is_zero (cycle_time fd) = false.
Proof.
  intros Hcalls. unfold after_assignments.
  assert (Hinit : forall fd,
            person_fade_data (new_ghost_tracker sprites) !! id = Some fd ->
            min_opacity fd = f64_of_decimal 4 10 /\ max_opacity fd = f64_of_decimal 8 10 /\
            is_zero (cycle_time fd) = false).
  { intros fd'. cbn. now rewrite lookup_empty. }
  revert fd. revert Hinit. generalize (new_ghost_tracker sprites).
  induction Hcalls as [|[[[pid c] u] t] calls Hu Hcalls IH]; intros self Hinit; [exact Hinit|].
  cbn [fold_left]. apply IH. intros fd.
  unfold assign_ghost_to_person. cbn [snd].
  destruct (person_ghost_map self !! pid); [apply Hinit|].
  destruct (0 <? length (ghost_sprites self))%nat; [|apply Hinit].
  cbn [person_fade_data].
  destruct (decide (pid = id)) as [->|Hne].
  - rewrite lookup_insert_eq. intros [= <-]. cbn. repeat split.
    cbn in Hu. destruct u; try reflexivity. revert Hu. vm_compute. discriminate.
  - rewrite lookup_insert_ne by assumption. apply Hinit.
Qed.

(** A sine value between [-1] and [1] is a finite float of that size. *)
Lemma sine_range_units (s : spec_float) :
  valid_binary 53 1024 s = true ->
  SFleb (f64_of_int (-1)) s = true -> SFleb s (f64_of_int 1) = true ->
  finite_float 53 1024 s /\
  - 2 ^ (- emin 53 1024) <= sulps 53 1024 s <= 2 ^ (- emin 53 1024).
Proof.
  intros Hv Hlo Hhi.
  assert (Hp : 0 < 53) by lia. assert (He : 53 <= 1024) by lia. assert (He2 : 2 <= 1024) by lia.
  assert (Hs : finite_float 53 1024 s).
  { destruct s as [sg|[|]| |sg m e]; cbn [finite_float]; try exact I; try exact Hv.
    - revert Hhi. vm_compute. discriminate.
    - revert Hlo. vm_compute. discriminate.
    - revert Hlo. vm_compute. discriminate. }
  split; [exact Hs|].
  destruct (fint_nonneg_finite 53 Hp 1024 He He2 1 ltac:(lia)) as [Hf1 Hu1].
  rewrite Z.mul_1_l in Hu1.
  destruct (nonneg_finite_sulps 53 Hp 1024 He He2 _ Hf1) as [Hff1 Hs1].
  rewrite !f64_of_int_exact in * by (simpl; lia).
  assert (Hm1 : finite_float 53 1024 (fint 53 (-1)) /\
                sulps 53 1024 (fint 53 (-1)) = - sulps 53 1024 (fint 53 1)).
  { split; [exact Hff1|]. cbn [fint canon sulps cond_Zopp]. reflexivity. }
  destruct Hm1 as [Hfm1 Hsm1].
  apply (SFleb_sulps 53 Hp 1024 He He2 _ _ Hfm1 Hs) in Hlo.
  apply (SFleb_sulps 53 Hp 1024 He He2 _ _ Hs Hff1) in Hhi.
  rewrite Hsm1, Hs1, Hu1 in Hlo. rewrite Hs1, Hu1 in Hhi. lia.
Qed.

Lemma fade_constants :
  f64_of_decimal 4 10 = S754_finite false 7205759403792794 (-54) /\
  f64_of_decimal 8 10 = S754_finite false 7205759403792794 (-53) /\
  f64_sub (f64_of_decimal 8 10) (f64_of_decimal 4 10) = f64_of_decimal 4 10 /\
  bounded 53 1024 7205759403792794 (-54) = true /\
  bounded 53 1024 7205759403792794 (-53) = true /\
  SFleb (f64_of_decimal 4 10) (fint 53 1) = true.
Proof. vm_compute. repeat split. Qed.

(** The bounds for a sine value between [-1] and [1]. *)
Lemma fade_within_bounds (s : spec_float) :
  valid_binary 53 1024 s = true ->
  SFleb (f64_of_int (-1)) s = true -> SFleb s (f64_of_int 1) = true ->
  SFleb (f64_of_decimal 4 10)
    (f64_add (f64_of_decimal 4 10)
       (f64_mul (f64_div (f64_add s (f64_of_int 1)) (f64_of_int 2))
          (f64_sub (f64_of_decimal 8 10) (f64_of_decimal 4 10)))) = true /\
  SFleb
    (f64_add (f64_of_decimal 4 10)
       (f64_mul (f64_div (f64_add s (f64_of_int 1)) (f64_of_int 2))
          (f64_sub (f64_of_decimal 8 10) (f64_of_decimal 4 10))))
    (f64_of_decimal 8 10) = true.
Proof.
  intros Hv Hlo Hhi.
  assert (Hp : 0 < 53) by lia. assert (He : 53 <= 1024) by lia. assert (He2 : 2 <= 1024) by lia.
  destruct (sine_range_units s Hv Hlo Hhi) as [Hs HS].
  destruct fade_constants as (E4 & E8 & Ed & Hb4 & Hb8 & Hle4).
  rewrite Ed.
  assert (Hf4 : nonneg_finite 53 1024 (f64_of_decimal 4 10))
    by (rewrite E4; split; [reflexivity|exact Hb4]).
  assert (Hf8 : nonneg_finite 53 1024 (f64_of_decimal 8 10))
    by (rewrite E8; split; [reflexivity|exact Hb8]).
  destruct (fint_nonneg_finite 53 Hp 1024 He He2 1 ltac:(lia)) as [Hf1 Hu1].
  rewrite Z.mul_1_l in Hu1.
  destruct (nonneg_finite_sulps 53 Hp 1024 He He2 _ Hf1) as [Hff1 Hs1].
  destruct (nonneg_finite_sulps 53 Hp 1024 He He2 _ Hf4) as [Hff4 Hs4].
  destruct (nonneg_finite_sulps 53 Hp 1024 He He2 _ Hf8) as [Hff8 Hs8].
  assert (HU4 : ulps 53 1024 (f64_of_decimal 4 10) <= 2 ^ (- emin 53 1024)).
  { apply (SFleb_sulps 53 Hp 1024 He He2 _ _ Hff4 Hff1) in Hle4. lia. }
  pose proof (ulps_nonneg 53 Hp 1024 He He2 (f64_of_decimal 4 10)) as HU40.
  (* the formula at s, at -1 and at 1 *)
  destruct (fade_units _ _ s Hf4 Hf4 HU4 HU4 Hs HS) as [Hfo Huo].
  assert (Hm1 : finite_float 53 1024 (fint 53 (-1)) /\
                sulps 53 1024 (fint 53 (-1)) = - 2 ^ (- emin 53 1024)).
  { split; [exact Hff1|]. rewrite <- Hu1, <- Hs1. reflexivity. }
  destruct Hm1 as [Hfm1 Hsm1].
  destruct (fade_units _ _ (fint 53 (-1)) Hf4 Hf4 HU4 HU4 Hfm1 ltac:(lia)) as [_ Hulo].
  destruct (fade_units _ _ (fint 53 1) Hf4 Hf4 HU4 HU4 Hff1 ltac:(lia)) as [_ Huhi].
  assert (Elo : f64_add (f64_of_decimal 4 10)
                  (f64_mul (f64_div (f64_add (fint 53 (-1)) (f64_of_int 1)) (f64_of_int 2))
                     (f64_of_decimal 4 10)) = f64_of_decimal 4 10)
    by (vm_compute; reflexivity).
  assert (Ehi : f64_add (f64_of_decimal 4 10)
                  (f64_mul (f64_div (f64_add (fint 53 1) (f64_of_int 1)) (f64_of_int 2))
                     (f64_of_decimal 4 10)) = f64_of_decimal 8 10)
    by (vm_compute; reflexivity).
  rewrite Elo in Hulo. rewrite Ehi in Huhi.
  destruct (nonneg_finite_sulps 53 Hp 1024 He He2 _ Hfo) as [Hffo Hso].
  split; apply (SFleb_sulps 53 Hp 1024 He He2); try assumption.
  - rewrite Hs4, Hso, Hulo, Huo. apply fade_units_mono; lia.
  - rewrite Hs8, Hso, Huhi, Huo. apply fade_units_mono; lia.
Qed.

(** C6, as amended: as long as every cycle time drawn is at least 0.5,
    every fade cycle stored has the bounds 0.4 and 0.8 and
    [get_current_opacity] returns for every person and at every instant;
    if the sine is a number between [-1] and [1] or NaN, the opacity
    returned lies between 0.4 and 0.8, or it is NaN, and NaN only where
    the sine is NaN.  (Exact periodicity is not part of it: see the
    counterexample below.) *)
Theorem opacity_within_bounds (sprites : list sprite)
    (calls : list (Z * sprite * spec_float * spec_float))
    (now : spec_float) (person_id : Z) :
  (forall x,
     is_nan (np_sin x) = true \/
     valid_binary 53 1024 (np_sin x) = true /\
     SFleb (f64_of_int (-1)) (np_sin x) = true /\ SFleb (np_sin x) (f64_of_int 1) = true) ->
  Forall (fun call => SFleb (f64_of_decimal 5 10) call.1.2 = true) calls ->
  (forall fd, person_fade_data (after_assignments sprites calls) !! person_id = Some fd ->
     min_opacity fd = f64_of_decimal 4 10 /\ max_opacity fd = f64_of_decimal 8 10) /\
  exists opacity,
    get_current_opacity np_sin (after_assignments sprites calls) now person_id
    = (Returns opacity, after_assignments sprites calls) /\
    (SFleb (f64_of_decimal 4 10) opacity = true /\
     SFleb opacity (f64_of_decimal 8 10) = true \/
     is_nan opacity = true /\ exists x, is_nan (np_sin x) = true).
Proof.
  intros Hsin Hcalls. split.
  { intros fd Hfd.
    destruct (after_assignments_fade_data sprites calls person_id fd Hcalls Hfd) as (H1 & H2 & _).
    now split. }
  unfold get_current_opacity.
  pose proof (after_assignments_alpha sprites calls) as Halpha.
  pose proof (after_assignments_fade_data sprites calls person_id) as Hinv.
  destruct (person_fade_data (after_assignments sprites calls) !! person_id) as [fd|].
  2:{ eexists. split; [reflexivity|]. left. rewrite Halpha. vm_compute. split; reflexivity. }
  destruct (Hinv fd Hcalls eq_refl) as (Hmin & Hmax & Hcycle).
  assert (Hfin : forall r,
            SFleb (f64_of_decimal 4 10)
              (f64_add (min_opacity fd)
                 (f64_mul
                    (f64_div
                       (f64_add
                          (np_sin (f64_mul (f64_mul (f64_div r (cycle_time fd)) (f64_of_int 2))
                                     np_pi))
                          (f64_of_int 1)) (f64_of_int 2))
                    (f64_sub (max_opacity fd) (min_opacity fd)))) = true /\
            SFleb
              (f64_add (min_opacity fd)
                 (f64_mul
                    (f64_div
                       (f64_add
                          (np_sin (f64_mul (f64_mul (f64_div r (cycle_time fd)) (f64_of_int 2))
                                     np_pi))
                          (f64_of_int 1)) (f64_of_int 2))
                    (f64_sub (max_opacity fd) (min_opacity fd))))
              (f64_of_decimal 8 10) = true \/
            is_nan
              (f64_add (min_opacity fd)
                 (f64_mul
                    (f64_div
                       (f64_add
                          (np_sin (f64_mul (f64_mul (f64_div r (cycle_time fd)) (f64_of_int 2))
                                     np_pi))
                          (f64_of_int 1)) (f64_of_int 2))
                    (f64_sub (max_opacity fd) (min_opacity fd)))) = true /\
            exists x, is_nan (np_sin x) = true).
  { intros r. rewrite Hmin, Hmax.
    destruct (Hsin (f64_mul (f64_mul (f64_div r (cycle_time fd)) (f64_of_int 2)) np_pi))
      as [Hnan|(Hv & Hlo & Hhi)].
    - right. split; [|eexists; exact Hnan].
      destruct (np_sin _); try discriminate. reflexivity.
    - left. now apply fade_within_bounds. }
  unfold cycle_position, py_float_mod, py_float_div. rewrite Hcycle.
  destruct (is_zero (fmod _ _)).
  - eexists. split; [reflexivity|apply Hfin].
  - destruct (xorb _ _); eexists; (split; [reflexivity|apply Hfin]).
Qed.
End FadeBounds.

Lemma opacity_within_bounds_witness :
  (forall fd,
     person_fade_data
       (after_assignments [tt] [(1, tt, f64_of_decimal 13 10, f64_of_int 1000)]) !! 1 = Some fd ->
     min_opacity fd = f64_of_decimal 4 10 /\ max_opacity fd = f64_of_decimal 8 10) /\
  exists opacity,
    get_current_opacity flat_sine
      (after_assignments [tt] [(1, tt, f64_of_decimal 13 10, f64_of_int 1000)])
      (f64_of_int 1001) 1
    = (Returns opacity, after_assignments [tt] [(1, tt, f64_of_decimal 13 10, f64_of_int 1000)]) /\
    (SFleb (f64_of_decimal 4 10) opacity = true /\
     SFleb opacity (f64_of_decimal 8 10) = true \/
     is_nan opacity = true /\ exists x, is_nan (flat_sine x) = true).
Proof.
  apply (opacity_within_bounds flat_sine [tt]
           [(1, tt, f64_of_decimal 13 10, f64_of_int 1000)] (f64_of_int 1001) 1).
  - intros [s|s| |s m e]; cbn [flat_sine]; [right|left|left|right]; try reflexivity;
      vm_compute; repeat split.
  - repeat constructor.
Defined.

Lemma between_finite (prec emax : Z) (lo x hi : spec_float) :
  valid_binary prec emax x = true ->
  finite_float prec emax lo -> finite_float prec emax hi ->
  SFleb lo x = true -> SFleb x hi = true -> finite_float prec emax x.
Proof.
  intros Hv Hlo Hhi H1 H2.
  destruct x as [s|s| |s m e]; cbn [finite_float]; [exact I| |discriminate|exact Hv].
  - destruct s.
    + destruct lo as [| | |sl ml el]; cbn [finite_float] in Hlo; try tauto; discriminate.
    + destruct hi as [| | |sh mh eh]; cbn [finite_float] in Hhi; try tauto; discriminate.
Qed.

(** Between two sine values that differ enough, the opacities differ. *)
Lemma fade_separates (s s' v w : spec_float) :
  valid_binary 53 1024 s = true -> valid_binary 53 1024 s' = true ->
  valid_binary 53 1024 v = true -> valid_binary 53 1024 w = true ->
  SFleb (f64_of_int (-1)) v = true -> SFleb v (f64_of_int 1) = true ->
  SFleb (f64_of_int (-1)) w = true -> SFleb w (f64_of_int 1) = true ->
  SFleb (f64_of_int (-1)) s = true -> SFleb s v = true ->
  SFleb w s' = true -> SFleb s' (f64_of_int 1) = true ->
  SFltb
    (f64_add (f64_of_decimal 4 10)
       (f64_mul (f64_div (f64_add v (f64_of_int 1)) (f64_of_int 2)) (f64_of_decimal 4 10)))
    (f64_add (f64_of_decimal 4 10)
       (f64_mul (f64_div (f64_add w (f64_of_int 1)) (f64_of_int 2)) (f64_of_decimal 4 10)))
  = true ->
  f64_add (f64_of_decimal 4 10)
    (f64_mul (f64_div (f64_add s (f64_of_int 1)) (f64_of_int 2)) (f64_of_decimal 4 10))
  <> f64_add (f64_of_decimal 4 10)
       (f64_mul (f64_div (f64_add s' (f64_of_int 1)) (f64_of_int 2)) (f64_of_decimal 4 10)).
Proof.
  intros Hvs Hvs' Hvv Hvw Hv1 Hv2 Hw1 Hw2 Hs1 Hs2 Hs'1 Hs'2 Hlt.
  assert (Hp : 0 < 53) by lia. assert (He : 53 <= 1024) by lia. assert (He2 : 2 <= 1024) by lia.
  destruct (sine_range_units v Hvv Hv1 Hv2) as [Hfv HSv].
  destruct (sine_range_units w Hvw Hw1 Hw2) as [Hfw HSw].
  destruct (sine_range_units (f64_of_int 1)) as [Hf1 _]; try reflexivity.
  destruct (sine_range_units (f64_of_int (-1))) as [Hfm1 _]; try reflexivity.
  pose proof (between_finite 53 1024 _ s _ Hvs Hfm1 Hfv Hs1 Hs2) as Hfs.
  pose proof (between_finite 53 1024 _ s' _ Hvs' Hfw Hf1 Hs'1 Hs'2) as Hfs'.
  assert (Hsv : sulps 53 1024 s <= sulps 53 1024 v)
    by (now apply (SFleb_sulps 53 Hp 1024 He He2 _ _ Hfs Hfv)).
  assert (Hws : sulps 53 1024 w <= sulps 53 1024 s')
    by (now apply (SFleb_sulps 53 Hp 1024 He He2 _ _ Hfw Hfs')).
  assert (HSs : - 2 ^ (- emin 53 1024) <= sulps 53 1024 s <= 2 ^ (- emin 53 1024)).
  { destruct (sine_range_units s) as [_ H]; try assumption.
    apply (SFleb_sulps 53 Hp 1024 He He2 _ _ Hfs Hf1).
    apply (SFleb_sulps 53 Hp 1024 He He2 _ _ Hfv Hf1) in Hv2. lia. }
  assert (HSs' : - 2 ^ (- emin 53 1024) <= sulps 53 1024 s' <= 2 ^ (- emin 53 1024)).
  { destruct (sine_range_units s') as [_ H]; try assumption.
    apply (SFleb_sulps 53 Hp 1024 He He2 _ _ Hfm1 Hfs').
    apply (SFleb_sulps 53 Hp 1024 He He2 _ _ Hfm1 Hfw) in Hw1. lia. }
  destruct fade_constants as (E4 & E8 & Ed & Hb4 & Hb8 & Hle4).
  assert (Hf4 : nonneg_finite 53 1024 (f64_of_decimal 4 10))
    by (rewrite E4; split; [reflexivity|exact Hb4]).
  destruct (nonneg_finite_sulps 53 Hp 1024 He He2 _ Hf4) as [Hff4 Hs4].
  assert (HU4 : ulps 53 1024 (f64_of_decimal 4 10) <= 2 ^ (- emin 53 1024)).
  { apply (SFleb_sulps 53 Hp 1024 He He2 _ _ Hff4) in Hle4; [|exact Hf1].
    destruct (fint_nonneg_finite 53 Hp 1024 He He2 1 ltac:(lia)) as [Hn1 Hu1].
    destruct (nonneg_finite_sulps 53 Hp 1024 He He2 _ Hn1) as [_ Hs1'].
    rewrite Z.mul_1_l in Hu1. lia. }
  pose proof (ulps_nonneg 53 Hp 1024 He He2 (f64_of_decimal 4 10)) as HU40.
  destruct (fade_units _ _ s Hf4 Hf4 HU4 HU4 Hfs HSs) as [Hns Hus].
  destruct (fade_units _ _ s' Hf4 Hf4 HU4 HU4 Hfs' HSs') as [Hns' Hus'].
  destruct (fade_units _ _ v Hf4 Hf4 HU4 HU4 Hfv HSv) as [Hnv Huv].
  destruct (fade_units _ _ w Hf4 Hf4 HU4 HU4 Hfw HSw) as [Hnw Huw].
  destruct (nonneg_finite_sulps 53 Hp 1024 He He2 _ Hnv) as [Hffv Hsv'].
  destruct (nonneg_finite_sulps 53 Hp 1024 He He2 _ Hnw) as [Hffw Hsw'].
  apply (SFltb_sulps 53 Hp 1024 He He2 _ _ Hffv Hffw) in Hlt.
  rewrite Hsv', Hsw', Huv, Huw in Hlt.
  pose proof (fade_units_mono _ _ _ _ HU40 HU40 (proj1 HSs) Hsv) as M1.
  pose proof (fade_units_mono _ _ _ _ HU40 HU40 (proj1 HSw) Hws) as M2.
  intros Heq. apply (f_equal (ulps 53 1024)) in Heq. rewrite Hus, Hus' in Heq. lia.
Qed.

(** C6 as stated fails in its second half: the opacity is not exactly
    periodic.  A cycle of 0.7 s started at 1700000000.0 is sampled at
    1700000000.1 and one period later.  At these clock values a double
    has 22 bits after the point, the sum [now + 0.7] and the two elapsed
    times are rounded, and the sine is taken at 0.89759704... the first
    time and at 0.89759747... the second.  The sine of the first is below
    0.7818310 and the sine of the second above 0.7818312 (the C library
    returns 0.78183094875... and 0.78183121561...), and for every sine
    function with these two properties the two opacities differ.  With
    the two values of the C library, which have these properties, they
    are 0.7563661897500914 and 0.7563662431218631. *)
Lemma opacity_fade_counterexample :
  person_fade_data
    (after_assignments [tt] [(1, tt, f64_of_decimal 7 10, f64_of_int 1700000000)]) !! 1
  = Some (FadeData (f64_of_decimal 7 10) (f64_of_int 1700000000)
            (f64_of_decimal 4 10) (f64_of_decimal 8 10)) /\
  (forall np_sin : spec_float -> spec_float,
    valid_binary 53 1024 (np_sin (S754_finite false 8084835434868101 (-53))) = true ->
    valid_binary 53 1024 (np_sin (S754_finite false 8084839290021735 (-53))) = true ->
    SFleb (f64_of_int (-1)) (np_sin (S754_finite false 8084835434868101 (-53))) = true ->
    SFleb (np_sin (S754_finite false 8084835434868101 (-53)))
      (f64_of_decimal 7818310 10000000) = true ->
    SFleb (f64_of_decimal 7818312 10000000)
      (np_sin (S754_finite false 8084839290021735 (-53))) = true ->
    SFleb (np_sin (S754_finite false 8084839290021735 (-53))) (f64_of_int 1) = true ->
    (get_current_opacity np_sin
       (after_assignments [tt] [(1, tt, f64_of_decimal 7 10, f64_of_int 1700000000)])
       (f64_of_decimal 17000000001 10) 1).1
    <> (get_current_opacity np_sin
          (after_assignments [tt] [(1, tt, f64_of_decimal 7 10, f64_of_int 1700000000)])
          (f64_add (f64_of_decimal 17000000001 10) (f64_of_decimal 7 10)) 1).1) /\
  opacity_of_sine
    (FadeData (f64_of_decimal 7 10) (f64_of_int 1700000000)
       (f64_of_decimal 4 10) (f64_of_decimal 8 10))
    (S754_finite false 7042107138918558 (-53))
  = S754_finite false 6812740980628307 (-53) /\
  opacity_of_sine
    (FadeData (f64_of_decimal 7 10) (f64_of_int 1700000000)
       (f64_of_decimal 4 10) (f64_of_decimal 8 10))
    (S754_finite false 7042109542569468 (-53))
  = S754_finite false 6812741461358489 (-53) /\
  SFleb (S754_finite false 7042107138918558 (-53)) (f64_of_decimal 7818310 10000000) = true /\
  SFleb (f64_of_decimal 7818312 10000000) (S754_finite false 7042109542569468 (-53)) = true.
Proof.
  assert (Hl : person_fade_data
                 (after_assignments [tt] [(1, tt, f64_of_decimal 7 10, f64_of_int 1700000000)])
                 !! 1
               = Some (FadeData (f64_of_decimal 7 10) (f64_of_int 1700000000)
                         (f64_of_decimal 4 10) (f64_of_decimal 8 10)))
    by reflexivity.
  split; [exact Hl|]. split; [|repeat split; vm_compute; reflexivity].
  intros np_sin Hv1 Hv2 Hlo1 Hhi1 Hlo2 Hhi2.
  unfold get_current_opacity. rewrite Hl.
  assert (Hc1 : cycle_position
                  (FadeData (f64_of_decimal 7 10) (f64_of_int 1700000000)
                     (f64_of_decimal 4 10) (f64_of_decimal 8 10))
                  (f64_of_decimal 17000000001 10)
                = Some (S754_finite false 5146966094175086 (-55)))
    by (vm_compute; reflexivity).
  assert (Hc2 : cycle_position
                  (FadeData (f64_of_decimal 7 10) (f64_of_int 1700000000)
                     (f64_of_decimal 4 10) (f64_of_decimal 8 10))
                  (f64_add (f64_of_decimal 17000000001 10) (f64_of_decimal 7 10))
                = Some (S754_finite false 5146968548442115 (-55)))
    by (vm_compute; reflexivity).
  rewrite Hc1, Hc2. cbn [fst min_opacity max_opacity].
  assert (Ha1 : f64_mul (f64_mul (S754_finite false 5146966094175086 (-55)) (f64_of_int 2)) np_pi
                = S754_finite false 8084835434868101 (-53)) by (vm_compute; reflexivity).
  assert (Ha2 : f64_mul (f64_mul (S754_finite false 5146968548442115 (-55)) (f64_of_int 2)) np_pi
                = S754_finite false 8084839290021735 (-53)) by (vm_compute; reflexivity).
  rewrite Ha1, Ha2.
  destruct fade_constants as (_ & _ & Ed & _).
  rewrite Ed. intros Heq.
  assert (Heq' : f64_add (f64_of_decimal 4 10)
                   (f64_mul (f64_div (f64_add (np_sin (S754_finite false 8084835434868101 (-53)))
                                        (f64_of_int 1)) (f64_of_int 2)) (f64_of_decimal 4 10))
                 = f64_add (f64_of_decimal 4 10)
                     (f64_mul (f64_div (f64_add (np_sin (S754_finite false 8084839290021735 (-53)))
                                          (f64_of_int 1)) (f64_of_int 2)) (f64_of_decimal 4 10)))
    by congruence.
  revert Heq'.
  apply (fade_separates _ _ (f64_of_decimal 7818310 10000000)
           (f64_of_decimal 7818312 10000000)); try assumption; vm_compute; reflexivity.
Qed.

(** ** The normalizer is monotone *)





(** ** Distance trackbars *)




